(** * hue-cache: cache engine, persistence snapshot and sync statistics

    A shallow embedding of the Go packages [cache] (entry.go, errors.go,
    stats.go, backend.go, sync.go, manager.go, clients.go) and [backends]
    (memory.go, file.go), followed by the properties of the specification
    that were checked against it and by further properties of the code.

    Conventions of the embedding.
    - An [int64] is a [Z]; every arithmetic operation goes through
      [Int64.wrap], Go's two's-complement wrap-around.
    - A [time.Time] is a [Z] counting nanoseconds from the zero [Time];
      every operation receives the reading [now] of [time.Now()] as an
      argument, and all the readings taken inside one call are that instant.
    - A [[]byte] is an [option (list byte)]: [None] is the nil slice, which
      Go distinguishes from the empty non-nil slice [Some []].
    - [sync.Map] is a [gmap string Entry]; [Range] walks [map_to_list], one
      of the orders Go leaves unspecified.
    - Locks, tickers and goroutines are left out: operations are modelled as
      they run when no other goroutine interleaves. *)

From Stdlib Require Import ZArith Lia Bool.
From stdpp Require Import gmap strings list fin_maps.

Local Open Scope Z_scope.

(** ** Machine integers *)

Module Int64.

Definition min_int : Z := - 2 ^ 63.
Definition max_int : Z := 2 ^ 63 - 1.

Definition wrap (z : Z) : Z := (z + 2 ^ 63) mod 2 ^ 64 - 2 ^ 63.

Definition add (a b : Z) : Z := wrap (a + b).
Definition sub (a b : Z) : Z := wrap (a - b).
Definition neg (a : Z) : Z := wrap (- a).
Definition mul (a b : Z) : Z := wrap (a * b).
(* Go's integer division truncates toward zero. *)
Definition div (a b : Z) : Z := wrap (Z.quot a b).

Definition in_range (z : Z) : Prop := min_int <= z <= max_int.

End Int64.

(** ** package time *)

Module time.

Definition Time := Z.
Definition Duration := Z.

(* time.Time{} *)
Definition zero : Time := 0.

Definition IsZero (t : Time) : bool := t =? 0.
Definition After (t u : Time) : bool := u <? t.
Definition Before (t u : Time) : bool := t <? u.
Definition Add (t : Time) (d : Duration) : Time := t + d.

(* t.Sub(u) saturates at the largest and smallest Duration. *)
Definition Sub (t u : Time) : Duration :=
  Z.max Int64.min_int (Z.min Int64.max_int (t - u)).

(* time.Until(t) and time.Since(t), at the clock reading [now]. *)
Definition Until (now t : Time) : Duration := Sub t now.
Definition Since (now t : Time) : Duration := Sub now t.

End time.

Abbreviation Time := time.Time.
Abbreviation Duration := time.Duration.

(** ** package strings

    Go strings are byte sequences, as are Rocq's; the four functions below
    follow the bodies of the Go library. *)

Module GoStrings.

(* s[i:j] *)
Definition slice (s : string) (i j : nat) : string :=
  String.substring i (j - i) s.

Definition HasPrefix (s prefix : string) : bool :=
  (String.length prefix <=? String.length s)%nat
  && String.eqb (slice s 0 (String.length prefix)) prefix.

Definition HasSuffix (s suffix : string) : bool :=
  (String.length suffix <=? String.length s)%nat
  && String.eqb
       (slice s (String.length s - String.length suffix) (String.length s))
       suffix.

Definition TrimPrefix (s prefix : string) : string :=
  if HasPrefix s prefix
  then slice s (String.length prefix) (String.length s)
  else s.

Definition TrimSuffix (s suffix : string) : string :=
  if HasSuffix s suffix
  then slice s 0 (String.length s - String.length suffix)
  else s.

End GoStrings.

(** ** Byte slices *)

Definition bytes : Type := option (list Byte.byte).

Definition len (b : bytes) : Z :=
  match b with
  | None => 0
  | Some l => Z.of_nat (length l)
  end.

Definition is_nil (b : bytes) : bool :=
  match b with
  | None => true
  | Some _ => false
  end.

(** ** errors.go *)

(* The sentinel errors, the wrapper type [*Error] built by [NewError], and the
   values of [fmt.Errorf] without and with a wrapped error (the verb %w). *)
Inductive error : Type :=
| ErrNotFound
| ErrExpired
| ErrInvalidKey
| ErrInvalidValue
| ErrBackendClosed
| ErrMemoryLimit
| Error (Op Key : string) (Err : error)
| Errorf (message : string)
| ErrorfW (message : string) (wrapped : error).

Definition NewError (op key : string) (err : error) : error := Error op key err.

(* errors.Is: walks the Unwrap chain. *)
Fixpoint errors_Is (err target : error) : bool :=
  match err, target with
  | ErrNotFound, ErrNotFound
  | ErrExpired, ErrExpired
  | ErrInvalidKey, ErrInvalidKey
  | ErrInvalidValue, ErrInvalidValue
  | ErrBackendClosed, ErrBackendClosed
  | ErrMemoryLimit, ErrMemoryLimit => true
  | Error _ _ e, _ => errors_Is e target
  | ErrorfW _ e, _ => errors_Is e target
  | _, _ => false
  end.

(** ** entry.go *)

Record Entry : Type := mkEntry {
  Key : string;
  Value : bytes;
  CreatedAt : Time;
  UpdatedAt : Time;
  ExpiresAt : Time;
  TTL : Duration;
  Hits : Z;
  Size : Z
}.

Definition IsExpired (e : Entry) (now : Time) : bool :=
  if time.IsZero (ExpiresAt e) then false
  else time.After now (ExpiresAt e).

Definition TimeUntilExpiry (e : Entry) (now : Time) : Duration :=
  if time.IsZero (ExpiresAt e) then 0
  else
    let remaining := time.Until now (ExpiresAt e) in
    if remaining <? 0 then 0 else remaining.

(* make([]byte, len(e.Value)) followed by copy: never the nil slice. *)
Definition copy_bytes (b : bytes) : bytes :=
  match b with
  | None => Some []
  | Some l => Some l
  end.

Definition Clone (e : Entry) : Entry :=
  {| Key := Key e;
     Value := copy_bytes (Value e);
     CreatedAt := CreatedAt e;
     UpdatedAt := UpdatedAt e;
     ExpiresAt := ExpiresAt e;
     TTL := TTL e;
     Hits := Hits e;
     Size := Size e |}.

Definition NewEntry (key : string) (value : bytes) (ttl : Duration)
    (now : Time) : Entry :=
  let size := len value in
  let expiresAt := if 0 <? ttl then time.Add now ttl else time.zero in
  {| Key := key;
     Value := value;
     CreatedAt := now;
     UpdatedAt := now;
     ExpiresAt := expiresAt;
     TTL := ttl;
     Hits := 0;
     Size := size |}.

(* The two in-place updates of a successful Get. *)
Definition touch (e : Entry) (now : Time) : Entry :=
  {| Key := Key e;
     Value := Value e;
     CreatedAt := CreatedAt e;
     UpdatedAt := now;
     ExpiresAt := ExpiresAt e;
     TTL := TTL e;
     Hits := Int64.add (Hits e) 1;
     Size := Size e |}.

(** ** stats.go *)

Record Stats : Type := mkStats {
  Stats_Hits : Z;
  Stats_Misses : Z;
  Stats_Evictions : Z;
  Stats_Entries : Z;
  Stats_Size : Z;
  Stats_Errors : Z;
  Stats_LastError : string;
  Stats_LastErrorTime : Time
}.

Record StatsCollector : Type := mkStatsCollector {
  hits : Z;
  misses : Z;
  evictions : Z;
  entries : Z;
  size_ : Z;
  errors : Z;
  lastError : string;
  lastErrorTime : Time
}.

Definition NewStatsCollector : StatsCollector :=
  {| hits := 0; misses := 0; evictions := 0; entries := 0; size_ := 0;
     errors := 0; lastError := ""; lastErrorTime := time.zero |}.

Definition RecordHit (sc : StatsCollector) : StatsCollector :=
  {| hits := Int64.add (hits sc) 1; misses := misses sc;
     evictions := evictions sc; entries := entries sc; size_ := size_ sc;
     errors := errors sc; lastError := lastError sc;
     lastErrorTime := lastErrorTime sc |}.

Definition RecordMiss (sc : StatsCollector) : StatsCollector :=
  {| hits := hits sc; misses := Int64.add (misses sc) 1;
     evictions := evictions sc; entries := entries sc; size_ := size_ sc;
     errors := errors sc; lastError := lastError sc;
     lastErrorTime := lastErrorTime sc |}.

Definition RecordEviction (sc : StatsCollector) : StatsCollector :=
  {| hits := hits sc; misses := misses sc;
     evictions := Int64.add (evictions sc) 1; entries := entries sc;
     size_ := size_ sc; errors := errors sc; lastError := lastError sc;
     lastErrorTime := lastErrorTime sc |}.

Definition SetEntries (sc : StatsCollector) (count : Z) : StatsCollector :=
  {| hits := hits sc; misses := misses sc; evictions := evictions sc;
     entries := count; size_ := size_ sc; errors := errors sc;
     lastError := lastError sc; lastErrorTime := lastErrorTime sc |}.

Definition SetSize (sc : StatsCollector) (size : Z) : StatsCollector :=
  {| hits := hits sc; misses := misses sc; evictions := evictions sc;
     entries := entries sc; size_ := size; errors := errors sc;
     lastError := lastError sc; lastErrorTime := lastErrorTime sc |}.

Definition StatsCollector_Stats (sc : StatsCollector) : Stats :=
  {| Stats_Hits := hits sc;
     Stats_Misses := misses sc;
     Stats_Evictions := evictions sc;
     Stats_Entries := entries sc;
     Stats_Size := size_ sc;
     Stats_Errors := errors sc;
     Stats_LastError := lastError sc;
     Stats_LastErrorTime := lastErrorTime sc |}.

(** ** backends/memory.go *)

Inductive EvictionPolicy : Type :=
| EvictionLRU
| EvictionLFU
| EvictionFIFO.

Record MemoryConfig : Type := mkMemoryConfig {
  MaxMemory : Z;
  MaxEntries : Z;
  CleanupInterval : Duration;
  EvictionPolicy_ : EvictionPolicy
}.

Record Memory : Type := mkMemory {
  data : gmap string Entry;
  stats : StatsCollector;
  config : MemoryConfig;
  totalSize : Z;
  entryCount : Z;
  closed : bool
}.

(* 1 * time.Minute, in nanoseconds *)
Definition DefaultMemoryConfig : MemoryConfig :=
  {| MaxMemory := 0;
     MaxEntries := 0;
     CleanupInterval := 60000000000;
     EvictionPolicy_ := EvictionLRU |}.

Definition NewMemory (cfg : MemoryConfig) : Memory :=
  {| data := ∅;
     stats := NewStatsCollector;
     config := cfg;
     totalSize := 0;
     entryCount := 0;
     closed := false |}.

Definition with_data (m : Memory) (d : gmap string Entry) : Memory :=
  {| data := d; stats := stats m; config := config m;
     totalSize := totalSize m; entryCount := entryCount m;
     closed := closed m |}.

Definition with_stats (m : Memory) (sc : StatsCollector) : Memory :=
  {| data := data m; stats := sc; config := config m;
     totalSize := totalSize m; entryCount := entryCount m;
     closed := closed m |}.

Definition with_gauges (m : Memory) (total count : Z) : Memory :=
  {| data := data m; stats := stats m; config := config m;
     totalSize := total; entryCount := count; closed := closed m |}.

Definition with_closed (m : Memory) (c : bool) : Memory :=
  {| data := data m; stats := stats m; config := config m;
     totalSize := totalSize m; entryCount := entryCount m; closed := c |}.

(* sync.Map.Range: the entries in the order they are visited. *)
Definition Range (d : gmap string Entry) : list (string * Entry) :=
  map_to_list d.

Definition updateSize (m : Memory) (delta : Z) : Memory :=
  let total := Int64.add (totalSize m) delta in
  let count :=
    if 0 <? delta then Int64.add (entryCount m) 1
    else if delta <? 0 then Int64.sub (entryCount m) 1
    else entryCount m in
  with_stats (with_gauges m total count)
    (SetEntries (SetSize (stats m) total) count).

Definition matchPattern (key pattern : string) : bool :=
  if String.eqb pattern "*" then true
  else if GoStrings.HasSuffix pattern "*" then
    let prefix := GoStrings.TrimSuffix pattern "*" in
    GoStrings.HasPrefix key prefix
  else if GoStrings.HasPrefix pattern "*" then
    let suffix := GoStrings.TrimPrefix pattern "*" in
    GoStrings.HasSuffix key suffix
  else String.eqb key pattern.

(* The victim chosen by one of the three Range loops of evictOne: the loop
   variable ([oldestTime] or [lowestHits]) and the pair evictKey/evictEntry,
   which the loops always assign together; [None] is the initial state, where
   evictKey is the empty string and evictEntry is nil. *)
Definition pick_time (field : Entry -> Time)
    (acc : Time * option (string * Entry)) (kv : string * Entry)
    : Time * option (string * Entry) :=
  let '(oldestTime, _) := acc in
  let '(key, entry) := kv in
  if time.IsZero oldestTime || time.Before (field entry) oldestTime
  then (field entry, Some (key, entry))
  else acc.

Definition pick_hits (acc : Z * option (string * Entry))
    (kv : string * Entry) : Z * option (string * Entry) :=
  let '(lowestHits, _) := acc in
  let '(key, entry) := kv in
  if (lowestHits =? -1) || (Hits entry <? lowestHits)
  then (Hits entry, Some (key, entry))
  else acc.

Definition select_victim (policy : EvictionPolicy) (d : gmap string Entry)
    : option (string * Entry) :=
  match policy with
  | EvictionLRU =>
      snd (fold_left (pick_time UpdatedAt) (Range d) (time.zero, None))
  | EvictionLFU =>
      snd (fold_left pick_hits (Range d) (-1, None))
  | EvictionFIFO =>
      snd (fold_left (pick_time CreatedAt) (Range d) (time.zero, None))
  end.

Definition evictOne (m : Memory) : Memory * option error :=
  match select_victim (EvictionPolicy_ (config m)) (data m) with
  | None => (m, Some ErrMemoryLimit)
  | Some (evictKey, evictEntry) =>
      if String.eqb evictKey "" then (m, Some ErrMemoryLimit)
      else
        let m1 := with_data m (delete evictKey (data m)) in
        let m2 := with_gauges m1
                    (Int64.sub (totalSize m1) (Size evictEntry))
                    (Int64.sub (entryCount m1) 1) in
        (with_stats m2 (RecordEviction (stats m2)), None)
  end.

(* The loop [for m.totalSize+newSize > m.config.MaxMemory] of makeRoom.
   [None] means that [fuel] iterations were not enough. *)
Fixpoint makeRoom_loop (fuel : nat) (m : Memory) (newSize : Z)
    : option (Memory * option error) :=
  if MaxMemory (config m) <? Int64.add (totalSize m) newSize then
    match fuel with
    | O => None
    | S fuel' =>
        match evictOne m with
        | (m', Some err) => Some (m', Some err)
        | (m', None) => makeRoom_loop fuel' m' newSize
        end
    end
  else Some (m, None).

(* The block of makeRoom that checks the entry count limit. *)
Definition makeRoom_count (m : Memory) : Memory * option error :=
  if (0 <? MaxEntries (config m)) && (MaxEntries (config m) <=? entryCount m)
  then evictOne m
  else (m, None).

(* Every iteration of the loop deletes a stored entry or returns, so that one
   more iteration than there are entries is enough (makeRoom_loop_total). *)
Definition makeRoom (m : Memory) (newSize : Z)
    : option (Memory * option error) :=
  match makeRoom_count m with
  | (m1, Some err) => Some (m1, Some err)
  | (m1, None) =>
      if 0 <? MaxMemory (config m1)
      then makeRoom_loop (S (size (data m1))) m1 newSize
      else Some (m1, None)
  end.

Definition Memory_Get (m : Memory) (key : string) (now : Time)
    : Memory * (Entry + error) :=
  if closed m then (m, inr (NewError "Get" key ErrBackendClosed))
  else if String.eqb key "" then (m, inr (NewError "Get" key ErrInvalidKey))
  else
    match data m !! key with
    | None =>
        (with_stats m (RecordMiss (stats m)),
         inr (NewError "Get" key ErrNotFound))
    | Some entry =>
        if IsExpired entry now then
          let m1 := with_stats m (RecordMiss (stats m)) in
          let m2 := with_data m1 (delete key (data m1)) in
          let m3 := updateSize m2 (Int64.neg (Size entry)) in
          let m4 := with_stats m3 (RecordEviction (stats m3)) in
          (m4, inr (NewError "Get" key ErrExpired))
        else
          let entry' := touch entry now in
          let m1 := with_data m (<[key := entry']> (data m)) in
          let m2 := with_stats m1 (RecordHit (stats m1)) in
          (m2, inl (Clone entry'))
    end.

Definition Memory_Set (m : Memory) (key : string) (value : bytes)
    (ttl : Duration) (now : Time) : option (Memory * option error) :=
  if closed m then Some (m, Some (NewError "Set" key ErrBackendClosed))
  else if String.eqb key "" then
    Some (m, Some (NewError "Set" key ErrInvalidKey))
  else if is_nil value then
    Some (m, Some (NewError "Set" key ErrInvalidValue))
  else
    let entry := NewEntry key value ttl now in
    match makeRoom m (Size entry) with
    | None => None
    | Some (m1, Some err) => Some (m1, Some (NewError "Set" key err))
    | Some (m1, None) =>
        let m2 :=
          match data m1 !! key with
          | Some oldEntry => updateSize m1 (Int64.neg (Size oldEntry))
          | None => m1
          end in
        let m3 := with_data m2 (<[key := entry]> (data m2)) in
        Some (updateSize m3 (Size entry), None)
    end.

Definition Memory_Delete (m : Memory) (key : string)
    : Memory * option error :=
  if closed m then (m, Some (NewError "Delete" key ErrBackendClosed))
  else
    match data m !! key with
    | Some entry =>
        let m1 := with_data m (delete key (data m)) in
        (updateSize m1 (Int64.neg (Size entry)), None)
    | None => (m, None)
    end.

Definition Memory_Clear (m : Memory) : Memory * option error :=
  if closed m then (m, Some (NewError "Clear" "" ErrBackendClosed))
  else
    let m1 := with_data m ∅ in
    let m2 := with_gauges m1 0 0 in
    (with_stats m2 (SetEntries (SetSize (stats m2) 0) 0), None).

(* The function that Keys passes to Range. *)
Definition Keys_visit (pattern : string) (now : Time) (keys : list string)
    (kv : string * Entry) : list string :=
  let '(k, entry) := kv in
  if matchPattern k pattern then
    if negb (IsExpired entry now) then keys ++ [k] else keys
  else keys.

Definition Memory_Keys (m : Memory) (pattern : string) (now : Time)
    : list string + error :=
  if closed m then inr (NewError "Keys" "" ErrBackendClosed)
  else inl (fold_left (Keys_visit pattern now) (Range (data m)) []).

Definition Memory_Stats (m : Memory) : Stats + error :=
  if closed m then inr (NewError "Stats" "" ErrBackendClosed)
  else
    let s := StatsCollector_Stats (stats m) in
    inl {| Stats_Hits := Stats_Hits s;
           Stats_Misses := Stats_Misses s;
           Stats_Evictions := Stats_Evictions s;
           Stats_Entries := entryCount m;
           Stats_Size := totalSize m;
           Stats_Errors := Stats_Errors s;
           Stats_LastError := Stats_LastError s;
           Stats_LastErrorTime := Stats_LastErrorTime s |}.

(* Close marks the backend closed before it calls Clear, which therefore
   returns ErrBackendClosed at once and leaves the map as it is. *)
Definition Memory_Close (m : Memory) : Memory * option error :=
  if closed m then (m, None)
  else
    let m1 := with_closed m true in
    (fst (Memory_Clear m1), None).

Definition cleanupExpired (m : Memory) (now : Time) : Memory :=
  let toDelete :=
    fold_left
      (fun acc '(key, entry) =>
         if IsExpired entry now then acc ++ [key] else acc)
      (Range (data m)) [] in
  fold_left
    (fun m key =>
       match data m !! key with
       | Some entry =>
           let m1 := with_data m (delete key (data m)) in
           let m2 := updateSize m1 (Int64.neg (Size entry)) in
           with_stats m2 (RecordEviction (stats m2))
       | None => m
       end)
    toDelete m.

(** ** backends/file.go

    The disk maps a path to the content of the file stored there.  The calls
    into [os] are modelled on their success path. *)

Inductive FileContent : Type :=
| EmptyFile
| GobStream (encoded : list Entry).

Abbreviation Disk := (gmap string FileContent).

(* encoding/gob does not transmit a struct field that holds the zero value of
   its type, and a byte slice of length 0 counts as zero: the decoder, which
   fills a fresh Entry, leaves such a field at the nil slice.  Every other
   field of Entry comes back as it was sent. *)
Definition gobField (b : bytes) : bytes :=
  if len b =? 0 then None else b.

Definition gobEntry (e : Entry) : Entry :=
  {| Key := Key e;
     Value := gobField (Value e);
     CreatedAt := CreatedAt e;
     UpdatedAt := UpdatedAt e;
     ExpiresAt := ExpiresAt e;
     TTL := TTL e;
     Hits := Hits e;
     Size := Size e |}.

(* encoder.Encode(entries) followed, in a later run, by decoder.Decode. *)
Definition gobEncode (es : list Entry) : list Entry := map gobEntry es.
Definition gobDecode (encoded : list Entry) : list Entry := encoded.

Record FileConfig : Type := mkFileConfig {
  FilePath : string;
  AutoSaveInterval : Duration;
  LoadOnStart : bool;
  MemoryConfig_ : option MemoryConfig
}.

Record File : Type := mkFile {
  memory : Memory;
  filePath : string;
  autoSaveInterval : Duration;
  File_closed : bool
}.

Definition with_memory (f : File) (m : Memory) : File :=
  {| memory := m; filePath := filePath f;
     autoSaveInterval := autoSaveInterval f; File_closed := File_closed f |}.

Definition File_Get (f : File) (key : string) (now : Time)
    : File * (Entry + error) :=
  if File_closed f then (f, inr (NewError "Get" key ErrBackendClosed))
  else
    let '(mem, r) := Memory_Get (memory f) key now in
    (with_memory f mem, r).

Definition File_Set (f : File) (key : string) (value : bytes)
    (ttl : Duration) (now : Time) : option (File * option error) :=
  if File_closed f then Some (f, Some (NewError "Set" key ErrBackendClosed))
  else
    match Memory_Set (memory f) key value ttl now with
    | Some (mem, r) => Some (with_memory f mem, r)
    | None => None
    end.

(* 5 * time.Minute *)
Definition DefaultFileConfig : FileConfig :=
  {| FilePath := "./hue-cache.gob";
     AutoSaveInterval := 300000000000;
     LoadOnStart := true;
     MemoryConfig_ := Some DefaultMemoryConfig |}.

(* The loop of Save that collects a copy of every listed entry. *)
Definition collect (acc : Memory * list Entry) (key : string) (now : Time)
    : Memory * list Entry :=
  let '(mem, es) := acc in
  match Memory_Get mem key now with
  | (mem', inl entry) => (mem', es ++ [entry])
  | (mem', inr _) => (mem', es)
  end.

Definition File_Save (f : File) (disk : Disk) (now : Time)
    : File * Disk * option error :=
  if File_closed f then (f, disk, Some ErrBackendClosed)
  else
    let tmpPath := filePath f +:+ ".tmp" in
    let disk1 := <[tmpPath := EmptyFile]> disk in
    match Memory_Keys (memory f) "*" now with
    | inr err => (f, disk1, Some (ErrorfW "getting keys" err))
    | inl keys =>
        let '(mem, es) :=
          fold_left (fun acc key => collect acc key now) keys (memory f, [])
        in
        let disk2 := <[tmpPath := GobStream (gobEncode es)]> disk1 in
        let disk3 :=
          match disk2 !! tmpPath with
          | Some c => <[filePath f := c]> (delete tmpPath disk2)
          | None => disk2
          end in
        (with_memory f mem, disk3, None)
    end.

(* One iteration of the loop of Load. *)
Definition load_entry (mem : Memory) (entry : Entry) (now : Time)
    : option Memory :=
  if IsExpired entry now then Some mem
  else
    let ttl :=
      if negb (time.IsZero (ExpiresAt entry))
      then time.Until now (ExpiresAt entry)
      else 0 in
    if negb (time.IsZero (ExpiresAt entry)) && (ttl <? 0) then Some mem
    else fst <$> Memory_Set mem (Key entry) (Value entry) ttl now.

Fixpoint load_entries (mem : Memory) (es : list Entry) (now : Time)
    : option Memory :=
  match es with
  | [] => Some mem
  | entry :: rest =>
      match load_entry mem entry now with
      | Some mem' => load_entries mem' rest now
      | None => None
      end
  end.

Definition File_Load (f : File) (disk : Disk) (now : Time)
    : option (File * option error) :=
  if File_closed f then Some (f, Some ErrBackendClosed)
  else
    match disk !! filePath f with
    | None => Some (f, None)
    | Some EmptyFile => Some (f, Some (ErrorfW "decoding cache" (Errorf "EOF")))
    | Some (GobStream encoded) =>
        match load_entries (memory f) (gobDecode encoded) now with
        | Some mem => Some (with_memory f mem, None)
        | None => None
        end
    end.

Definition NewFile (config : option FileConfig) (disk : Disk) (now : Time)
    : option File :=
  let config := default DefaultFileConfig config in
  let memcfg := default DefaultMemoryConfig (MemoryConfig_ config) in
  let f := {| memory := NewMemory memcfg;
              filePath := FilePath config;
              autoSaveInterval := AutoSaveInterval config;
              File_closed := false |} in
  if LoadOnStart config then fst <$> File_Load f disk now
  else Some f.

(** ** sync.go

    The event types come from the SDK package [resources], which this
    repository imports: the three event-type constants, the payload type and
    [json.Marshal] on it are parameters, and so is the backend, which the
    engine reaches through the interface [Backend] only.  The two optional
    callbacks of the configuration do not touch the statistics and are left
    out.  [LastError] keeps the error value whose text the Go field holds. *)

Record SyncStats : Type := mkSyncStats {
  EventsProcessed : Z;
  AddEvents : Z;
  UpdateEvents : Z;
  DeleteEvents : Z;
  SyncErrors : Z;
  LastEventTime : Time;
  LastError : option error;
  LastErrorTime : Time;
  AvgLatency : Duration
}.

Definition NewSyncStats : SyncStats :=
  {| EventsProcessed := 0; AddEvents := 0; UpdateEvents := 0;
     DeleteEvents := 0; SyncErrors := 0; LastEventTime := time.zero;
     LastError := None; LastErrorTime := time.zero; AvgLatency := 0 |}.

Inductive counter : Type := CAdd | CUpdate | CDelete.

(* s.stats.AddEvents++, s.stats.UpdateEvents++ or s.stats.DeleteEvents++ *)
Definition increment (c : counter) (st : SyncStats) : SyncStats :=
  {| EventsProcessed := EventsProcessed st;
     AddEvents :=
       match c with CAdd => Int64.add (AddEvents st) 1 | _ => AddEvents st end;
     UpdateEvents :=
       match c with
       | CUpdate => Int64.add (UpdateEvents st) 1
       | _ => UpdateEvents st
       end;
     DeleteEvents :=
       match c with
       | CDelete => Int64.add (DeleteEvents st) 1
       | _ => DeleteEvents st
       end;
     SyncErrors := SyncErrors st;
     LastEventTime := LastEventTime st;
     LastError := LastError st;
     LastErrorTime := LastErrorTime st;
     AvgLatency := AvgLatency st |}.

(* s.stats.EventsProcessed++; s.stats.LastEventTime = time.Now() *)
Definition seen (st : SyncStats) (now : Time) : SyncStats :=
  {| EventsProcessed := Int64.add (EventsProcessed st) 1;
     AddEvents := AddEvents st;
     UpdateEvents := UpdateEvents st;
     DeleteEvents := DeleteEvents st;
     SyncErrors := SyncErrors st;
     LastEventTime := now;
     LastError := LastError st;
     LastErrorTime := LastErrorTime st;
     AvgLatency := AvgLatency st |}.

Definition handleError (st : SyncStats) (err : error) (now : Time)
    : SyncStats :=
  {| EventsProcessed := EventsProcessed st;
     AddEvents := AddEvents st;
     UpdateEvents := UpdateEvents st;
     DeleteEvents := DeleteEvents st;
     SyncErrors := Int64.add (SyncErrors st) 1;
     LastEventTime := LastEventTime st;
     LastError := Some err;
     LastErrorTime := now;
     AvgLatency := AvgLatency st |}.

Definition update_latency (st : SyncStats) (latency : Duration) : SyncStats :=
  {| EventsProcessed := EventsProcessed st;
     AddEvents := AddEvents st;
     UpdateEvents := UpdateEvents st;
     DeleteEvents := DeleteEvents st;
     SyncErrors := SyncErrors st;
     LastEventTime := LastEventTime st;
     LastError := LastError st;
     LastErrorTime := LastErrorTime st;
     AvgLatency :=
       if AvgLatency st =? 0 then latency
       else Int64.div (Int64.add (Int64.mul (AvgLatency st) 9) latency) 10 |}.

(* KeyBuilder.Resource *)
Definition Resource (resourceType id : string) : string :=
  resourceType +:+ ":" +:+ id.

Section SyncEngine.

Variable RawData : Type.
Variable json_Marshal : RawData -> bytes + error.
Variables EventTypeAdd EventTypeUpdate EventTypeDelete : string.

Variable B : Type.
Variable Backend_Set : B -> string -> bytes -> Duration -> Time -> B * option error.
Variable Backend_Delete : B -> string -> B * option error.

Record EventData : Type := mkEventData {
  EventData_Type : string;
  EventData_ID : string;
  EventData_RawData : RawData
}.

Record Event : Type := mkEvent {
  Event_Type : string;
  Event_Data : list EventData
}.

(* handleAdd and handleUpdate have the same body. *)
Definition handleAdd (b : B) (key : string) (d : EventData) (now : Time)
    : B * option error :=
  match json_Marshal (EventData_RawData d) with
  | inr err => (b, Some (ErrorfW "failed to marshal event data" err))
  | inl jsonData => Backend_Set b key jsonData 0 now
  end.

Definition handleUpdate (b : B) (key : string) (d : EventData) (now : Time)
    : B * option error :=
  match json_Marshal (EventData_RawData d) with
  | inr err => (b, Some (ErrorfW "failed to marshal event data" err))
  | inl jsonData => Backend_Set b key jsonData 0 now
  end.

Definition handleDelete (b : B) (key : string) : B * option error :=
  Backend_Delete b key.

Definition processEventData (st : SyncStats) (b : B) (eventType : string)
    (d : EventData) (now : Time) : SyncStats * B * option error :=
  let key := Resource (EventData_Type d) (EventData_ID d) in
  if String.eqb eventType EventTypeAdd then
    let '(b', err) := handleAdd b key d now in
    (increment CAdd st, b', err)
  else if String.eqb eventType EventTypeUpdate then
    let '(b', err) := handleUpdate b key d now in
    (increment CUpdate st, b', err)
  else if String.eqb eventType EventTypeDelete then
    let '(b', err) := handleDelete b key in
    (increment CDelete st, b', err)
  else
    (st, b, Some (Errorf ("unknown event type: " +:+ eventType))).

(* The clock readings of one call of processEvent. *)
Record Clock : Type := mkClock {
  start : Time;
  now_ : Time;
  finish : Time
}.

(* The body of the loop of processEvent over the change records. *)
Definition process_record (eventType : string) (c : Clock)
    (acc : SyncStats * B) (d : EventData) : SyncStats * B :=
  let '(st, b) := acc in
  match processEventData st b eventType d (now_ c) with
  | (st', b', Some err) =>
      (handleError st' (ErrorfW "failed to process event data" err) (now_ c),
       b')
  | (st', b', None) => (st', b')
  end.

Definition processEvent (st : SyncStats) (b : B) (event : Event) (c : Clock)
    : SyncStats * B :=
  let st1 := seen st (now_ c) in
  let '(st2, b2) :=
    fold_left (process_record (Event_Type event) c) (Event_Data event)
      (st1, b) in
  let latency := time.Since (finish c) (start c) in
  (update_latency st2 latency, b2).

(* The receive branch of syncLoop, over the events delivered before the
   channel is closed or the context is cancelled. *)
Definition syncLoop (st : SyncStats) (b : B) (events : list (Event * Clock))
    : SyncStats * B :=
  fold_left (fun '(st, b) '(ev, c) => processEvent st b ev c) events (st, b).

End SyncEngine.

(** ** backend.go: KeyBuilder *)

Definition KeyBuilder_Light (id : string) : string := "light:" +:+ id.
Definition KeyBuilder_Room (id : string) : string := "room:" +:+ id.
Definition KeyBuilder_Zone (id : string) : string := "zone:" +:+ id.
Definition KeyBuilder_Scene (id : string) : string := "scene:" +:+ id.
Definition KeyBuilder_SmartScene (id : string) : string :=
  "smart_scene:" +:+ id.
Definition KeyBuilder_GroupedLight (id : string) : string :=
  "grouped_light:" +:+ id.
Definition KeyBuilder_Device (id : string) : string := "device:" +:+ id.
Definition KeyBuilder_Bridge (id : string) : string := "bridge:" +:+ id.
Definition KeyBuilder_BridgeHome (id : string) : string :=
  "bridge_home:" +:+ id.

Definition KeyBuilder_AllLights : string := "light:*".
Definition KeyBuilder_AllRooms : string := "room:*".
Definition KeyBuilder_AllZones : string := "zone:*".
Definition KeyBuilder_AllScenes : string := "scene:*".
Definition KeyBuilder_AllResources (resourceType : string) : string :=
  resourceType +:+ ":*".
Definition KeyBuilder_All : string := "*".

(** ** backends/file.go: the remaining methods *)

Definition File_Delete (f : File) (key : string) : File * option error :=
  if File_closed f then (f, Some (NewError "Delete" key ErrBackendClosed))
  else
    let '(mem, r) := Memory_Delete (memory f) key in
    (with_memory f mem, r).

Definition File_Clear (f : File) : File * option error :=
  if File_closed f then (f, Some ErrBackendClosed)
  else
    let '(mem, r) := Memory_Clear (memory f) in
    (with_memory f mem, r).

Definition File_Keys (f : File) (pattern : string) (now : Time)
    : list string + error :=
  if File_closed f then inr ErrBackendClosed
  else Memory_Keys (memory f) pattern now.

Definition File_Stats (f : File) : Stats + error :=
  if File_closed f then inr ErrBackendClosed
  else Memory_Stats (memory f).

Definition with_File_closed (f : File) (c : bool) : File :=
  {| memory := memory f; filePath := filePath f;
     autoSaveInterval := autoSaveInterval f; File_closed := c |}.

(* Close: the final Save, then the flag, then the Close of the Memory. *)
Definition File_Close (f : File) (disk : Disk) (now : Time)
    : File * Disk * option error :=
  if File_closed f then (f, disk, None)
  else
    let '(f1, disk1, saveErr) := File_Save f disk now in
    let f2 := with_File_closed f1 true in
    let '(mem, closeErr) := Memory_Close (memory f2) in
    let f3 := with_memory f2 mem in
    match saveErr with
    | Some err => (f3, disk1, Some (ErrorfW "final save" err))
    | None => (f3, disk1, closeErr)
    end.

(** ** manager.go: clearing by pattern

    The manager reaches the cache through the interface [Backend]; the three
    methods it calls are parameters.  The text that [fmt.Errorf] builds with
    the verb %q is kept to its constant part. *)

Section CacheManager.

Variable B : Type.
Variable Backend_Keys : B -> string -> Time -> list string + error.
Variable Backend_Delete : B -> string -> B * option error.
Variable Backend_Clear : B -> B * option error.

Definition ClearAll (b : B) : B * option error := Backend_Clear b.

(* The errors of Delete are skipped: the loop goes on with the next key. *)
Definition ClearPattern (b : B) (pattern : string) (now : Time)
    : B * option error :=
  match Backend_Keys b pattern now with
  | inr err => (b, Some (ErrorfW "getting keys for pattern" err))
  | inl keys =>
      (fold_left (fun b key => fst (Backend_Delete b key)) keys b, None)
  end.

Definition ClearResourceType (b : B) (resourceType : string) (now : Time)
    : B * option error :=
  ClearPattern b (KeyBuilder_AllResources resourceType) now.

End CacheManager.

(** ** sync.go: the full sync and Start/Stop

    The five kinds of resource are used in the same way, through their ID and
    through [json.Marshal]: one type [R] stands for them.  What the SDK
    client answers to each List call is a parameter.  Start is modelled up
    to the point where it launches the goroutine of syncLoop, Stop without
    the wait for that goroutine. *)

Section FullSync.

Variable R : Type.
Variable R_ID : R -> string.
Variable json_Marshal : R -> bytes + error.

Variable B : Type.
Variable Backend_Set :
  B -> string -> bytes -> Duration -> Time -> B * option error.

(* The loop shared by syncLights, syncRooms, syncZones, syncScenes and
   syncGroupedLights: it returns at the first error. *)
Fixpoint sync_each (keyOf : string -> string) (b : B) (rs : list R)
    (now : Time) : B * option error :=
  match rs with
  | [] => (b, None)
  | r :: rest =>
      let key := keyOf (R_ID r) in
      match json_Marshal r with
      | inr err => (b, Some err)
      | inl data =>
          match Backend_Set b key data 0 now with
          | (b', Some err) => (b', Some err)
          | (b', None) => sync_each keyOf b' rest now
          end
      end
  end.

Definition sync_listed (keyOf : string -> string) (b : B)
    (listed : list R + error) (now : Time) : B * option error :=
  match listed with
  | inr err => (b, Some err)
  | inl rs => sync_each keyOf b rs now
  end.

(* The answers of client.Lights().List(ctx) and of its four siblings. *)
Record Listings : Type := mkListings {
  Lights_List : list R + error;
  Rooms_List : list R + error;
  Zones_List : list R + error;
  Scenes_List : list R + error;
  GroupedLights_List : list R + error
}.

Definition syncLights (b : B) (ls : Listings) (now : Time) :=
  sync_listed KeyBuilder_Light b (Lights_List ls) now.
Definition syncRooms (b : B) (ls : Listings) (now : Time) :=
  sync_listed KeyBuilder_Room b (Rooms_List ls) now.
Definition syncZones (b : B) (ls : Listings) (now : Time) :=
  sync_listed KeyBuilder_Zone b (Zones_List ls) now.
Definition syncScenes (b : B) (ls : Listings) (now : Time) :=
  sync_listed KeyBuilder_Scene b (Scenes_List ls) now.
Definition syncGroupedLights (b : B) (ls : Listings) (now : Time) :=
  sync_listed KeyBuilder_GroupedLight b (GroupedLights_List ls) now.

Definition fullSync (b : B) (ls : Listings) (now : Time) : B * option error :=
  match syncLights b ls now with
  | (b1, Some err) => (b1, Some (ErrorfW "failed to sync lights" err))
  | (b1, None) =>
  match syncRooms b1 ls now with
  | (b2, Some err) => (b2, Some (ErrorfW "failed to sync rooms" err))
  | (b2, None) =>
  match syncZones b2 ls now with
  | (b3, Some err) => (b3, Some (ErrorfW "failed to sync zones" err))
  | (b3, None) =>
  match syncScenes b3 ls now with
  | (b4, Some err) => (b4, Some (ErrorfW "failed to sync scenes" err))
  | (b4, None) =>
  match syncGroupedLights b4 ls now with
  | (b5, Some err) =>
      (b5, Some (ErrorfW "failed to sync grouped lights" err))
  | (b5, None) => (b5, None)
  end end end end end.

Record SyncConfig : Type := mkSyncConfig {
  EnableAutoSync : bool;
  SyncOnStart : bool
}.

Definition DefaultSyncConfig : SyncConfig :=
  {| EnableAutoSync := true; SyncOnStart := false |}.

Record SyncEngine : Type := mkSyncEngine {
  sync_backend : B;
  sync_stats : SyncStats;
  sync_config : SyncConfig;
  running : bool
}.

Definition NewSyncEngine (backend : B) (config : option SyncConfig)
    : SyncEngine :=
  {| sync_backend := backend;
     sync_stats := NewSyncStats;
     sync_config := default DefaultSyncConfig config;
     running := false |}.

Definition SyncEngine_Start (s : SyncEngine) (ls : Listings) (now : Time)
    : SyncEngine * option error :=
  if running s then (s, Some (Errorf "sync engine already running"))
  else
    let s1 := {| sync_backend := sync_backend s; sync_stats := sync_stats s;
                 sync_config := sync_config s; running := true |} in
    if SyncOnStart (sync_config s1) then
      match fullSync (sync_backend s1) ls now with
      | (b, Some err) =>
          ({| sync_backend := b;
              sync_stats :=
                handleError (sync_stats s1)
                  (ErrorfW "initial sync failed" err) now;
              sync_config := sync_config s1; running := true |}, None)
      | (b, None) =>
          ({| sync_backend := b; sync_stats := sync_stats s1;
              sync_config := sync_config s1; running := true |}, None)
      end
    else (s1, None).

Definition SyncEngine_Stop (s : SyncEngine) : SyncEngine * option error :=
  if negb (running s) then (s, None)
  else
    ({| sync_backend := sync_backend s; sync_stats := sync_stats s;
        sync_config := sync_config s; running := false |}, None).

End FullSync.

(** ** clients.go: CachedLightClient

    The light type of the SDK, its JSON codec and the answers of the wrapped
    SDK client are parameters, and so is the backend. *)

Section CachedLightClient.

Variable Light : Type.
Variable Light_ID : Light -> string.
Variable LightUpdate : Type.
Variable json_Marshal : Light -> bytes + error.
Variable json_Unmarshal : bytes -> Light + error.

Variable client_List : list Light + error.
Variable client_Get : string -> Light + error.
Variable client_Update : string -> LightUpdate -> option error.

Variable B : Type.
Variable Backend_Get : B -> string -> Time -> B * (Entry + error).
Variable Backend_Set :
  B -> string -> bytes -> Duration -> Time -> B * option error.
Variable Backend_Delete : B -> string -> B * option error.
Variable Backend_Keys : B -> string -> Time -> list string + error.

Record CachedLightClient : Type := mkCachedLightClient {
  client_backend : B;
  ttl_ : Duration
}.

Definition with_client_backend (c : CachedLightClient) (b : B)
    : CachedLightClient :=
  {| client_backend := b; ttl_ := ttl_ c |}.

(* The loop of List over the cached keys: [None] when an entry is missing or
   does not decode (allFound = false). *)
Fixpoint read_cached (b : B) (keys : list string) (lights : list Light)
    (now : Time) : B * option (list Light) :=
  match keys with
  | [] => (b, Some lights)
  | key :: rest =>
      match Backend_Get b key now with
      | (b', inr _) => (b', None)
      | (b', inl entry) =>
          match json_Unmarshal (Value entry) with
          | inr _ => (b', None)
          | inl light => read_cached b' rest (lights ++ [light]) now
          end
      end
  end.

(* The loop of List and Get that writes what the SDK returned. *)
Definition populate (ttl : Duration) (now : Time) (b : B) (light : Light) : B :=
  let key := KeyBuilder_Light (Light_ID light) in
  match json_Marshal light with
  | inr _ => b
  | inl data => fst (Backend_Set b key data ttl now)
  end.

Definition fetch_list (c : CachedLightClient) (now : Time)
    : CachedLightClient * (list Light + error) :=
  match client_List with
  | inr err => (c, inr err)
  | inl lights =>
      (with_client_backend c
         (fold_left (populate (ttl_ c) now) lights (client_backend c)),
       inl lights)
  end.

Definition CachedLightClient_List (c : CachedLightClient) (now : Time)
    : CachedLightClient * (list Light + error) :=
  match Backend_Keys (client_backend c) KeyBuilder_AllLights now with
  | inl (key :: keys) =>
      match read_cached (client_backend c) (key :: keys) [] now with
      | (b, Some lights) => (with_client_backend c b, inl lights)
      | (b, None) => fetch_list (with_client_backend c b) now
      end
  | _ => fetch_list c now
  end.

Definition CachedLightClient_Get (c : CachedLightClient) (id : string)
    (now : Time) : CachedLightClient * (Light + error) :=
  if String.eqb id "" then (c, inr (Errorf "invalid light ID"))
  else
    let key := KeyBuilder_Light id in
    let '(b, r) := Backend_Get (client_backend c) key now in
    let cached :=
      match r with
      | inl entry =>
          match json_Unmarshal (Value entry) with
          | inl light => Some light
          | inr _ => None
          end
      | inr _ => None
      end in
    match cached with
    | Some light => (with_client_backend c b, inl light)
    | None =>
        match client_Get id with
        | inr err => (with_client_backend c b, inr err)
        | inl light =>
            match json_Marshal light with
            | inl data =>
                (with_client_backend c
                   (fst (Backend_Set b key data (ttl_ c) now)),
                 inl light)
            | inr _ => (with_client_backend c b, inl light)
            end
        end
    end.

Definition CachedLightClient_Update (c : CachedLightClient) (id : string)
    (update : LightUpdate) : CachedLightClient * option error :=
  if String.eqb id "" then (c, Some (Errorf "invalid light ID"))
  else
    match client_Update id update with
    | Some err => (c, Some err)
    | None =>
        let key := KeyBuilder_Light id in
        (with_client_backend c (fst (Backend_Delete (client_backend c) key)),
         None)
    end.

End CachedLightClient.

(** * Definitions used by the statements *)

(* The backend is open and the arguments pass the checks of Set. *)
Definition valid_Set_args (m : Memory) (key : string) (value : bytes) : Prop :=
  closed m = false ∧ key ≠ "" ∧ is_nil value = false.

(* A small value to store in examples: the one byte 'a'. *)
Definition byte_a : bytes := Some [Byte.x61].

(* An entry that expired at instant 5, stored under "light:1". *)
Definition stale_entry : Entry := NewEntry "light:1" byte_a 4 1.

Definition stale_cache : Memory :=
  {| data := {[ "light:1" := stale_entry ]};
     stats := SetEntries (SetSize NewStatsCollector 1) 1;
     config := DefaultMemoryConfig;
     totalSize := 1;
     entryCount := 1;
     closed := false |}.

(* The loop of makeRoom, entered at [m] for a new entry of [newSize] bytes,
   arrives at its test in state [m']: after no iteration, or after an
   iteration whose test held and whose evictOne succeeded. *)
Inductive loop_reaches (newSize : Z) : Memory -> Memory -> Prop :=
| reaches_now (m : Memory) : loop_reaches newSize m m
| reaches_after (m m1 m' : Memory) :
    (MaxMemory (config m) <? Int64.add (totalSize m) newSize) = true ->
    evictOne m = (m1, None) ->
    loop_reaches newSize m1 m' ->
    loop_reaches newSize m m'.

(* A backend bounded to 4 bytes that holds the two bytes "aa" under "a". *)
Definition four_bytes : MemoryConfig :=
  {| MaxMemory := 4; MaxEntries := 0; CleanupInterval := 0;
     EvictionPolicy_ := EvictionLRU |}.

Definition small_cache : Memory :=
  {| data := {[ "a" := NewEntry "a" (Some [Byte.x61; Byte.x61]) 0 1 ]};
     stats := SetEntries (SetSize NewStatsCollector 2) 1;
     config := four_bytes;
     totalSize := 2;
     entryCount := 1;
     closed := false |}.

Definition five_bytes : bytes :=
  Some [Byte.x62; Byte.x62; Byte.x62; Byte.x62; Byte.x62].

(* [e] with its TTL field replaced. *)
Definition with_TTL (e : Entry) (ttl : Duration) : Entry :=
  {| Key := Key e;
     Value := Value e;
     CreatedAt := CreatedAt e;
     UpdatedAt := UpdatedAt e;
     ExpiresAt := ExpiresAt e;
     TTL := ttl;
     Hits := Hits e;
     Size := Size e |}.

(* What Set does once makeRoom has returned [m1] without error: it takes the
   old entry of the key, if any, out of the gauges, stores the new entry and
   adds it to the gauges. *)
Definition store (m1 : Memory) (key : string) (entry : Entry) : Memory :=
  let m2 :=
    match data m1 !! key with
    | Some oldEntry => updateSize m1 (Int64.neg (Size oldEntry))
    | None => m1
    end in
  updateSize (with_data m2 (<[key := entry]> (data m2))) (Size entry).

(* An unbounded backend in which "k" was written at instant 1 and read at
   instant 2. *)
Definition read_once : Memory :=
  {| data := {[ "k" := touch (NewEntry "k" byte_a 0 1) 2 ]};
     stats := RecordHit (SetEntries (SetSize NewStatsCollector 1) 1);
     config := DefaultMemoryConfig;
     totalSize := 1;
     entryCount := 1;
     closed := false |}.

(* A backend bounded to two entries, least recently used evicted first. *)
Definition two_entries : MemoryConfig :=
  {| MaxMemory := 0; MaxEntries := 2; CleanupInterval := 0;
     EvictionPolicy_ := EvictionLRU |}.

(* It is full: "b" was written at instant 1 and "a" at instant 2. *)
Definition full_cache : Memory :=
  {| data := {[ "b" := NewEntry "b" byte_a 0 1;
                "a" := NewEntry "a" byte_a 0 2 ]};
     stats := SetEntries (SetSize NewStatsCollector 2) 2;
     config := two_entries;
     totalSize := 2;
     entryCount := 2;
     closed := false |}.

(* The empty, non-nil byte slice: []byte{} *)
Definition no_bytes : bytes := Some [].

(* The true number of stored entries and the true sum of their sizes. *)
Definition stored_count (m : Memory) : Z := Z.of_nat (size (data m)).

Definition sum_sizes (d : gmap string Entry) : Z :=
  map_fold (fun _ e acc => Size e + acc) 0 d.

Definition stored_bytes (m : Memory) : Z := sum_sizes (data m).

(* The byte gauge is right and no stored size is negative. *)
Definition total_ok (m : Memory) : Prop :=
  totalSize m = stored_bytes m
  ∧ ∀ k e, data m !! k = Some e -> 0 <= Size e.

(* The entry gauge is right and no stored value is empty. *)
Definition count_ok (m : Memory) : Prop :=
  entryCount m = stored_count m
  ∧ ∀ k e, data m !! k = Some e -> 0 < Size e.

(* The true totals are far enough from the end of the int64 range for one
   more entry of [extra] bytes. *)
Definition in_bounds (m : Memory) (extra : Z) : Prop :=
  stored_bytes m + extra <= Int64.max_int
  ∧ stored_count m < Int64.max_int.

(* The sum of the three per-kind counters. *)
Definition kind_sum (st : SyncStats) : Z :=
  AddEvents st + UpdateEvents st + DeleteEvents st.

(* The event type is one of the three that processEventData dispatches on. *)
Definition known_type (EventTypeAdd EventTypeUpdate EventTypeDelete : string)
    (eventType : string) : bool :=
  String.eqb eventType EventTypeAdd
  || String.eqb eventType EventTypeUpdate
  || String.eqb eventType EventTypeDelete.

(* The Memory backend behind the interface that the sync engine uses.  Set
   always returns (Memory_Set_total), so the default is never taken. *)
Definition Memory_Backend_Set (m : Memory) (key : string) (value : bytes)
    (ttl : Duration) (now : Time) : Memory * option error :=
  default (m, None) (Memory_Set m key value ttl now).

Definition counters_nonneg (st : SyncStats) : Prop :=
  0 <= AddEvents st ∧ 0 <= UpdateEvents st ∧ 0 <= DeleteEvents st.

Section EventCounts.

Context {RawData : Type}.
Variables EventTypeAdd EventTypeUpdate EventTypeDelete : string.

(* The number of change records carried by the events, and by those of a
   known type. *)
Definition total_records (events : list (Event RawData * Clock)) : nat :=
  foldr (fun ec n => (length (Event_Data _ ec.1) + n)%nat) 0%nat events.

Definition known_records (events : list (Event RawData * Clock)) : nat :=
  foldr
    (fun ec n =>
       if known_type EventTypeAdd EventTypeUpdate EventTypeDelete
            (Event_Type _ ec.1)
       then (length (Event_Data _ ec.1) + n)%nat
       else n)
    0%nat events.

(* The number of events whose type is none of the three. *)
Definition unknown_events (events : list (Event RawData * Clock)) : nat :=
  length
    (List.filter
       (fun ec =>
          negb (known_type EventTypeAdd EventTypeUpdate EventTypeDelete
                  (Event_Type _ ec.1)))
       events).

End EventCounts.

(* Every event carries exactly one change record. *)
Definition single_record {RawData : Type}
    (events : list (Event RawData * Clock)) : Prop :=
  Forall (fun ec => length (Event_Data _ ec.1) = 1%nat) events.

(* One event of type "error", which is none of "add", "update", "delete",
   carrying one change record for the light "1". *)
Definition error_event : Event bytes * Clock :=
  ({| Event_Type := "error";
      Event_Data :=
        [ {| EventData_Type := "light"; EventData_ID := "1";
             EventData_RawData := byte_a |} ] |},
   {| start := 1; now_ := 2; finish := 3 |}).

(* An "add" event for the same light. *)
Definition add_event : Event bytes * Clock :=
  ({| Event_Type := "add";
      Event_Data :=
        [ {| EventData_Type := "light"; EventData_ID := "1";
             EventData_RawData := byte_a |} ] |},
   {| start := 4; now_ := 5; finish := 6 |}).

(* The sync engine over the Memory backend, with the event types spelled as
   on the wire and a payload that is already JSON. *)
Definition sync_Memory (st : SyncStats) (m : Memory)
    (events : list (Event bytes * Clock)) : SyncStats * Memory :=
  syncLoop bytes inl "add" "update" "delete" Memory Memory_Backend_Set
    Memory_Delete st m events.

(* The words of the pattern grammar. *)
Definition starts_with (k prefix : string) : Prop :=
  ∃ rest, k = prefix +:+ rest.

Definition ends_with (k suffix : string) : Prop :=
  ∃ front, k = front +:+ suffix.

(* An unbounded backend that holds one entry, without expiry, under "xa*". *)
Definition star_cache : Memory :=
  {| data := {[ "xa*" := NewEntry "xa*" byte_a 0 1 ]};
     stats := SetEntries (SetSize NewStatsCollector 1) 1;
     config := DefaultMemoryConfig;
     totalSize := 1;
     entryCount := 1;
     closed := false |}.

(* The pattern grammar, with the order in which matchPattern tries its forms
   made explicit: the suffix form applies only to a pattern that does not end
   with a star, and the literal form only to one that neither ends nor starts
   with a star. *)
Definition pattern_matches (p k : string) : Prop :=
  p = "*"
  ∨ (∃ prefix, p = prefix +:+ "*" ∧ starts_with k prefix)
  ∨ (¬ ends_with p "*" ∧ ∃ suffix, p = "*" +:+ suffix ∧ ends_with k suffix)
  ∨ (¬ ends_with p "*" ∧ ¬ starts_with p "*" ∧ k = p).

(* A file backend at "cache.gob" that starts empty, and one that loads the
   snapshot found there; both over the default, unbounded Memory. *)
Definition cold_start : FileConfig :=
  {| FilePath := "cache.gob"; AutoSaveInterval := 0; LoadOnStart := false;
     MemoryConfig_ := Some DefaultMemoryConfig |}.

Definition warm_start : FileConfig :=
  {| FilePath := "cache.gob"; AutoSaveInterval := 0; LoadOnStart := true;
     MemoryConfig_ := Some DefaultMemoryConfig |}.

(* Set(key, value, 0) at instant 1 on a cold backend, Save at instant 2, and a
   new backend that loads the snapshot at instant 3. *)
Definition save_and_reload (key : string) (value : bytes) : option File :=
  f0 ← NewFile (Some cold_start) ∅ 1;
  r ← File_Set f0 key value 0 1;
  let '(_, disk, _) := File_Save r.1 ∅ 2 in
  NewFile (Some warm_start) disk 3.

(* Every entry is stored under its own, non-empty key, as Set stores it. *)
Definition well_keyed (m : Memory) : Prop :=
  ∀ k e, data m !! k = Some e -> Key e = k ∧ k ≠ "".

(* No bound is configured. *)
Definition unbounded (m : Memory) : Prop :=
  MaxEntries (config m) = 0 ∧ MaxMemory (config m) = 0.

(* Load hands the decoded entry to Set and Set accepts it. *)
Definition loadable (x : Entry) (now : Time) : bool :=
  negb (IsExpired x now) && negb (is_nil (Value x)).

(* The ttl that Load computes for a decoded entry. *)
Definition remaining_ttl (x : Entry) (now : Time) : Duration :=
  if negb (time.IsZero (ExpiresAt x))
  then time.Until now (ExpiresAt x)
  else 0.

(* The entry that Save puts in the snapshot for a stored entry. *)
Definition snapshot_of (e : Entry) (now : Time) : Entry :=
  Clone (touch e now).

(* The entries that Save encodes, for the keys listed by keys("*"). *)
Definition snapshot_entries (m : Memory) (keys : list string) (now : Time)
    : list Entry :=
  omap (fun k => (fun e => snapshot_of e now) <$> data m !! k) keys.

(* A new file backend on the path of [f] that loads on start, over a Memory
   with the configuration [cfg]. *)
Definition reload_config (f : File) (cfg : MemoryConfig) : FileConfig :=
  {| FilePath := filePath f; AutoSaveInterval := 0; LoadOnStart := true;
     MemoryConfig_ := Some cfg |}.

(* What each policy of evictOne compares, and the value its loop variable
   starts from (the zero Time for oldestTime, -1 for lowestHits). *)
Definition policy_rank (p : EvictionPolicy) (e : Entry) : Z :=
  match p with
  | EvictionLRU => UpdatedAt e
  | EvictionLFU => Hits e
  | EvictionFIFO => CreatedAt e
  end.

Definition policy_unset (p : EvictionPolicy) : Z :=
  match p with
  | EvictionLFU => -1
  | _ => 0
  end.

(* [n] increments of an int64 counter. *)
Definition incremented (n : nat) (counter : Z) : Z :=
  Nat.iter n (fun c => Int64.add c 1) counter.

(* A file backend over the cache that holds one entry, "light:1", written at
   instant 1 with a TTL of 4. *)
Definition stale_file : File :=
  {| memory := stale_cache; filePath := "cache.gob"; autoSaveInterval := 0;
     File_closed := false |}.

(* What Save leaves in the map for a stored entry: the entries it lists are
   read once, the expired ones are not listed. *)
Definition after_Save (now : Time) (e : Entry) : Entry :=
  if IsExpired e now then e else touch e now.

(* The resource type holds the separator of the keys. *)
Fixpoint has_colon (s : string) : bool :=
  match s with
  | EmptyString => false
  | String a rest => String.eqb (String a EmptyString) ":" || has_colon rest
  end.

(* The cache manager over the Memory backend. *)
Definition Memory_ClearPattern (m : Memory) (pattern : string) (now : Time)
    : Memory * option error :=
  ClearPattern Memory Memory_Keys Memory_Delete m pattern now.

(* What ClearPattern leaves of a stored entry. *)
Definition cleared (pattern : string) (now : Time) (k : string) (e : Entry)
    : option Entry :=
  if matchPattern k pattern && negb (IsExpired e now) then None else Some e.


(* The full sync over the Memory backend. *)
Section FullSyncMemory.

Variable R : Type.
Variable R_ID : R -> string.
Variable json_Marshal : R -> bytes + error.

Definition fullSync_Memory (m : Memory) (ls : Listings R) (now : Time)
    : Memory * option error :=
  fullSync R R_ID json_Marshal Memory Memory_Backend_Set m ls now.

(* json.Marshal succeeds on every listed resource (it never returns a nil
   slice without an error). *)
Definition marshals (rs : list R) : Prop :=
  ∀ r, r ∈ rs -> ∃ data, json_Marshal r = inl data ∧ is_nil data = false.

(* Every resource of the list is cached in [m] under the key that [keyOf]
   builds from its ID: the entry was written at [now], never expires and
   holds the JSON of a listed resource with that key. *)
Definition cached_under (keyOf : string -> string) (rs : list R)
    (m : Memory) (now : Time) : Prop :=
  ∀ r, r ∈ rs ->
    ∃ e r',
      data m !! keyOf (R_ID r) = Some e
      ∧ r' ∈ rs ∧ keyOf (R_ID r') = keyOf (R_ID r)
      ∧ json_Marshal r' = inl (Value e)
      ∧ CreatedAt e = now
      ∧ ExpiresAt e = time.zero.

(* The key [k] is built from the ID of a resource of the list. *)
Definition key_of_listed (keyOf : string -> string) (rs : list R)
    (k : string) : Prop :=
  ∃ r, r ∈ rs ∧ keyOf (R_ID r) = k.

End FullSyncMemory.

(* A bridge that lists the light "1" and nothing else; a resource is
   identified with its ID. *)
Definition one_light : Listings string :=
  {| Lights_List := inl ["1"]; Rooms_List := inl []; Zones_List := inl [];
     Scenes_List := inl []; GroupedLights_List := inl [] |}.

(* The cached light client over the Memory backend. *)
Section LightClientOverMemory.

Variable Light : Type.
Variable Light_ID : Light -> string.
Variable LightUpdate : Type.
Variable json_Marshal : Light -> bytes + error.
Variable json_Unmarshal : bytes -> Light + error.

Definition Memory_Light_Get (client_Get : string -> Light + error) :=
  CachedLightClient_Get Light json_Marshal json_Unmarshal client_Get
    Memory Memory_Get Memory_Backend_Set.

Definition Memory_Light_List (client_List : list Light + error) :=
  CachedLightClient_List Light Light_ID json_Marshal json_Unmarshal
    client_List Memory Memory_Get Memory_Backend_Set Memory_Keys.

Definition Memory_Light_Update
    (client_Update : string -> LightUpdate -> option error) :=
  CachedLightClient_Update LightUpdate client_Update Memory Memory_Delete.

(* The light that a Get of the cache decodes from the entry under [k]. *)
Definition decodes_to (m : Memory) (k : string) (light : Light) : Prop :=
  ∃ e, data m !! k = Some e ∧ json_Unmarshal (Value (Clone e)) = inl light.

End LightClientOverMemory.

(* A client over the cache that holds "light:1", where a light is the text
   of its JSON. *)
Definition stale_client : CachedLightClient Memory :=
  {| client_backend := stale_cache; ttl_ := 0 |}.

(* A client over an empty cache, with a TTL of 4. *)
Definition new_client : CachedLightClient Memory :=
  {| client_backend := NewMemory DefaultMemoryConfig; ttl_ := 4 |}.

(** * Properties *)

(** ** Machine integers *)

Lemma wrap_small (z : Z) : Int64.in_range z -> Int64.wrap z = z.
Proof.
  unfold Int64.in_range, Int64.min_int, Int64.max_int, Int64.wrap.
  intros Hz. rewrite Z.mod_small; lia.
Qed.

(** ** Get *)

(** C1: Get on a stored entry whose expiry predicate holds returns the error
    wrapping ErrExpired (which is not ErrNotFound) and no entry, deletes the
    key from the map, and increments the eviction counter and the miss
    counter, the hit counter staying as it was. *)
Theorem C1_Get_expired (m : Memory) (key : string) (entry : Entry)
    (now : Time) :
  closed m = false ->
  key ≠ "" ->
  data m !! key = Some entry ->
  IsExpired entry now = true ->
  ∃ m' err,
    Memory_Get m key now = (m', inr err)
    ∧ errors_Is err ErrExpired = true
    ∧ errors_Is err ErrNotFound = false
    ∧ data m' = delete key (data m)
    ∧ data m' !! key = None
    ∧ evictions (stats m') = Int64.add (evictions (stats m)) 1
    ∧ misses (stats m') = Int64.add (misses (stats m)) 1
    ∧ hits (stats m') = hits (stats m).
Proof.
  intros Hopen Hkey Hlook Hexp.
  unfold Memory_Get. rewrite Hopen.
  destruct (String.eqb_spec key "") as [->|_]; [done|].
  rewrite Hlook, Hexp.
  eexists _, _. split; [reflexivity|].
  cbn. rewrite lookup_delete_eq. done.
Qed.

Lemma C1_Get_expired_witness :
  ∃ m' err,
    Memory_Get stale_cache "light:1" 9 = (m', inr err)
    ∧ errors_Is err ErrExpired = true
    ∧ errors_Is err ErrNotFound = false
    ∧ data m' = delete "light:1" (data stale_cache)
    ∧ data m' !! "light:1" = None
    ∧ evictions (stats m') = Int64.add (evictions (stats stale_cache)) 1
    ∧ misses (stats m') = Int64.add (misses (stats stale_cache)) 1
    ∧ hits (stats m') = hits (stats stale_cache).
Proof.
  apply (C1_Get_expired stale_cache "light:1" stale_entry 9);
    [reflexivity | discriminate | reflexivity | reflexivity].
Defined.

(** C10: on an open backend, Get with the empty key returns the error wrapping
    ErrInvalidKey (which is not ErrNotFound) and returns the backend as it
    was: the map, the gauges and every counter, hits and misses included. *)
Theorem C10_Get_empty_key (m : Memory) (now : Time) :
  closed m = false ->
  ∃ err,
    Memory_Get m "" now = (m, inr err)
    ∧ errors_Is err ErrInvalidKey = true
    ∧ errors_Is err ErrNotFound = false.
Proof.
  intros Hopen. unfold Memory_Get. rewrite Hopen. cbn.
  eexists. split; [reflexivity|]. done.
Qed.

Lemma C10_Get_empty_key_witness :
  ∃ err,
    Memory_Get stale_cache "" 9 = (stale_cache, inr err)
    ∧ errors_Is err ErrInvalidKey = true
    ∧ errors_Is err ErrNotFound = false.
Proof.
  apply (C10_Get_empty_key stale_cache 9). reflexivity.
Defined.

(** ** Victim selection and room-making *)

Section Pick.

Context {A : Type}.
Variable step :
  A * option (string * Entry) -> string * Entry -> A * option (string * Entry).
Hypothesis step_keeps_or_takes :
  ∀ acc kv, snd (step acc kv) = snd acc ∨ snd (step acc kv) = Some kv.

Lemma fold_pick_elem (l : list (string * Entry)) acc v :
  snd (fold_left step l acc) = Some v -> snd acc = Some v ∨ v ∈ l.
Proof.
  revert acc. induction l as [|kv l IH]; intros acc Hv; cbn in Hv.
  - by left.
  - destruct (IH _ Hv) as [Hacc | Hin].
    + destruct (step_keeps_or_takes acc kv) as [Hk | Ht].
      * left. congruence.
      * right. rewrite Ht in Hacc. injection Hacc as ->. apply list_elem_of_here.
    + right. by apply list_elem_of_further.
Qed.

End Pick.

Lemma pick_time_keeps_or_takes (field : Entry -> Time) acc kv :
  snd (pick_time field acc kv) = snd acc
  ∨ snd (pick_time field acc kv) = Some kv.
Proof.
  destruct acc as [t v], kv as [k e]. unfold pick_time.
  destruct (time.IsZero t || time.Before (field e) t); [by right | by left].
Qed.

Lemma pick_hits_keeps_or_takes acc kv :
  snd (pick_hits acc kv) = snd acc ∨ snd (pick_hits acc kv) = Some kv.
Proof.
  destruct acc as [h v], kv as [k e]. unfold pick_hits.
  destruct ((h =? -1) || (Hits e <? h)); [by right | by left].
Qed.

(* The victim is an entry of the map. *)
Lemma select_victim_lookup policy (d : gmap string Entry) k e :
  select_victim policy d = Some (k, e) -> d !! k = Some e.
Proof.
  intros Hsel. apply elem_of_map_to_list.
  destruct policy; cbn in Hsel;
    (eapply fold_pick_elem in Hsel;
     [destruct Hsel as [Hn | Hin]; [discriminate Hn | exact Hin] |]);
    auto using pick_time_keeps_or_takes, pick_hits_keeps_or_takes.
Qed.

Lemma select_victim_empty policy : select_victim policy ∅ = None.
Proof.
  destruct policy; unfold select_victim, Range;
    by rewrite map_to_list_empty.
Qed.

(* What a successful evictOne does. *)
Lemma evictOne_ok (m m' : Memory) :
  evictOne m = (m', None) ->
  ∃ k e,
    data m !! k = Some e
    ∧ k ≠ ""
    ∧ m' = {| data := delete k (data m);
              stats := RecordEviction (stats m);
              config := config m;
              totalSize := Int64.sub (totalSize m) (Size e);
              entryCount := Int64.sub (entryCount m) 1;
              closed := closed m |}.
Proof.
  unfold evictOne.
  destruct (select_victim _ _) as [[k e]|] eqn:Hsel; [|discriminate].
  destruct (String.eqb_spec k "") as [->|Hk]; [discriminate|].
  intros [= <-]. exists k, e.
  split; [by eapply select_victim_lookup|]. done.
Qed.

(* A failing evictOne reports ErrMemoryLimit and changes nothing. *)
Lemma evictOne_err (m m' : Memory) err :
  evictOne m = (m', Some err) -> m' = m ∧ err = ErrMemoryLimit.
Proof.
  unfold evictOne.
  destruct (select_victim _ _) as [[k e]|] eqn:Hsel.
  - destruct (String.eqb k ""); intros [= <- <-]; done.
  - intros [= <- <-]; done.
Qed.

Lemma evictOne_empty (m : Memory) :
  data m = ∅ -> evictOne m = (m, Some ErrMemoryLimit).
Proof.
  intros Hd. unfold evictOne. by rewrite Hd, select_victim_empty.
Qed.

Lemma evictOne_size (m m' : Memory) :
  evictOne m = (m', None) -> (size (data m') < size (data m))%nat.
Proof.
  intros (k & e & Hk & _ & ->)%evictOne_ok. cbn.
  rewrite map_size_delete_Some by eauto.
  assert (size (data m) ≠ 0%nat); [|lia].
  apply map_size_non_empty_iff. intros Hd. by rewrite Hd in Hk.
Qed.

(* The loop of makeRoom returns within one more iteration than there are
   entries. *)
Lemma makeRoom_loop_total (fuel : nat) (m : Memory) (newSize : Z) :
  (size (data m) < fuel)%nat -> is_Some (makeRoom_loop fuel m newSize).
Proof.
  revert m. induction fuel as [|fuel IH]; intros m Hfuel; [lia|].
  cbn. destruct (_ <? _); [|by eexists].
  destruct (evictOne m) as [m' [err|]] eqn:Hev; [by eexists|].
  apply IH. apply evictOne_size in Hev. lia.
Qed.

Lemma makeRoom_total (m : Memory) (newSize : Z) :
  is_Some (makeRoom m newSize).
Proof.
  unfold makeRoom.
  destruct (makeRoom_count m) as [m1 [err|]]; [by eexists|].
  destruct (0 <? _); [|by eexists].
  apply makeRoom_loop_total. lia.
Qed.

(* Set always returns. *)
Lemma Memory_Set_total (m : Memory) key value ttl now :
  is_Some (Memory_Set m key value ttl now).
Proof.
  unfold Memory_Set.
  destruct (closed m); [by eexists|].
  destruct (String.eqb key ""); [by eexists|].
  destruct (is_nil value); [by eexists|].
  destruct (makeRoom_total m (Size (NewEntry key value ttl now)))
    as [[m1 [err|]] ->]; by eexists.
Qed.

Lemma loop_reaches_fails (newSize : Z) (m m' : Memory) :
  loop_reaches newSize m m' ->
  data m' = ∅ ->
  MaxMemory (config m') < Int64.add (totalSize m') newSize ->
  ∀ fuel, (size (data m) < fuel)%nat ->
    makeRoom_loop fuel m newSize = Some (m', Some ErrMemoryLimit).
Proof.
  induction 1 as [m | m m1 m' Htest Hev _ IH]; intros Hempty Hover fuel Hfuel.
  - destruct fuel as [|fuel]; [lia|]. cbn.
    apply Z.ltb_lt in Hover. rewrite Hover.
    by rewrite evictOne_empty.
  - destruct fuel as [|fuel]; [lia|]. cbn.
    rewrite Htest, Hev. apply IH; [done..|].
    apply evictOne_size in Hev. lia.
Qed.

Lemma makeRoom_count_config (m m1 : Memory) r :
  makeRoom_count m = (m1, r) -> config m1 = config m.
Proof.
  unfold makeRoom_count. destruct (_ && _).
  - destruct r as [err|].
    + by intros [-> _]%evictOne_err.
    + by intros (k & e & _ & _ & ->)%evictOne_ok.
  - by intros [= <- <-].
Qed.

(** C6: when the loop of makeRoom arrives at an empty map with the total size
    plus the size of the new value still above MaxMemory, Set returns the
    error wrapping ErrMemoryLimit and the key is not inserted. *)
Theorem C6_capacity_exceeded (m m1 m' : Memory) (key : string)
    (value : bytes) (ttl : Duration) (now : Time) :
  valid_Set_args m key value ->
  0 < MaxMemory (config m) ->
  makeRoom_count m = (m1, None) ->
  loop_reaches (len value) m1 m' ->
  data m' = ∅ ->
  MaxMemory (config m') < Int64.add (totalSize m') (len value) ->
  ∃ err,
    Memory_Set m key value ttl now = Some (m', Some err)
    ∧ errors_Is err ErrMemoryLimit = true
    ∧ data m' !! key = None.
Proof.
  intros (Hopen & Hkey & Hval) Hmax Hcount Hreach Hempty Hover.
  unfold Memory_Set. rewrite Hopen, Hval.
  destruct (String.eqb_spec key "") as [->|_]; [done|].
  unfold makeRoom. rewrite Hcount.
  rewrite (makeRoom_count_config _ _ _ Hcount).
  apply Z.ltb_lt in Hmax. rewrite Hmax. cbn [Size NewEntry].
  rewrite (loop_reaches_fails _ _ _ Hreach Hempty Hover) by lia.
  eexists. split; [reflexivity|]. split; [done|].
  by rewrite Hempty.
Qed.

Lemma C6_capacity_exceeded_witness :
  ∃ err,
    Memory_Set small_cache "b" five_bytes 0 2
      = Some (fst (evictOne small_cache), Some err)
    ∧ errors_Is err ErrMemoryLimit = true
    ∧ data (fst (evictOne small_cache)) !! "b" = None.
Proof.
  apply (C6_capacity_exceeded small_cache small_cache
           (fst (evictOne small_cache)) "b" five_bytes 0 2).
  - repeat split; [discriminate].
  - reflexivity.
  - reflexivity.
  - eapply reaches_after; [reflexivity | reflexivity | apply reaches_now].
  - reflexivity.
  - reflexivity.
Defined.

(** ** Set *)

Lemma data_updateSize (m : Memory) (delta : Z) :
  data (updateSize m delta) = data m.
Proof. reflexivity. Qed.

Lemma data_store (m1 : Memory) (key : string) (entry : Entry) :
  data (store m1 key entry) = <[key := entry]> (data m1).
Proof. unfold store. by destruct (data m1 !! key). Qed.

(* A Set that returns without error passed the three checks, found room, and
   stored a new entry. *)
Lemma Memory_Set_ok (m m' : Memory) key value ttl now :
  Memory_Set m key value ttl now = Some (m', None) ->
  valid_Set_args m key value
  ∧ ∃ m1, makeRoom m (len value) = Some (m1, None)
          ∧ m' = store m1 key (NewEntry key value ttl now).
Proof.
  unfold Memory_Set, valid_Set_args.
  destruct (closed m); [discriminate|].
  destruct (String.eqb_spec key "") as [->|Hkey]; [discriminate|].
  destruct (is_nil value); [discriminate|].
  cbn [Size NewEntry].
  destruct (makeRoom m (len value)) as [[m1 [err|]]|]; [discriminate| |discriminate].
  intros [= <-]. split; [done|]. by exists m1.
Qed.

Lemma Memory_Set_success (m m1 : Memory) key value ttl now :
  valid_Set_args m key value ->
  makeRoom m (len value) = Some (m1, None) ->
  Memory_Set m key value ttl now
    = Some (store m1 key (NewEntry key value ttl now), None).
Proof.
  intros (Hopen & Hkey & Hval) Hroom.
  unfold Memory_Set. rewrite Hopen, Hval.
  destruct (String.eqb_spec key "") as [->|_]; [done|].
  cbn [Size NewEntry]. by rewrite Hroom.
Qed.

(* Room-making only deletes entries. *)
Lemma evictOne_subseteq (m m' : Memory) r :
  evictOne m = (m', r) -> data m' ⊆ data m.
Proof.
  destruct r as [err|].
  - by intros [-> _]%evictOne_err.
  - intros (k & e & _ & _ & ->)%evictOne_ok. apply delete_subseteq.
Qed.

Lemma makeRoom_loop_subseteq (fuel : nat) (m m' : Memory) newSize r :
  makeRoom_loop fuel m newSize = Some (m', r) -> data m' ⊆ data m.
Proof.
  revert m. induction fuel as [|fuel IH]; intros m; cbn.
  - destruct (_ <? _); [discriminate|]. by intros [= <- <-].
  - destruct (_ <? _); [|by intros [= <- <-]].
    destruct (evictOne m) as [m1 [err|]] eqn:Hev.
    + intros [= <- <-]. by eapply evictOne_subseteq.
    + intros Hloop. etrans; [by eapply IH|]. by eapply evictOne_subseteq.
Qed.

Lemma makeRoom_subseteq (m m' : Memory) newSize r :
  makeRoom m newSize = Some (m', r) -> data m' ⊆ data m.
Proof.
  unfold makeRoom.
  destruct (makeRoom_count m) as [m1 [err|]] eqn:Hcount.
  - intros [= <- <-]. unfold makeRoom_count in Hcount.
    destruct (_ && _); [by eapply evictOne_subseteq|].
    by injection Hcount as <-.
  - assert (data m1 ⊆ data m) as Hsub.
    { unfold makeRoom_count in Hcount.
      destruct (_ && _); [by eapply evictOne_subseteq|].
      by injection Hcount as <-. }
    destruct (0 <? _).
    + intros Hloop. etrans; [by eapply makeRoom_loop_subseteq|done].
    + by intros [= <- <-].
Qed.

Lemma IsExpired_never (e : Entry) (t : Time) :
  ExpiresAt e = time.zero -> IsExpired e t = false.
Proof. unfold IsExpired. by intros ->. Qed.

(** C9: with a negative ttl, a Set whose arguments pass the checks and for
    which makeRoom finds room succeeds and stores an entry whose ExpiresAt is
    the zero Time, so that IsExpired is false at every instant; the backend it
    returns is the one returned for ttl = 0, except for the TTL field of the
    stored entry, which records the ttl given. *)
Theorem C9_negative_ttl (m m1 : Memory) (key : string) (value : bytes)
    (ttl : Duration) (now : Time) :
  valid_Set_args m key value ->
  makeRoom m (len value) = Some (m1, None) ->
  ttl < 0 ->
  ∃ m' m0,
    Memory_Set m key value ttl now = Some (m', None)
    ∧ Memory_Set m key value 0 now = Some (m0, None)
    ∧ data m' !! key = Some (NewEntry key value ttl now)
    ∧ ExpiresAt (NewEntry key value ttl now) = time.zero
    ∧ (∀ t, IsExpired (NewEntry key value ttl now) t = false)
    ∧ data m0 !! key = Some (NewEntry key value 0 now)
    ∧ NewEntry key value ttl now = with_TTL (NewEntry key value 0 now) ttl
    ∧ data m' = <[key := NewEntry key value ttl now]> (data m0)
    ∧ totalSize m' = totalSize m0
    ∧ entryCount m' = entryCount m0
    ∧ stats m' = stats m0
    ∧ config m' = config m0
    ∧ closed m' = closed m0.
Proof.
  intros Hvalid Hroom Hneg.
  assert (ExpiresAt (NewEntry key value ttl now) = time.zero) as Hzero.
  { cbn. destruct (Z.ltb_spec 0 ttl); [lia|done]. }
  eexists _, _.
  split; [by apply Memory_Set_success|].
  split; [by apply Memory_Set_success|].
  rewrite !data_store, !lookup_insert_eq, insert_insert_eq.
  repeat split; try done.
  - intros t. by apply IsExpired_never.
  - unfold NewEntry, with_TTL; cbn.
    destruct (Z.ltb_spec 0 ttl); [lia|done].
Qed.

Lemma C9_negative_ttl_witness :
  ∃ m',
    Memory_Set (NewMemory DefaultMemoryConfig) "k" byte_a (-5) 1
      = Some (m', None)
    ∧ data m' !! "k" = Some (NewEntry "k" byte_a (-5) 1)
    ∧ ∀ t, IsExpired (NewEntry "k" byte_a (-5) 1) t = false.
Proof.
  destruct (C9_negative_ttl (NewMemory DefaultMemoryConfig)
              (NewMemory DefaultMemoryConfig) "k" byte_a (-5) 1)
    as (m' & m0 & Hset & _ & Hlook & _ & Hnever & _).
  - repeat split; discriminate.
  - reflexivity.
  - lia.
  - exists m'. auto.
Defined.


(* [read_once] is the backend after Set("k", "a", 0) and Get("k"). *)
Example read_once_reached :
  ∃ m1 got,
    Memory_Set (NewMemory DefaultMemoryConfig) "k" byte_a 0 1 = Some (m1, None)
    ∧ Memory_Get m1 "k" 2 = (read_once, inl got).
Proof. eexists _, _. split; reflexivity. Qed.



(** ** The gauges *)

(** C2 (the code departs from it): storing the empty non-nil value under a
    new key of a fresh unbounded backend succeeds and leaves one entry in the
    map, while the entry_count gauge reported by Stats stays 0;
    updateSize moves the count by the sign of the size delta, which is 0. *)
Theorem C2_empty_value_not_counted :
  ∃ m' s,
    Memory_Set (NewMemory DefaultMemoryConfig) "k" no_bytes 0 1
      = Some (m', None)
    ∧ stored_count m' = 1
    ∧ Memory_Stats m' = inl s
    ∧ Stats_Entries s = 0
    ∧ Stats_Size s = stored_bytes m'.
Proof.
  eexists _, _. split; [reflexivity|]. split; [reflexivity|].
  split; [reflexivity|]. split; reflexivity.
Qed.

(* The same defect after a failed Set: evictOne decrements the count for the
   empty entry that updateSize never counted, so that the Set of a value
   larger than MaxMemory fails with an empty map and entry_count = -1. *)
Example failed_Set_negative_count :
  ∃ m1 m2 err s,
    Memory_Set (NewMemory four_bytes) "k" no_bytes 0 1 = Some (m1, None)
    ∧ Memory_Set m1 "big" five_bytes 0 2 = Some (m2, Some err)
    ∧ errors_Is err ErrMemoryLimit = true
    ∧ stored_count m2 = 0
    ∧ Memory_Stats m2 = inl s
    ∧ Stats_Entries s = -1.
Proof.
  eexists _, _, _, _. split; [reflexivity|]. split; [reflexivity|].
  repeat split.
Qed.

(* [full_cache] is the backend after Set("b", "a", 0) and Set("a", "a", 0). *)
Example full_cache_reached :
  ∃ m1,
    Memory_Set (NewMemory two_entries) "b" byte_a 0 1 = Some (m1, None)
    ∧ Memory_Set m1 "a" byte_a 0 2 = Some (full_cache, None).
Proof. eexists. split; reflexivity. Qed.

(** C4 (the code departs from it): with max_entries = 2 and the two keys "b"
    and "a" stored, overwriting "a" with a value of the same size evicts "b":
    makeRoom compares entryCount with MaxEntries before Set looks whether
    the key exists.  The eviction counter goes up by one, entry_count falls
    from 2 to 1 and total_size_bytes falls by one byte although the new value
    is as long as the old one. *)
Theorem C4_overwrite_at_capacity_evicts :
  ∃ m',
    Memory_Set full_cache "a" byte_a 0 3 = Some (m', None)
    ∧ data full_cache !! "b" = Some (NewEntry "b" byte_a 0 1)
    ∧ data m' !! "b" = None
    ∧ evictions (stats m') = evictions (stats full_cache) + 1
    ∧ entryCount full_cache = 2
    ∧ entryCount m' = 1
    ∧ totalSize full_cache = 2
    ∧ totalSize m' = 1.
Proof.
  eexists. split; [reflexivity|]. repeat split.
Qed.

(** ** Sync statistics *)

Section SyncProperties.

Variable RawData : Type.
Variable json_Marshal : RawData -> bytes + error.
Variables EventTypeAdd EventTypeUpdate EventTypeDelete : string.
Variable B : Type.
Variable Backend_Set :
  B -> string -> bytes -> Duration -> Time -> B * option error.
Variable Backend_Delete : B -> string -> B * option error.

Local Abbreviation known :=
  (known_type EventTypeAdd EventTypeUpdate EventTypeDelete).
Local Abbreviation run_data :=
  (processEventData RawData json_Marshal EventTypeAdd EventTypeUpdate
     EventTypeDelete B Backend_Set Backend_Delete).
Local Abbreviation run_record :=
  (process_record RawData json_Marshal EventTypeAdd EventTypeUpdate
     EventTypeDelete B Backend_Set Backend_Delete).
Local Abbreviation run_event :=
  (processEvent RawData json_Marshal EventTypeAdd EventTypeUpdate
     EventTypeDelete B Backend_Set Backend_Delete).
Local Abbreviation run_loop :=
  (syncLoop RawData json_Marshal EventTypeAdd EventTypeUpdate
     EventTypeDelete B Backend_Set Backend_Delete).

Ltac no_wrap :=
  unfold Int64.add; rewrite wrap_small;
  [lia | unfold Int64.in_range, Int64.min_int, Int64.max_int; lia].

(* One change record moves the sum of the per-kind counters by one when the
   event type is known and leaves it otherwise; it never touches
   EventsProcessed. *)
Lemma processEventData_counters st b ty (d : EventData RawData) now :
  counters_nonneg st ->
  kind_sum st + 1 <= Int64.max_int ->
  let st' := (run_data st b ty d now).1.1 in
  counters_nonneg st'
  ∧ kind_sum st' = kind_sum st + (if known ty then 1 else 0)
  ∧ EventsProcessed st' = EventsProcessed st.
Proof.
  intros (HA & HU & HD) Hmax.
  unfold kind_sum, Int64.max_int in *.
  unfold processEventData, known_type, counters_nonneg.
  destruct (String.eqb ty EventTypeAdd).
  { destruct (handleAdd _ _ _ _ _ _ _ _) as [b' err]. cbn. no_wrap. }
  destruct (String.eqb ty EventTypeUpdate).
  { destruct (handleUpdate _ _ _ _ _ _ _ _) as [b' err]. cbn. no_wrap. }
  destruct (String.eqb ty EventTypeDelete).
  { destruct (handleDelete _ _ _ _) as [b' err]. cbn. no_wrap. }
  cbn. lia.
Qed.

Lemma process_record_counters st b ty c (d : EventData RawData) :
  counters_nonneg st ->
  kind_sum st + 1 <= Int64.max_int ->
  let st' := (run_record ty c (st, b) d).1 in
  counters_nonneg st'
  ∧ kind_sum st' = kind_sum st + (if known ty then 1 else 0)
  ∧ EventsProcessed st' = EventsProcessed st.
Proof.
  intros Hnn Hmax.
  pose proof (processEventData_counters st b ty d (now_ c) Hnn Hmax) as H.
  unfold process_record.
  destruct (run_data st b ty d (now_ c)) as [[st1 b1] [err|]]; exact H.
Qed.

Lemma records_fold_counters ty c (ds : list (EventData RawData)) st b :
  counters_nonneg st ->
  kind_sum st + Z.of_nat (length ds) <= Int64.max_int ->
  let st' := (fold_left (run_record ty c) ds (st, b)).1 in
  counters_nonneg st'
  ∧ kind_sum st'
    = kind_sum st + (if known ty then Z.of_nat (length ds) else 0)
  ∧ EventsProcessed st' = EventsProcessed st.
Proof.
  revert st b. induction ds as [|d ds IH]; intros st b Hnn Hmax.
  - cbn. split; [done|]. split; [|done]. destruct (known ty); lia.
  - cbn [fold_left length] in *.
    destruct (process_record_counters st b ty c d Hnn ltac:(lia))
      as (Hnn1 & Hsum1 & Hep1).
    destruct (run_record ty c (st, b) d) as [st1 b1]; cbn in *.
    destruct (IH st1 b1 Hnn1) as (Hnn2 & Hsum2 & Hep2).
    { destruct (known ty); lia. }
    split; [done|]. split; [|congruence].
    rewrite Hsum2, Hsum1. destruct (known ty); lia.
Qed.

Lemma processEvent_counters st b (ev : Event RawData) c :
  counters_nonneg st ->
  0 <= EventsProcessed st < Int64.max_int ->
  kind_sum st + Z.of_nat (length (Event_Data _ ev)) <= Int64.max_int ->
  let st' := (run_event st b ev c).1 in
  counters_nonneg st'
  ∧ kind_sum st'
    = kind_sum st
      + (if known (Event_Type _ ev)
         then Z.of_nat (length (Event_Data _ ev)) else 0)
  ∧ EventsProcessed st' = EventsProcessed st + 1.
Proof.
  intros Hnn Hep Hmax. unfold processEvent.
  destruct (records_fold_counters (Event_Type _ ev) c (Event_Data _ ev)
              (seen st (now_ c)) b Hnn Hmax) as (Hnn1 & Hsum1 & Hep1).
  destruct (fold_left _ _ _) as [st2 b2]; cbn in *.
  split; [done|]. split; [done|].
  rewrite Hep1. unfold Int64.max_int in *. no_wrap.
Qed.

Lemma total_records_cons (ev : Event RawData) c events :
  total_records ((ev, c) :: events)
  = (length (Event_Data _ ev) + total_records events)%nat.
Proof. reflexivity. Qed.

Lemma known_records_cons (ev : Event RawData) c events :
  known_records EventTypeAdd EventTypeUpdate EventTypeDelete
    ((ev, c) :: events)
  = if known (Event_Type _ ev)
    then (length (Event_Data _ ev)
          + known_records EventTypeAdd EventTypeUpdate EventTypeDelete
              events)%nat
    else known_records EventTypeAdd EventTypeUpdate EventTypeDelete events.
Proof. reflexivity. Qed.

(* The counters after a run of the loop, whatever the events carry. *)
Lemma syncLoop_counters (events : list (Event RawData * Clock)) st b :
  counters_nonneg st ->
  0 <= EventsProcessed st ->
  EventsProcessed st + Z.of_nat (length events) <= Int64.max_int ->
  kind_sum st + Z.of_nat (total_records events) <= Int64.max_int ->
  let st' := (run_loop st b events).1 in
  counters_nonneg st'
  ∧ kind_sum st'
    = kind_sum st
      + Z.of_nat
          (known_records EventTypeAdd EventTypeUpdate EventTypeDelete events)
  ∧ EventsProcessed st' = EventsProcessed st + Z.of_nat (length events).
Proof.
  revert st b. induction events as [|[ev c] events IH];
    intros st b Hnn Hep0 Hep Hsum.
  - cbn. split; [done|]. lia.
  - rewrite total_records_cons in Hsum. rewrite known_records_cons.
    unfold syncLoop in *. cbn [fold_left length] in *.
    destruct (processEvent_counters st b ev c Hnn) as (Hnn1 & Hsum1 & Hep1);
      [lia | lia |].
    destruct (run_event st b ev c) as [st1 b1]; cbn [fst] in *.
    destruct (IH st1 b1 Hnn1) as (Hnn2 & Hsum2 & Hep2).
    { lia. } { lia. } { destruct (known (Event_Type _ ev)); lia. }
    split; [done|]. split; [|lia].
    rewrite Hsum2, Hsum1.
    destruct (known (Event_Type _ ev)); lia.
Qed.

Lemma single_record_counts (events : list (Event RawData * Clock)) :
  single_record events ->
  total_records events = length events
  ∧ (known_records EventTypeAdd EventTypeUpdate EventTypeDelete events
     + unknown_events EventTypeAdd EventTypeUpdate EventTypeDelete events
     = length events)%nat.
Proof.
  unfold single_record, unknown_events.
  induction 1 as [|[ev c] events Hone _ [IH1 IH2]]; [done|].
  rewrite total_records_cons, known_records_cons.
  cbn [List.filter length fst] in *. rewrite Hone.
  split; [lia|].
  destruct (known (Event_Type _ ev)); cbn [negb length]; lia.
Qed.

(** C8 (as amended): after the sync engine, started with all counters at 0,
    has processed any sequence of events that carry exactly one change record
    each, EventsProcessed is the number of events and AddEvents +
    UpdateEvents + DeleteEvents is EventsProcessed minus the number of events
    whose type is none of add, update and delete; the two agree when every
    event is of a known type. *)
Theorem C8_counters_sum (b : B) (events : list (Event RawData * Clock)) :
  single_record events ->
  Z.of_nat (length events) <= Int64.max_int ->
  let st := (run_loop NewSyncStats b events).1 in
  EventsProcessed st = Z.of_nat (length events)
  ∧ AddEvents st + UpdateEvents st + DeleteEvents st
    = EventsProcessed st
      - Z.of_nat
          (unknown_events EventTypeAdd EventTypeUpdate EventTypeDelete events)
  ∧ (unknown_events EventTypeAdd EventTypeUpdate EventTypeDelete events
       = 0%nat ->
     AddEvents st + UpdateEvents st + DeleteEvents st = EventsProcessed st).
Proof.
  intros Hone Hlen.
  destruct (single_record_counts events Hone) as [Htotal Hknown].
  destruct (syncLoop_counters events NewSyncStats b) as (_ & Hsum & Hep).
  { unfold counters_nonneg; cbn; lia. }
  { cbn; lia. }
  { exact Hlen. }
  { rewrite Htotal. exact Hlen. }
  cbn zeta. fold (kind_sum (run_loop NewSyncStats b events).1).
  rewrite Hsum, Hep.
  change (kind_sum NewSyncStats) with 0.
  change (EventsProcessed NewSyncStats) with 0.
  split; [lia|]. split; lia.
Qed.

End SyncProperties.

Lemma C8_counters_sum_witness :
  let st :=
    (sync_Memory NewSyncStats (NewMemory DefaultMemoryConfig)
       [add_event; error_event]).1 in
  EventsProcessed st = 2
  ∧ AddEvents st + UpdateEvents st + DeleteEvents st = 2 - 1.
Proof.
  destruct (C8_counters_sum bytes inl "add" "update" "delete" Memory
              Memory_Backend_Set Memory_Delete (NewMemory DefaultMemoryConfig)
              [add_event; error_event]) as (Hep & Hsum & _).
  - repeat constructor.
  - unfold Int64.max_int. cbn. lia.
  - split; [exact Hep | exact Hsum].
Defined.

(* One event of a type that is none of the three: it is counted in
   EventsProcessed and in no per-kind counter. *)
Lemma C8_counterexample :
  let st :=
    (sync_Memory NewSyncStats (NewMemory DefaultMemoryConfig)
       [error_event]).1 in
  EventsProcessed st = 1
  ∧ AddEvents st + UpdateEvents st + DeleteEvents st = 0
  ∧ AddEvents st + UpdateEvents st + DeleteEvents st ≠ EventsProcessed st.
Proof. cbn. repeat split. discriminate. Qed.

(* An "add" event that carries two change records is one event for
   EventsProcessed and two for AddEvents. *)
Example two_records_counted_twice :
  let ev : Event bytes * Clock :=
    ({| Event_Type := "add";
        Event_Data :=
          [ {| EventData_Type := "light"; EventData_ID := "1";
               EventData_RawData := byte_a |};
            {| EventData_Type := "light"; EventData_ID := "2";
               EventData_RawData := byte_a |} ] |},
     {| start := 1; now_ := 2; finish := 3 |}) in
  let st :=
    (sync_Memory NewSyncStats (NewMemory DefaultMemoryConfig) [ev]).1 in
  EventsProcessed st = 1 ∧ AddEvents st = 2.
Proof. vm_compute. done. Qed.

(** ** Patterns and Keys *)

Lemma substring_0_append (a b : string) :
  String.substring 0 (String.length a) (a +:+ b) = a.
Proof.
  induction a as [|c a IH]; simpl.
  - by destruct b.
  - f_equal. exact IH.
Qed.

Lemma substring_skip_append (a b : string) (n : nat) :
  String.substring (String.length a) n (a +:+ b) = String.substring 0 n b.
Proof. induction a as [|c a IH]; simpl; [done | exact IH]. Qed.

Lemma substring_0_all (s : string) :
  String.substring 0 (String.length s) s = s.
Proof. induction s as [|c s IH]; simpl; [done | f_equal; exact IH]. Qed.

Lemma substring_split (s : string) (n : nat) :
  (n <= String.length s)%nat ->
  s = String.substring 0 n s
      +:+ String.substring n (String.length s - n) s.
Proof.
  revert n. induction s as [|c s IH]; intros n Hn; simpl in Hn.
  - by replace n with 0%nat by lia.
  - destruct n as [|n]; simpl.
    + rewrite substring_0_all. reflexivity.
    + change (String c s = String c (String.substring 0 n s
                +:+ String.substring (S n) (S (String.length s) - S n)
                      (String c s))).
      f_equal. apply IH. lia.
Qed.

Lemma length_append (a b : string) :
  String.length (a +:+ b) = (String.length a + String.length b)%nat.
Proof. induction a as [|c a IH]; simpl; [done | f_equal; exact IH]. Qed.

Lemma HasPrefix_starts_with (s prefix : string) :
  GoStrings.HasPrefix s prefix = true ↔ starts_with s prefix.
Proof.
  unfold GoStrings.HasPrefix, GoStrings.slice, starts_with.
  rewrite andb_true_iff, Nat.leb_le, String.eqb_eq, Nat.sub_0_r. split.
  - intros [Hlen Heq].
    exists (String.substring (String.length prefix)
              (String.length s - String.length prefix) s).
    rewrite <- Heq at 1. by apply substring_split.
  - intros [rest ->]. rewrite length_append, substring_0_append.
    split; [lia | done].
Qed.

Lemma HasSuffix_ends_with (s suffix : string) :
  GoStrings.HasSuffix s suffix = true ↔ ends_with s suffix.
Proof.
  unfold GoStrings.HasSuffix, GoStrings.slice, ends_with.
  rewrite andb_true_iff, Nat.leb_le, String.eqb_eq. split.
  - intros [Hlen Heq].
    exists (String.substring 0 (String.length s - String.length suffix) s).
    rewrite <- Heq at 2.
    apply substring_split. lia.
  - intros [front ->]. rewrite length_append.
    replace (String.length front + String.length suffix
             - String.length suffix)%nat with (String.length front) by lia.
    replace (String.length front + String.length suffix
             - String.length front)%nat with (String.length suffix) by lia.
    rewrite substring_skip_append, substring_0_all.
    split; [lia | done].
Qed.

Lemma TrimSuffix_append (a x : string) : GoStrings.TrimSuffix (a +:+ x) x = a.
Proof.
  unfold GoStrings.TrimSuffix.
  assert (GoStrings.HasSuffix (a +:+ x) x = true) as ->.
  { apply HasSuffix_ends_with. by exists a. }
  unfold GoStrings.slice. rewrite length_append, Nat.sub_0_r.
  replace (String.length a + String.length x - String.length x)%nat
    with (String.length a) by lia.
  apply substring_0_append.
Qed.

Lemma TrimPrefix_append (x a : string) : GoStrings.TrimPrefix (x +:+ a) x = a.
Proof.
  unfold GoStrings.TrimPrefix.
  assert (GoStrings.HasPrefix (x +:+ a) x = true) as ->.
  { apply HasPrefix_starts_with. by exists a. }
  unfold GoStrings.slice. rewrite length_append.
  replace (String.length x + String.length a - String.length x)%nat
    with (String.length a) by lia.
  rewrite substring_skip_append. apply substring_0_all.
Qed.

Lemma matchPattern_star (k : string) : matchPattern k "*" = true.
Proof. reflexivity. Qed.

Lemma matchPattern_prefix (k prefix : string) :
  matchPattern k (prefix +:+ "*") = true ↔ starts_with k prefix.
Proof.
  unfold matchPattern.
  destruct (String.eqb_spec (prefix +:+ "*") "*") as [Heq|_].
  - assert (prefix = "") as ->.
    { apply (f_equal String.length) in Heq. rewrite length_append in Heq.
      destruct prefix; [done | cbn in Heq; lia]. }
    split; [|done]. intros _. by exists k.
  - assert (GoStrings.HasSuffix (prefix +:+ "*") "*" = true) as ->.
    { apply HasSuffix_ends_with. by exists prefix. }
    rewrite TrimSuffix_append. apply HasPrefix_starts_with.
Qed.

Lemma matchPattern_suffix (k suffix : string) :
  ¬ ends_with ("*" +:+ suffix) "*" ->
  matchPattern k ("*" +:+ suffix) = true ↔ ends_with k suffix.
Proof.
  intros Hnot. unfold matchPattern.
  destruct (String.eqb_spec ("*" +:+ suffix) "*") as [Heq|_].
  { destruct Hnot. rewrite Heq. by exists "". }
  destruct (GoStrings.HasSuffix ("*" +:+ suffix) "*") eqn:Hsuf.
  { destruct Hnot. by apply HasSuffix_ends_with. }
  assert (GoStrings.HasPrefix ("*" +:+ suffix) "*" = true) as ->.
  { apply HasPrefix_starts_with. by exists suffix. }
  rewrite TrimPrefix_append. apply HasSuffix_ends_with.
Qed.

Lemma matchPattern_literal (k p : string) :
  ¬ ends_with p "*" -> ¬ starts_with p "*" ->
  matchPattern k p = true ↔ k = p.
Proof.
  intros Hne Hns. unfold matchPattern.
  destruct (String.eqb_spec p "*") as [->|_].
  { destruct Hne. by exists "". }
  destruct (GoStrings.HasSuffix p "*") eqn:Hsuf.
  { destruct Hne. by apply HasSuffix_ends_with. }
  destruct (GoStrings.HasPrefix p "*") eqn:Hpre.
  { destruct Hns. by apply HasPrefix_starts_with. }
  apply String.eqb_eq.
Qed.

(* matchPattern decides the grammar. *)
Lemma matchPattern_spec (k p : string) :
  matchPattern k p = true ↔ pattern_matches p k.
Proof.
  split.
  - intros Hm.
    destruct (String.eqb_spec p "*") as [->|Hstar]; [by left|].
    destruct (GoStrings.HasSuffix p "*") eqn:Hsuf.
    { apply HasSuffix_ends_with in Hsuf as [prefix ->].
      right; left. exists prefix. split; [done|].
      by apply matchPattern_prefix. }
    assert (¬ ends_with p "*") as Hne.
    { intros He%HasSuffix_ends_with. congruence. }
    destruct (GoStrings.HasPrefix p "*") eqn:Hpre.
    { apply HasPrefix_starts_with in Hpre as [suffix ->].
      right; right; left. split; [done|]. exists suffix. split; [done|].
      by apply matchPattern_suffix. }
    assert (¬ starts_with p "*") as Hns.
    { intros He%HasPrefix_starts_with. congruence. }
    right; right; right. split; [done|]. split; [done|].
    by apply matchPattern_literal.
  - intros [-> | [(prefix & -> & Hk) | [(Hne & suffix & -> & Hk)
                                        | (Hne & Hns & ->)]]].
    + reflexivity.
    + by apply matchPattern_prefix.
    + by apply matchPattern_suffix.
    + by apply matchPattern_literal.
Qed.

Lemma Keys_visit_elem p now (acc : list string) k0 e0 k :
  k ∈ Keys_visit p now acc (k0, e0)
  ↔ k ∈ acc
    ∨ (k = k0 ∧ matchPattern k0 p = true ∧ IsExpired e0 now = false).
Proof.
  unfold Keys_visit.
  destruct (matchPattern k0 p), (IsExpired e0 now); cbn;
    rewrite ?elem_of_app, ?list_elem_of_singleton; intuition congruence.
Qed.

Lemma Keys_fold_elem p now (l : list (string * Entry)) (acc : list string) k :
  k ∈ fold_left (Keys_visit p now) l acc
  ↔ k ∈ acc
    ∨ ∃ e, (k, e) ∈ l ∧ matchPattern k p = true ∧ IsExpired e now = false.
Proof.
  revert acc. induction l as [|[k0 e0] l IH]; intros acc; cbn [fold_left].
  - split; [by left|]. intros [?|(e & Hin & _)]; [done|].
    by apply elem_of_nil in Hin.
  - rewrite IH, Keys_visit_elem. split.
    + intros [[Hacc | (-> & Hm & Hx)] | (e & Hin & Hm & Hx)].
      * by left.
      * right. exists e0. split; [apply list_elem_of_here | done].
      * right. exists e. split; [by apply list_elem_of_further | done].
    + intros [Hacc | (e & Hin & Hm & Hx)]; [by left; left|].
      apply elem_of_cons in Hin as [[= -> ->] | Hin].
      * left; right. done.
      * right. by exists e.
Qed.

Lemma Keys_fold_NoDup p now (l : list (string * Entry)) (acc : list string) :
  NoDup (acc ++ l.*1) -> NoDup (fold_left (Keys_visit p now) l acc).
Proof.
  revert acc. induction l as [|[k0 e0] l IH]; intros acc Hnd.
  - cbn in *. by rewrite app_nil_r in Hnd.
  - rewrite fmap_cons in Hnd. cbn [fold_left fst]. apply IH.
    assert (NoDup (acc ++ l.*1)) as Hdrop.
    { apply NoDup_app in Hnd as (Ha & Hdisj & Hl).
      apply NoDup_cons in Hl as [_ Hl].
      apply NoDup_app. split; [done|]. split; [|done].
      intros x Hx Hin. apply (Hdisj x Hx). by apply list_elem_of_further. }
    unfold Keys_visit.
    destruct (matchPattern k0 p), (negb (IsExpired e0 now)); try done.
    by rewrite <- app_assoc.
Qed.

(** C5 (as amended): on an open backend, keys(p) returns, each once, exactly
    the stored keys k whose entry is not expired and that p matches, where
    "*" matches every k; p = prefix* matches k iff k starts with prefix; p =
    *suffix that does not end with a star matches k iff k ends with suffix;
    and a p that neither ends nor starts with a star matches k iff k = p.
    No expired key is returned. *)
Theorem C5_Keys_pattern (m : Memory) (p : string) (now : Time) :
  closed m = false ->
  ∃ keys,
    Memory_Keys m p now = inl keys
    ∧ NoDup keys
    ∧ (∀ k, k ∈ keys
            ↔ ∃ e, data m !! k = Some e
                   ∧ IsExpired e now = false
                   ∧ pattern_matches p k)
    ∧ (∀ k e, data m !! k = Some e -> IsExpired e now = true -> k ∉ keys).
Proof.
  intros Hopen. unfold Memory_Keys. rewrite Hopen.
  eexists. split; [reflexivity|].
  assert (∀ k, k ∈ fold_left (Keys_visit p now) (Range (data m)) []
               ↔ ∃ e, data m !! k = Some e
                      ∧ IsExpired e now = false
                      ∧ pattern_matches p k) as Hiff.
  { intros k. rewrite Keys_fold_elem. unfold Range.
    setoid_rewrite elem_of_map_to_list. setoid_rewrite matchPattern_spec.
    split.
    - intros [Hnil | (e & ? & ? & ?)]; [by apply elem_of_nil in Hnil|].
      by exists e.
    - intros (e & ? & ? & ?). right. by exists e. }
  split; [|split; [exact Hiff|]].
  - apply Keys_fold_NoDup. cbn. apply NoDup_fst_map_to_list.
  - intros k e Hk Hexp (e' & Hk' & Hfresh & _)%Hiff. congruence.
Qed.

Lemma C5_Keys_pattern_witness :
  ∃ keys,
    Memory_Keys star_cache "x*" 2 = inl keys
    ∧ ("xa*" ∈ keys
       ↔ ∃ e, data star_cache !! "xa*" = Some e
              ∧ IsExpired e 2 = false
              ∧ pattern_matches "x*" "xa*").
Proof.
  destruct (C5_Keys_pattern star_cache "x*" 2) as (keys & Hk & _ & Hiff & _).
  - reflexivity.
  - exists keys. split; [exact Hk | apply Hiff].
Defined.

(* The pattern "*a*" has the form *suffix with suffix = "a*", and the stored,
   unexpired key "xa*" ends with "a*"; keys("*a*") does not return it, since
   matchPattern reads "*a*" as the prefix form with prefix "*a". *)
Lemma C5_counterexample :
  "*a*" = "*" +:+ "a*"
  ∧ ends_with "xa*" "a*"
  ∧ data star_cache !! "xa*" = Some (NewEntry "xa*" byte_a 0 1)
  ∧ IsExpired (NewEntry "xa*" byte_a 0 1) 2 = false
  ∧ Memory_Keys star_cache "*a*" 2 = inl [].
Proof.
  split; [reflexivity|]. split; [by exists "x"|]. repeat split.
Qed.

(** ** Persistence *)

(* The round trip of a one-byte value: the reloaded backend returns it. *)
Example reload_keeps_nonempty_value :
  ∃ f2 got,
    save_and_reload "k" byte_a = Some f2
    ∧ (File_Get f2 "k" 3).2 = inl got
    ∧ Key got = "k"
    ∧ Value got = byte_a.
Proof. eexists _, _. split; [reflexivity|]. repeat split. Qed.

(** C7 (the code departs from it): an entry stored with the empty, non-nil
    value and no ttl is in the cache when it is saved and is not expired when
    the snapshot is loaded, yet the new backend does not hold it: gob sends no
    field of length 0, Load passes the nil slice it decodes to Set, Set
    rejects it with ErrInvalidValue, and Load drops that error. *)
Theorem C7_empty_value_lost_on_reload :
  ∃ f0 f1 f2 err,
    NewFile (Some cold_start) ∅ 1 = Some f0
    ∧ File_Set f0 "k" no_bytes 0 1 = Some (f1, None)
    ∧ data (memory f1) !! "k" = Some (NewEntry "k" no_bytes 0 1)
    ∧ IsExpired (NewEntry "k" no_bytes 0 1) 3 = false
    ∧ save_and_reload "k" no_bytes = Some f2
    ∧ data (memory f2) !! "k" = None
    ∧ (File_Get f2 "k" 3).2 = inr err
    ∧ errors_Is err ErrNotFound = true.
Proof.
  eexists _, _, _, _. split; [reflexivity|]. split; [reflexivity|].
  split; [reflexivity|]. split; [reflexivity|]. split; [reflexivity|].
  repeat split.
Qed.

(** ** The gauges on values that are not empty *)

Lemma add_small (a b : Z) : Int64.in_range (a + b) -> Int64.add a b = a + b.
Proof. apply wrap_small. Qed.

Lemma sub_small (a b : Z) : Int64.in_range (a - b) -> Int64.sub a b = a - b.
Proof. apply wrap_small. Qed.

Lemma neg_small (a : Z) : Int64.in_range (- a) -> Int64.neg a = - a.
Proof. apply wrap_small. Qed.

Lemma sum_sizes_empty : sum_sizes ∅ = 0.
Proof. apply map_fold_empty. Qed.

Lemma sum_sizes_delete (d : gmap string Entry) k e :
  d !! k = Some e -> sum_sizes d = Size e + sum_sizes (delete k d).
Proof.
  intros Hk. unfold sum_sizes.
  apply (map_fold_delete_L (fun _ e acc => Size e + acc)); [|done].
  intros. lia.
Qed.

Lemma sum_sizes_insert (d : gmap string Entry) k e :
  d !! k = None -> sum_sizes (<[k := e]> d) = Size e + sum_sizes d.
Proof.
  intros Hk. unfold sum_sizes.
  apply (map_fold_insert_L (fun _ e acc => Size e + acc)); [|done].
  intros. lia.
Qed.

Lemma sum_sizes_replace (d : gmap string Entry) k e0 e :
  d !! k = Some e0 ->
  sum_sizes (<[k := e]> d) = sum_sizes d - Size e0 + Size e.
Proof.
  intros Hk. rewrite <- insert_delete_eq.
  rewrite sum_sizes_insert by apply lookup_delete_eq.
  rewrite (sum_sizes_delete d k e0 Hk). lia.
Qed.

Lemma sum_sizes_nonneg (d : gmap string Entry) :
  (∀ k e, d !! k = Some e -> 0 <= Size e) -> 0 <= sum_sizes d.
Proof.
  induction d as [|k e d Hk IH] using map_ind; intros Hpos.
  - by rewrite sum_sizes_empty.
  - rewrite sum_sizes_insert by done.
    assert (0 <= Size e) by (apply (Hpos k); apply lookup_insert_eq).
    assert (0 <= sum_sizes d); [|lia].
    apply IH. intros k' e' Hk'. apply (Hpos k').
    rewrite lookup_insert_ne; [done|]. intros ->. congruence.
Qed.

Lemma sum_sizes_lookup_le (d : gmap string Entry) k e :
  (∀ k e, d !! k = Some e -> 0 <= Size e) ->
  d !! k = Some e -> Size e <= sum_sizes d.
Proof.
  intros Hpos Hk. rewrite (sum_sizes_delete d k e Hk).
  assert (0 <= sum_sizes (delete k d)); [|lia].
  apply sum_sizes_nonneg. intros k' e' Hk'. apply (Hpos k').
  eapply lookup_weaken; [exact Hk' | apply delete_subseteq].
Qed.

Ltac in_range := unfold Int64.in_range, Int64.min_int, Int64.max_int in *; lia.

Lemma stored_count_nonneg (m : Memory) : 0 <= stored_count m.
Proof. unfold stored_count. lia. Qed.

Lemma stored_bytes_nonneg (m : Memory) : total_ok m -> 0 <= stored_bytes m.
Proof. intros [_ Hpos]. by apply sum_sizes_nonneg. Qed.

(* An entry leaves the map and the gauges follow. *)
Lemma removal_ok (m m' : Memory) k e :
  data m !! k = Some e ->
  total_ok m ->
  data m' = delete k (data m) ->
  totalSize m' = totalSize m - Size e ->
  (count_ok m -> entryCount m' = entryCount m - 1) ->
  total_ok m'
  ∧ (count_ok m -> count_ok m')
  ∧ stored_bytes m' = stored_bytes m - Size e
  ∧ stored_count m' = stored_count m - 1.
Proof.
  intros Hk [Htot Hpos] Hdata Htot' Hcnt'.
  assert (stored_bytes m' = stored_bytes m - Size e) as Hbytes.
  { unfold stored_bytes. rewrite Hdata, (sum_sizes_delete _ k e Hk). lia. }
  assert (stored_count m' = stored_count m - 1) as Hcount.
  { unfold stored_count. rewrite Hdata, map_size_delete_Some by eauto.
    assert (size (data m) ≠ 0%nat); [|lia].
    apply map_size_non_empty_iff. intros Hd. by rewrite Hd in Hk. }
  assert (∀ k' e', data m' !! k' = Some e' -> data m !! k' = Some e') as Hsub.
  { intros k' e'. rewrite Hdata. intros Hk'.
    eapply lookup_weaken; [exact Hk' | apply delete_subseteq]. }
  split; [|split; [|done]].
  - split; [lia|]. intros k' e' Hk'. by apply (Hpos k'), Hsub.
  - intros [Hc Hpos1]. split.
    + rewrite Hcnt' by done. lia.
    + intros k' e' Hk'. by apply (Hpos1 k'), Hsub.
Qed.

(* The gauges after updateSize, away from the ends of the int64 range. *)
Lemma updateSize_totalSize (m : Memory) (delta : Z) :
  Int64.in_range (totalSize m + delta) ->
  totalSize (updateSize m delta) = totalSize m + delta.
Proof. intros Hr. cbn. by apply add_small. Qed.

Lemma updateSize_count_down (m : Memory) (delta : Z) :
  delta < 0 -> Int64.in_range (entryCount m - 1) ->
  entryCount (updateSize m delta) = entryCount m - 1.
Proof.
  intros Hd Hr. cbn.
  destruct (Z.ltb_spec 0 delta); [lia|].
  destruct (Z.ltb_spec delta 0); [|lia]. by apply sub_small.
Qed.

Lemma updateSize_count_up (m : Memory) (delta : Z) :
  0 < delta -> Int64.in_range (entryCount m + 1) ->
  entryCount (updateSize m delta) = entryCount m + 1.
Proof.
  intros Hd Hr. cbn.
  destruct (Z.ltb_spec 0 delta); [|lia]. by apply add_small.
Qed.

(* Deleting [k] and calling updateSize(-entry.Size), as Get does on an
   expired entry, Delete on a present key and the sweep on each expired key. *)
Lemma delete_updateSize_ok (m : Memory) k e :
  data m !! k = Some e ->
  total_ok m ->
  in_bounds m 0 ->
  let m' := updateSize (with_data m (delete k (data m))) (Int64.neg (Size e)) in
  total_ok m'
  ∧ (count_ok m -> count_ok m')
  ∧ stored_bytes m' = stored_bytes m - Size e
  ∧ stored_count m' = stored_count m - 1.
Proof.
  intros Hk Htot [Hb Hc] m'.
  pose proof (stored_bytes_nonneg m Htot) as Hnn.
  pose proof (stored_count_nonneg m) as Hcn.
  destruct Htot as [Htot Hpos].
  pose proof (Hpos k e Hk) as Hsize.
  pose proof (sum_sizes_lookup_le (data m) k e Hpos Hk) as Hle.
  fold (stored_bytes m) in Hle.
  assert (Int64.neg (Size e) = - Size e) as Hneg by (apply neg_small; in_range).
  apply (removal_ok m m' k e); [done | done | done | |].
  - subst m'. rewrite updateSize_totalSize; cbn; rewrite Hneg; [lia | in_range].
  - intros [Hcnt Hpos1]. pose proof (Hpos1 k e Hk).
    subst m'. rewrite updateSize_count_down; cbn; [done | lia | in_range].
Qed.

Lemma evictOne_preserves (m m' : Memory) :
  evictOne m = (m', None) ->
  total_ok m ->
  in_bounds m 0 ->
  total_ok m'
  ∧ (count_ok m -> count_ok m')
  ∧ stored_bytes m' <= stored_bytes m
  ∧ stored_count m' = stored_count m - 1.
Proof.
  intros (k & e & Hk & _ & ->)%evictOne_ok Htot [Hb Hc].
  pose proof (stored_bytes_nonneg m Htot) as Hnn.
  pose proof (stored_count_nonneg m) as Hcn.
  pose proof Htot as [Htot' Hpos].
  pose proof (Hpos k e Hk) as Hsize.
  pose proof (sum_sizes_lookup_le (data m) k e Hpos Hk) as Hle.
  fold (stored_bytes m) in Hle.
  edestruct (removal_ok m) as (H1 & H2 & H3 & H4); [exact Hk | exact Htot | ..].
  4: { split; [exact H1|]. split; [exact H2|]. split; [lia | exact H4]. }
  - reflexivity.
  - cbn. apply sub_small. in_range.
  - intros [Hcnt Hpos1]. cbn. apply sub_small.
    assert (size (data m) ≠ 0%nat).
    { apply map_size_non_empty_iff. intros Hd. by rewrite Hd in Hk. }
    unfold stored_count in *. in_range.
Qed.

Lemma unchanged_preserves (m : Memory) :
  total_ok m ->
  total_ok m
  ∧ (count_ok m -> count_ok m)
  ∧ stored_bytes m <= stored_bytes m
  ∧ stored_count m <= stored_count m.
Proof. intros Htot. split; [done|]. split; [done|]. lia. Qed.

Lemma makeRoom_loop_preserves (fuel : nat) (m m' : Memory) newSize r :
  makeRoom_loop fuel m newSize = Some (m', r) ->
  total_ok m ->
  in_bounds m 0 ->
  total_ok m'
  ∧ (count_ok m -> count_ok m')
  ∧ stored_bytes m' <= stored_bytes m
  ∧ stored_count m' <= stored_count m.
Proof.
  revert m. induction fuel as [|fuel IH]; intros m; cbn.
  - destruct (_ <? _); [discriminate|]. intros [= <- <-] ? ?.
    by apply unchanged_preserves.
  - destruct (_ <? _);
      [|intros [= <- <-] ? ?; by apply unchanged_preserves].
    destruct (evictOne m) as [m1 [err|]] eqn:Hev.
    + apply evictOne_err in Hev as [-> ->]. intros [= <- <-] ? ?.
      by apply unchanged_preserves.
    + intros Hloop Htot Hb.
      destruct (evictOne_preserves m m1 Hev Htot Hb) as (Ht1 & Hc1 & Hb1 & Hn1).
      destruct (IH m1 Hloop Ht1) as (Ht2 & Hc2 & Hb2 & Hn2).
      { destruct Hb. split; lia. }
      split; [done|]. split; [auto|]. lia.
Qed.

Lemma makeRoom_preserves (m m' : Memory) newSize r :
  makeRoom m newSize = Some (m', r) ->
  total_ok m ->
  in_bounds m 0 ->
  total_ok m'
  ∧ (count_ok m -> count_ok m')
  ∧ stored_bytes m' <= stored_bytes m
  ∧ stored_count m' <= stored_count m.
Proof.
  unfold makeRoom, makeRoom_count. intros Hroom Htot Hb.
  assert (∀ m1 r1,
            (if (0 <? MaxEntries (config m))
                && (MaxEntries (config m) <=? entryCount m)
             then evictOne m else (m, None)) = (m1, r1) ->
            total_ok m1 ∧ (count_ok m -> count_ok m1)
            ∧ stored_bytes m1 <= stored_bytes m
            ∧ stored_count m1 <= stored_count m) as Hfirst.
  { intros m1 r1. destruct (_ && _).
    - destruct r1 as [err|].
      + intros [-> _]%evictOne_err. by apply unchanged_preserves.
      + intros Hev.
        destruct (evictOne_preserves m m1 Hev Htot Hb) as (? & ? & ? & ?).
        split; [done|]. split; [done|]. lia.
    - intros [= <- <-]. by apply unchanged_preserves. }
  destruct (if _ && _ then _ else _) as [m1 [err|]] eqn:Hcount.
  - injection Hroom as <- <-. by eapply Hfirst.
  - destruct (Hfirst m1 None eq_refl) as (Ht1 & Hc1 & Hb1 & Hn1).
    destruct (0 <? MaxMemory (config m1)).
    + destruct (makeRoom_loop_preserves _ _ _ _ _ Hroom Ht1)
        as (Ht2 & Hc2 & Hb2 & Hn2).
      { destruct Hb. split; lia. }
      split; [done|]. split; [auto|]. lia.
    + injection Hroom as <- <-. done.
Qed.

(* What Set does after makeRoom keeps the gauges right, the entry gauge on
   condition that the new value is not empty. *)
Lemma store_preserves (m1 : Memory) key value ttl now :
  total_ok m1 ->
  in_bounds m1 (len value) ->
  let m' := store m1 key (NewEntry key value ttl now) in
  total_ok m' ∧ (count_ok m1 -> 0 < len value -> count_ok m').
Proof.
  intros Htot [Hb Hc] m'.
  pose proof (stored_bytes_nonneg m1 Htot) as Hnn.
  pose proof (stored_count_nonneg m1) as Hcn.
  assert (0 <= len value) as Hlen by (destruct value; cbn; lia).
  destruct Htot as [Htot Hpos].
  assert (data m' = <[key := NewEntry key value ttl now]> (data m1)) as Hdata
    by apply data_store.
  assert (∀ k e, data m' !! k = Some e ->
                 e = NewEntry key value ttl now ∨ data m1 !! k = Some e)
    as Hfrom.
  { intros k e. rewrite Hdata.
    intros [[_ <-] | [_ Hk]]%lookup_insert_Some; auto. }
  destruct (data m1 !! key) as [old|] eqn:Hold.
  - pose proof (Hpos key old Hold) as Hsize.
    pose proof (sum_sizes_lookup_le (data m1) key old Hpos Hold) as Hle.
    fold (stored_bytes m1) in Hle.
    assert (Int64.neg (Size old) = - Size old) as Hneg
      by (apply neg_small; in_range).
    assert (stored_bytes m' = stored_bytes m1 - Size old + len value) as Hbytes.
    { unfold stored_bytes. rewrite Hdata.
      by rewrite (sum_sizes_replace _ _ old). }
    assert (stored_count m' = stored_count m1) as Hcount.
    { unfold stored_count. by rewrite Hdata, map_size_insert_Some by eauto. }
    assert (totalSize m' = totalSize m1 - Size old + len value) as Htot'.
    { subst m'. unfold store. rewrite Hold.
      rewrite updateSize_totalSize; cbn [totalSize with_data Size NewEntry];
        rewrite updateSize_totalSize; rewrite Hneg; try lia; in_range. }
    assert (count_ok m1 -> 0 < len value -> entryCount m' = entryCount m1)
      as Hcnt'.
    { intros [Hcnt Hpos1] Hval. pose proof (Hpos1 key old Hold).
      subst m'. unfold store. rewrite Hold.
      rewrite updateSize_count_up; cbn [entryCount with_data Size NewEntry];
        rewrite ?updateSize_count_down; rewrite ?Hneg; try lia; in_range. }
    clearbody m'. split; [split|].
    + lia.
    + intros k e [-> | Hk]%Hfrom; [done | by apply (Hpos k)].
    + intros Hok Hval. pose proof Hok as [Hcnt Hpos1]. split.
      * rewrite Hcnt' by done. lia.
      * intros k e [-> | Hk]%Hfrom; [done | by apply (Hpos1 k)].
  - assert (stored_bytes m' = stored_bytes m1 + len value) as Hbytes.
    { unfold stored_bytes. rewrite Hdata, sum_sizes_insert by done.
      cbn [Size NewEntry]. lia. }
    assert (stored_count m' = stored_count m1 + 1) as Hcount.
    { unfold stored_count. rewrite Hdata, map_size_insert_None by done. lia. }
    assert (totalSize m' = totalSize m1 + len value) as Htot'.
    { subst m'. unfold store. rewrite Hold.
      rewrite updateSize_totalSize; cbn [totalSize with_data Size NewEntry];
        try lia; in_range. }
    assert (count_ok m1 -> 0 < len value -> entryCount m' = entryCount m1 + 1)
      as Hcnt'.
    { intros [Hcnt Hpos1] Hval.
      subst m'. unfold store. rewrite Hold.
      rewrite updateSize_count_up; cbn [entryCount with_data Size NewEntry];
        try lia; in_range. }
    clearbody m'. split; [split|].
    + lia.
    + intros k e [-> | Hk]%Hfrom; [done | by apply (Hpos k)].
    + intros Hok Hval. pose proof Hok as [Hcnt Hpos1]. split.
      * rewrite Hcnt' by done. lia.
      * intros k e [-> | Hk]%Hfrom; [done | by apply (Hpos1 k)].
Qed.

Lemma in_bounds_weaken (m m' : Memory) (extra : Z) :
  in_bounds m extra ->
  stored_bytes m' <= stored_bytes m ->
  stored_count m' <= stored_count m ->
  in_bounds m' extra.
Proof. intros [? ?] ? ?. split; lia. Qed.

Lemma len_nonneg (value : bytes) : 0 <= len value.
Proof. destruct value; cbn; lia. Qed.

(* Set, whether it succeeds or fails. *)
Lemma Memory_Set_preserves (m m' : Memory) key value ttl now r :
  Memory_Set m key value ttl now = Some (m', r) ->
  total_ok m ->
  in_bounds m (len value) ->
  total_ok m' ∧ (count_ok m -> (r = None -> 0 < len value) -> count_ok m').
Proof.
  intros Hset Htot Hb.
  pose proof (len_nonneg value) as Hlen.
  assert (in_bounds m 0) as Hb0 by (destruct Hb; split; lia).
  unfold Memory_Set in Hset.
  destruct (closed m); [injection Hset as <- <-; auto|].
  destruct (String.eqb key ""); [injection Hset as <- <-; auto|].
  destruct (is_nil value); [injection Hset as <- <-; auto|].
  cbn [Size NewEntry] in Hset.
  destruct (makeRoom m (len value)) as [[m1 [err|]]|] eqn:Hroom;
    [| |discriminate].
  - injection Hset as <- <-.
    destruct (makeRoom_preserves _ _ _ _ Hroom Htot Hb0) as (? & ? & _).
    auto.
  - injection Hset as <- <-.
    destruct (makeRoom_preserves _ _ _ _ Hroom Htot Hb0)
      as (Ht1 & Hc1 & Hb1 & Hn1).
    destruct (store_preserves m1 key value ttl now Ht1) as [Ht2 Hc2].
    { by eapply in_bounds_weaken. }
    split; [done|]. auto.
Qed.

(* Get, on each of its paths. *)
Lemma Memory_Get_preserves (m m' : Memory) key now r :
  Memory_Get m key now = (m', r) ->
  total_ok m ->
  in_bounds m 0 ->
  total_ok m' ∧ (count_ok m -> count_ok m').
Proof.
  intros Hget Htot Hb. unfold Memory_Get in Hget.
  destruct (closed m); [injection Hget as <- <-; auto|].
  destruct (String.eqb key ""); [injection Hget as <- <-; auto|].
  destruct (data m !! key) as [e|] eqn:Hk; [|injection Hget as <- <-; auto].
  destruct (IsExpired e now).
  - injection Hget as <- <-.
    destruct (delete_updateSize_ok (with_stats m (RecordMiss (stats m))) key e
                Hk Htot Hb) as (Ht & Hc & _).
    split; [exact Ht | exact Hc].
  - injection Hget as <- <-.
    assert (sum_sizes (<[key := touch e now]> (data m)) = stored_bytes m)
      as Hbytes.
    { rewrite (sum_sizes_replace _ _ e) by done. cbn. unfold stored_bytes. lia. }
    assert (∀ k e', <[key := touch e now]> (data m) !! k = Some e' ->
                    ∃ e0, data m !! k = Some e0 ∧ Size e' = Size e0) as Hfrom.
    { intros k e' [[<- <-] | [_ Hk']]%lookup_insert_Some; eauto. }
    destruct Htot as [Htot Hpos]. split; [split|].
    + cbn. unfold stored_bytes in *. cbn. lia.
    + intros k e' (e0 & Hk0 & ->)%Hfrom. by apply (Hpos k).
    + intros [Hcnt Hpos1]. split.
      * cbn. unfold stored_count in *. cbn.
        by rewrite map_size_insert_Some by eauto.
      * intros k e' (e0 & Hk0 & ->)%Hfrom. by apply (Hpos1 k).
Qed.

Lemma Memory_Delete_preserves (m m' : Memory) key r :
  Memory_Delete m key = (m', r) ->
  total_ok m ->
  in_bounds m 0 ->
  total_ok m' ∧ (count_ok m -> count_ok m').
Proof.
  intros Hdel Htot Hb. unfold Memory_Delete in Hdel.
  destruct (closed m); [injection Hdel as <- <-; auto|].
  destruct (data m !! key) as [e|] eqn:Hk; [|injection Hdel as <- <-; auto].
  injection Hdel as <- <-.
  destruct (delete_updateSize_ok m key e Hk Htot Hb) as (Ht & Hc & _).
  split; [exact Ht | exact Hc].
Qed.

Lemma Memory_Clear_preserves (m m' : Memory) r :
  Memory_Clear m = (m', r) ->
  total_ok m ->
  total_ok m' ∧ (count_ok m -> count_ok m').
Proof.
  intros Hclear Htot. unfold Memory_Clear in Hclear.
  destruct (closed m); injection Hclear as <- <-; [auto|].
  split; [split|intros _; split]; try done.
Qed.

(* The background sweep. *)
Lemma cleanupExpired_preserves (m : Memory) now :
  total_ok m ->
  in_bounds m 0 ->
  total_ok (cleanupExpired m now)
  ∧ (count_ok m -> count_ok (cleanupExpired m now)).
Proof.
  unfold cleanupExpired.
  generalize (fold_left
                (fun acc '(key, entry) =>
                   if IsExpired entry now then acc ++ [key] else acc)
                (Range (data m)) []).
  intros toDelete. revert m.
  induction toDelete as [|key toDelete IH]; intros m Htot Hb; [auto|].
  cbn [fold_left].
  destruct (data m !! key) as [e|] eqn:Hk; [|by apply IH].
  destruct (delete_updateSize_ok m key e Hk Htot Hb) as (Ht & Hc & Hb1 & Hn1).
  match goal with
  | |- context [fold_left ?f toDelete ?m1] =>
      destruct (IH m1) as [Ht2 Hc2]
  end.
  - exact Ht.
  - pose proof (proj2 Htot key e Hk) as Hsize.
    eapply in_bounds_weaken; [exact Hb | |].
    + change (stored_bytes
                (updateSize (with_data m (delete key (data m)))
                   (Int64.neg (Size e))) <= stored_bytes m). lia.
    + change (stored_count
                (updateSize (with_data m (delete key (data m)))
                   (Int64.neg (Size e))) <= stored_count m). lia.
  - split; [exact Ht2|]. intros Hcm. apply Hc2. by apply Hc.
Qed.

(** ** A value larger than MaxMemory *)

Lemma evictOne_config (m m' : Memory) r :
  evictOne m = (m', r) -> config m' = config m.
Proof.
  destruct r as [err|].
  - by intros [-> _]%evictOne_err.
  - by intros (k & e & _ & _ & ->)%evictOne_ok.
Qed.

(* While the new value alone is over the bound, the loop can only end on the
   error of evictOne. *)
Lemma makeRoom_loop_over (fuel : nat) (m m' : Memory) newSize r :
  makeRoom_loop fuel m newSize = Some (m', r) ->
  total_ok m ->
  in_bounds m newSize ->
  0 <= newSize ->
  MaxMemory (config m) < newSize ->
  r = Some ErrMemoryLimit.
Proof.
  revert m. induction fuel as [|fuel IH]; intros m Hloop Htot Hb Hnew Hover;
    cbn in Hloop.
  all: pose proof (stored_bytes_nonneg m Htot) as Hnn.
  all: assert (Int64.add (totalSize m) newSize = stored_bytes m + newSize)
         as Hadd by (rewrite (proj1 Htot); apply add_small;
                     destruct Hb; in_range).
  all: rewrite Hadd in Hloop.
  all: destruct (Z.ltb_spec (MaxMemory (config m)) (stored_bytes m + newSize));
    [|lia].
  - discriminate.
  - destruct (evictOne m) as [m1 [err|]] eqn:Hev.
    + apply evictOne_err in Hev as [-> ->]. by injection Hloop as <- <-.
    + assert (in_bounds m 0) as Hb0 by (destruct Hb; split; lia).
      destruct (evictOne_preserves m m1 Hev Htot Hb0) as (Ht1 & _ & Hb1 & Hn1).
      apply (IH m1 Hloop Ht1).
      * eapply in_bounds_weaken; [exact Hb | lia | lia].
      * done.
      * by rewrite (evictOne_config _ _ _ Hev).
Qed.

(* The "e.g." of C6: on a backend whose byte gauge is right, the Set of a
   value longer than MaxMemory fails with ErrMemoryLimit and inserts
   nothing. *)
Lemma Set_larger_than_MaxMemory_fails (m : Memory) key value ttl now :
  valid_Set_args m key value ->
  total_ok m ->
  in_bounds m (len value) ->
  0 < MaxMemory (config m) < len value ->
  ∃ m' err,
    Memory_Set m key value ttl now = Some (m', Some err)
    ∧ errors_Is err ErrMemoryLimit = true
    ∧ data m' ⊆ data m.
Proof.
  intros (Hopen & Hkey & Hval) Htot Hb [Hmax Hover].
  assert (in_bounds m 0) as Hb0.
  { pose proof (len_nonneg value). destruct Hb; split; lia. }
  unfold Memory_Set. rewrite Hopen, Hval.
  destruct (String.eqb_spec key "") as [->|_]; [done|].
  cbn [Size NewEntry].
  destruct (makeRoom_total m (len value)) as [[m1 r] Hroom]. rewrite Hroom.
  pose proof (makeRoom_subseteq _ _ _ _ Hroom) as Hsub.
  assert (r = Some ErrMemoryLimit) as ->.
  { unfold makeRoom in Hroom.
    destruct (makeRoom_count m) as [m0 [err|]] eqn:Hcount.
    - injection Hroom as <- <-. unfold makeRoom_count in Hcount.
      destruct (_ && _); [|discriminate].
      by apply evictOne_err in Hcount as [_ ->].
    - pose proof (makeRoom_count_config _ _ _ Hcount) as Hcfg.
      rewrite Hcfg in Hroom.
      destruct (Z.ltb_spec 0 (MaxMemory (config m))); [|lia].
      assert (total_ok m0 ∧ stored_bytes m0 <= stored_bytes m
              ∧ stored_count m0 <= stored_count m) as (Ht0 & Hb1 & Hn1).
      { unfold makeRoom_count in Hcount. destruct (_ && _).
        - destruct (evictOne_preserves m m0 Hcount Htot Hb0)
            as (? & _ & ? & ?).
          split; [done|]. lia.
        - injection Hcount as <-. split; [done|]. lia. }
      eapply (makeRoom_loop_over _ m0); [exact Hroom | exact Ht0 | | |].
      + by eapply in_bounds_weaken.
      + apply len_nonneg.
      + by rewrite Hcfg. }
  eexists _, _. split; [reflexivity|]. split; done.
Qed.

(** ** The round trip through the snapshot *)

Lemma makeRoom_unbounded (m : Memory) (newSize : Z) :
  unbounded m -> makeRoom m newSize = Some (m, None).
Proof.
  intros [He Hm]. unfold makeRoom, makeRoom_count. rewrite He. cbn.
  by rewrite Hm.
Qed.

Lemma IsExpired_not_negative_ttl (x : Entry) (now : Time) :
  IsExpired x now = false ->
  (negb (time.IsZero (ExpiresAt x)) && (remaining_ttl x now <? 0)) = false.
Proof.
  unfold IsExpired, remaining_ttl, time.Until, time.Sub, time.After,
    time.IsZero.
  destruct (Z.eqb_spec (ExpiresAt x) 0); [done|]. cbn.
  intros Hx%Z.ltb_ge. apply Z.ltb_ge.
  unfold Int64.min_int, Int64.max_int. lia.
Qed.

(* One iteration of Load on an unbounded backend. *)
Lemma load_entry_unbounded (mem : Memory) (x : Entry) (now : Time) :
  unbounded mem ->
  closed mem = false ->
  Key x ≠ "" ->
  ∃ mem',
    load_entry mem x now = Some mem'
    ∧ unbounded mem'
    ∧ closed mem' = false
    ∧ data mem'
      = if loadable x now
        then <[Key x := NewEntry (Key x) (Value x) (remaining_ttl x now) now]>
               (data mem)
        else data mem.
Proof.
  intros Hunb Hopen Hkey. unfold load_entry, loadable.
  destruct (IsExpired x now) eqn:Hexp; cbn [negb andb].
  { by exists mem. }
  fold (remaining_ttl x now).
  rewrite (IsExpired_not_negative_ttl x now Hexp).
  unfold Memory_Set. rewrite Hopen.
  destruct (String.eqb_spec (Key x) "") as [|_]; [done|].
  destruct (is_nil (Value x)); cbn [negb fmap option_fmap option_map fst].
  { by exists mem. }
  rewrite (makeRoom_unbounded mem _ Hunb). cbn [fmap option_fmap option_map fst].
  eexists. split; [reflexivity|].
  split; [|split].
  - unfold unbounded. by destruct (data mem !! Key x).
  - by destruct (data mem !! Key x).
  - fold (store mem (Key x) (NewEntry (Key x) (Value x)
                                (remaining_ttl x now) now)).
    apply data_store.
Qed.

(* The whole loop: the map after Load holds, for each loadable entry of the
   list, a new entry with its key and value, and beside them only what the
   map held before. *)
Lemma load_entries_unbounded (es : list Entry) (mem : Memory) (now : Time) :
  unbounded mem ->
  closed mem = false ->
  (∀ x, x ∈ es -> Key x ≠ "") ->
  NoDup (Key <$> es) ->
  ∃ mem',
    load_entries mem es now = Some mem'
    ∧ (∀ x, x ∈ es -> loadable x now = true ->
         data mem' !! Key x
         = Some (NewEntry (Key x) (Value x) (remaining_ttl x now) now))
    ∧ (∀ k e2, data mem' !! k = Some e2 ->
         data mem !! k = Some e2
         ∨ ∃ x, x ∈ es ∧ loadable x now = true ∧ Key x = k)
    ∧ (∀ k, k ∉ Key <$> es -> data mem' !! k = data mem !! k).
Proof.
  revert mem. induction es as [|x es IH]; intros mem Hunb Hopen Hkeys Hnd.
  - exists mem. split; [done|]. split; [|split]; [|by left|done].
    intros x Hx. by apply elem_of_nil in Hx.
  - rewrite fmap_cons in Hnd. apply NoDup_cons in Hnd as [Hx Hnd].
    destruct (load_entry_unbounded mem x now Hunb Hopen) as
      (mem1 & Hload & Hunb1 & Hopen1 & Hdata1).
    { apply Hkeys. apply list_elem_of_here. }
    destruct (IH mem1 Hunb1 Hopen1) as (mem' & Hrest & Hin & Hfrom & Hframe).
    { intros y Hy. apply Hkeys. by apply list_elem_of_further. }
    { done. }
    exists mem'. cbn [load_entries]. rewrite Hload. split; [done|].
    split; [|split].
    + intros y [-> | Hy]%elem_of_cons Hl.
      * rewrite (Hframe _ Hx), Hdata1, Hl. apply lookup_insert_eq.
      * by apply Hin.
    + intros k e2 [Hk | (y & Hy & Hl & Hky)]%Hfrom.
      * rewrite Hdata1 in Hk. destruct (loadable x now) eqn:Hl; [|by left].
        apply lookup_insert_Some in Hk as [[<- _] | [_ Hk]]; [|by left].
        right. exists x. split; [apply list_elem_of_here | done].
      * right. exists y. split; [by apply list_elem_of_further | done].
    + intros k Hk. rewrite fmap_cons in Hk.
      apply not_elem_of_cons in Hk as [Hne Hk].
      rewrite (Hframe _ Hk), Hdata1.
      destruct (loadable x now); [|done]. by rewrite lookup_insert_ne.
Qed.

(* keys("*"), as Save calls it. *)
Lemma Keys_star (m : Memory) (now : Time) :
  closed m = false ->
  ∃ keys,
    Memory_Keys m "*" now = inl keys
    ∧ NoDup keys
    ∧ ∀ k, k ∈ keys ↔ ∃ e, data m !! k = Some e ∧ IsExpired e now = false.
Proof.
  intros Hopen. unfold Memory_Keys. rewrite Hopen.
  eexists. split; [reflexivity|]. split.
  - apply Keys_fold_NoDup. cbn. apply NoDup_fst_map_to_list.
  - intros k. rewrite Keys_fold_elem. unfold Range.
    setoid_rewrite elem_of_map_to_list. split.
    + intros [Hnil | (e & ? & _ & ?)]; [by apply elem_of_nil in Hnil|].
      by exists e.
    + intros (e & ? & ?). right. exists e. by rewrite matchPattern_star.
Qed.

(* The loop of Save returns a copy of the entry of every listed key. *)
Lemma collect_fold (keys : list string) (mem : Memory) (es0 : list Entry)
    (now : Time) :
  closed mem = false ->
  NoDup keys ->
  (∀ k, k ∈ keys ->
     k ≠ "" ∧ ∃ e, data mem !! k = Some e ∧ IsExpired e now = false) ->
  ∃ mem',
    fold_left (fun acc key => collect acc key now) keys (mem, es0)
    = (mem',
       es0 ++ omap (fun k => (fun e => snapshot_of e now) <$> data mem !! k)
                keys).
Proof.
  revert mem es0.
  induction keys as [|k keys IH]; intros mem es0 Hopen Hnd Hkeys.
  - exists mem. cbn. by rewrite app_nil_r.
  - apply NoDup_cons in Hnd as [Hk Hnd].
    destruct (Hkeys k) as (Hne & e & He & Hfresh); [apply list_elem_of_here|].
    cbn [fold_left collect]. unfold Memory_Get. rewrite Hopen.
    destruct (String.eqb_spec k "") as [|_]; [done|].
    rewrite He, Hfresh.
    match goal with
    | |- context [fold_left _ keys (?m1, _)] => destruct (IH m1 (es0 ++ [Clone (touch e now)])) as [mem' Hfold]
    end.
    + done.
    + done.
    + intros k' Hk'. destruct (Hkeys k') as (Hne' & e' & He' & Hf');
        [by apply list_elem_of_further|].
      split; [done|]. exists e'. split; [|done].
      cbn. rewrite lookup_insert_ne; [done|]. intros ->. done.
    + exists mem'. rewrite Hfold. f_equal. rewrite <- app_assoc. f_equal.
      cbn [omap list_omap]. rewrite He. cbn [fmap option_fmap option_map].
      unfold snapshot_of. cbn [app]. f_equal.
      apply list_omap_ext, Forall_Forall2_diag, Forall_forall.
      intros k' Hk'. cbn [data with_stats with_data].
      rewrite lookup_insert_ne; [done|]. intros ->. done.
Qed.

Lemma File_Save_snapshot (f : File) (disk : Disk) (now : Time) :
  File_closed f = false ->
  closed (memory f) = false ->
  (∀ k e, data (memory f) !! k = Some e -> k ≠ "") ->
  ∃ f1 disk1 keys,
    File_Save f disk now = (f1, disk1, None)
    ∧ NoDup keys
    ∧ (∀ k, k ∈ keys
            ↔ ∃ e, data (memory f) !! k = Some e ∧ IsExpired e now = false)
    ∧ disk1 !! filePath f
      = Some (GobStream (gobEncode (snapshot_entries (memory f) keys now))).
Proof.
  intros Hopen Hmopen Hkeyed.
  destruct (Keys_star (memory f) now Hmopen) as (keys & Hkeys & Hnd & Hin).
  destruct (collect_fold keys (memory f) [] now Hmopen Hnd) as [mem' Hfold].
  { intros k (e & He & Hfresh)%Hin. split; [by eapply Hkeyed | by exists e]. }
  unfold File_Save. rewrite Hopen, Hkeys, Hfold. cbn [app].
  rewrite lookup_insert_eq.
  eexists _, _, keys. split; [reflexivity|]. split; [done|]. split; [done|].
  by rewrite lookup_insert_eq.
Qed.

Lemma gobEntry_snapshot_Key (e : Entry) (now : Time) :
  Key (gobEntry (snapshot_of e now)) = Key e.
Proof. reflexivity. Qed.

Lemma gobEntry_snapshot_IsExpired (e : Entry) (ts t : Time) :
  IsExpired (gobEntry (snapshot_of e ts)) t = IsExpired e t.
Proof. reflexivity. Qed.

(* What gob makes of the value: it comes back when it is not empty and is
   the nil slice otherwise. *)
Lemma gobEntry_snapshot_Value (e : Entry) (ts : Time) :
  (0 < len (Value e) -> Value (gobEntry (snapshot_of e ts)) = Value e)
  ∧ (len (Value e) = 0 -> Value (gobEntry (snapshot_of e ts)) = None).
Proof.
  cbn. unfold gobField.
  destruct (Value e) as [[|b l]|]; cbn; split; intros; try done; lia.
Qed.

Lemma snapshot_entries_keys (m : Memory) (keys : list string) (now : Time) :
  well_keyed m ->
  (∀ k, k ∈ keys -> is_Some (data m !! k)) ->
  Key <$> gobEncode (snapshot_entries m keys now) = keys.
Proof.
  intros Hkeyed. unfold gobEncode, snapshot_entries.
  induction keys as [|k keys IH]; intros Hin; [done|].
  destruct (Hin k) as [e He]; [apply list_elem_of_here|].
  cbn [omap list_omap]. rewrite He. cbn [fmap option_fmap option_map].
  change (Key e :: (Key <$> map gobEntry
                      (omap (fun k => (fun e => snapshot_of e now)
                                        <$> data m !! k) keys))
          = k :: keys).
  destruct (Hkeyed k e He) as [-> _]. f_equal.
  apply IH. intros k' Hk'. apply Hin. by apply list_elem_of_further.
Qed.

Lemma elem_of_snapshot (m : Memory) (keys : list string) (now : Time) x :
  x ∈ gobEncode (snapshot_entries m keys now)
  ↔ ∃ k e, k ∈ keys ∧ data m !! k = Some e
           ∧ x = gobEntry (snapshot_of e now).
Proof.
  unfold gobEncode, snapshot_entries.
  rewrite list_elem_of_fmap. setoid_rewrite list_elem_of_omap. split.
  - intros (y & -> & k & Hk & Hy).
    destruct (data m !! k) as [e|] eqn:He; [|done].
    injection Hy as <-. by exists k, e.
  - intros (k & e & Hk & He & ->). eexists. split; [reflexivity|].
    exists k. split; [done|]. by rewrite He.
Qed.

Lemma IsExpired_later (e : Entry) (ts tl : Time) :
  ts <= tl -> IsExpired e tl = false -> IsExpired e ts = false.
Proof.
  unfold IsExpired, time.After. destruct (time.IsZero _); [done|].
  intros Hle Hl%Z.ltb_ge. apply Z.ltb_ge. lia.
Qed.

(** X16: Save at [ts], then a new unbounded backend that loads at [tl]: an
    entry that is not expired at [tl] comes back with its key and value when
    its value is not empty, and is absent when its value is empty; an entry
    that is expired at [tl] is absent. *)
Lemma Save_Load_round_trip (f : File) (disk : Disk) (cfg : MemoryConfig)
    (ts tl : Time) :
  File_closed f = false ->
  closed (memory f) = false ->
  well_keyed (memory f) ->
  MaxEntries cfg = 0 -> MaxMemory cfg = 0 ->
  ts <= tl ->
  ∃ f1 disk1 f2,
    File_Save f disk ts = (f1, disk1, None)
    ∧ NewFile (Some (reload_config f cfg)) disk1 tl = Some f2
    ∧ (∀ k e, data (memory f) !! k = Some e ->
         IsExpired e tl = false -> 0 < len (Value e) ->
         ∃ e2, data (memory f2) !! k = Some e2
               ∧ Key e2 = k ∧ Value e2 = Value e)
    ∧ (∀ k e, data (memory f) !! k = Some e ->
         IsExpired e tl = true -> data (memory f2) !! k = None)
    ∧ (∀ k e, data (memory f) !! k = Some e ->
         len (Value e) = 0 -> data (memory f2) !! k = None).
Proof.
  intros Hopen Hmopen Hkeyed Hme Hmm Hle.
  destruct (File_Save_snapshot f disk ts Hopen Hmopen)
    as (f1 & disk1 & keys & Hsave & Hnd & Hin & Hdisk).
  { intros k e He. by destruct (Hkeyed k e He). }
  set (enc := gobEncode (snapshot_entries (memory f) keys ts)) in *.
  assert (Key <$> enc = keys) as Henc_keys.
  { apply snapshot_entries_keys; [done|].
    intros k (e & He & _)%Hin. by exists e. }
  destruct (load_entries_unbounded enc (NewMemory cfg) tl)
    as (mem' & Hload & Hpresent & Hfrom & _).
  { done. }
  { done. }
  { intros x (k & e & Hk & He & ->)%elem_of_snapshot.
    rewrite gobEntry_snapshot_Key. destruct (Hkeyed k e He) as [-> ?]. done. }
  { by rewrite Henc_keys. }
  (* every key of the new map comes from a loadable entry of the snapshot *)
  assert (∀ k e2, data mem' !! k = Some e2 ->
            ∃ e, data (memory f) !! k = Some e
                 ∧ loadable (gobEntry (snapshot_of e ts)) tl = true)
    as Horigin.
  { intros k e2 [Hk | (x & Hx & Hl & Hkx)]%Hfrom; [done|].
    apply elem_of_snapshot in Hx as (k' & e & Hk' & He & ->).
    rewrite gobEntry_snapshot_Key in Hkx.
    destruct (Hkeyed k' e He) as [Hke _]. exists e.
    split; [congruence | done]. }
  exists f1, disk1, (with_memory
                       {| memory := NewMemory cfg; filePath := filePath f;
                          autoSaveInterval := 0; File_closed := false |} mem').
  split; [done|]. split.
  { unfold NewFile, File_Load. cbn. rewrite Hdisk. fold enc.
    unfold gobDecode. by rewrite Hload. }
  cbn [memory with_memory]. split; [|split].
  - intros k e He Hfresh Hval.
    pose proof (gobEntry_snapshot_Value e ts) as [Hv _].
    destruct (Hkeyed k e He) as [Hke _].
    eexists. split.
    + rewrite <- Hke at 1. rewrite <- (gobEntry_snapshot_Key e ts).
      apply Hpresent.
      * apply elem_of_snapshot. exists k, e. split; [|done].
        apply Hin. exists e. split; [done|]. by eapply IsExpired_later.
      * unfold loadable. rewrite gobEntry_snapshot_IsExpired, Hfresh, Hv by done.
        destruct (Value e); [done | cbn in Hval; lia].
    + cbn [Key Value NewEntry]. rewrite gobEntry_snapshot_Key, Hv by done. done.
  - intros k e He Hexp.
    destruct (data mem' !! k) as [e2|] eqn:Hk; [|done].
    destruct (Horigin k e2 Hk) as (e' & He' & Hl).
    assert (e' = e) as -> by congruence.
    unfold loadable in Hl. rewrite gobEntry_snapshot_IsExpired, Hexp in Hl.
    done.
  - intros k e He Hval.
    destruct (data mem' !! k) as [e2|] eqn:Hk; [|done].
    destruct (Horigin k e2 Hk) as (e' & He' & Hl).
    assert (e' = e) as -> by congruence.
    pose proof (gobEntry_snapshot_Value e ts) as [_ Hv].
    unfold loadable in Hl. rewrite (Hv Hval) in Hl.
    by rewrite andb_false_r in Hl.
Qed.

(** ** Summary for the gauges and for an overwrite that needs no room *)

Lemma NewMemory_ok (cfg : MemoryConfig) :
  total_ok (NewMemory cfg) ∧ count_ok (NewMemory cfg)
  ∧ well_keyed (NewMemory cfg).
Proof.
  assert (∀ k (e : Entry) (P : Prop), (∅ : gmap string Entry) !! k = Some e
                                      -> P) as Hnone.
  { intros k e P Hk. by apply lookup_empty_Some in Hk. }
  split; [split|split; [split|]].
  - reflexivity.
  - intros k e. apply Hnone.
  - reflexivity.
  - intros k e. apply Hnone.
  - intros k e. apply Hnone.
Qed.

(* Set keeps entries under their own, non-empty keys. *)
Lemma Memory_Set_well_keyed (m m' : Memory) key value ttl now r :
  Memory_Set m key value ttl now = Some (m', r) ->
  well_keyed m -> well_keyed m'.
Proof.
  intros Hset Hkeyed.
  destruct r as [err|].
  - unfold Memory_Set in Hset.
    destruct (closed m); [by injection Hset as <-|].
    destruct (String.eqb key ""); [by injection Hset as <-|].
    destruct (is_nil value); [by injection Hset as <-|].
    destruct (makeRoom m _) as [[m1 [err1|]]|] eqn:Hroom; [|done|done].
    injection Hset as <- _. intros k e Hk. apply Hkeyed.
    eapply lookup_weaken; [exact Hk | by eapply makeRoom_subseteq].
  - apply Memory_Set_ok in Hset as ((_ & Hkey & _) & m1 & Hroom & ->).
    intros k e. rewrite data_store.
    intros [[<- <-] | [_ Hk]]%lookup_insert_Some; [done|].
    apply Hkeyed. eapply lookup_weaken; [exact Hk|].
    by eapply makeRoom_subseteq.
Qed.

(** X17: on values that are not empty, and away from the ends of the int64
    range, every operation of the engine (Set, Get, Delete, Clear, the sweep
    of expired entries, an eviction) returns a backend whose two gauges are
    the true count and the true sum; a failed Set does so for any value. *)
Lemma gauges_follow_nonempty_values (m : Memory) :
  total_ok m -> count_ok m -> in_bounds m 0 ->
  (∀ key value ttl now m' r,
     in_bounds m (len value) ->
     (r = None -> 0 < len value) ->
     Memory_Set m key value ttl now = Some (m', r) ->
     total_ok m' ∧ count_ok m')
  ∧ (∀ key now m' r,
       Memory_Get m key now = (m', r) -> total_ok m' ∧ count_ok m')
  ∧ (∀ key m' r,
       Memory_Delete m key = (m', r) -> total_ok m' ∧ count_ok m')
  ∧ (∀ m' r, Memory_Clear m = (m', r) -> total_ok m' ∧ count_ok m')
  ∧ (∀ now, total_ok (cleanupExpired m now) ∧ count_ok (cleanupExpired m now))
  ∧ (∀ m', evictOne m = (m', None) -> total_ok m' ∧ count_ok m').
Proof.
  intros Htot Hcnt Hb. repeat apply conj.
  - intros key value ttl now m' r Hbv Hval Hset.
    destruct (Memory_Set_preserves _ _ _ _ _ _ _ Hset Htot Hbv); auto.
  - intros key now m' r Hget.
    destruct (Memory_Get_preserves _ _ _ _ _ Hget Htot Hb); auto.
  - intros key m' r Hdel.
    destruct (Memory_Delete_preserves _ _ _ _ Hdel Htot Hb); auto.
  - intros m' r Hclear.
    destruct (Memory_Clear_preserves _ _ _ Hclear Htot); auto.
  - intros now. destruct (cleanupExpired_preserves m now Htot Hb); auto.
  - intros m' Hev.
    destruct (evictOne_preserves _ _ Hev Htot Hb) as (? & ? & _); auto.
Qed.

(* When makeRoom evicts nothing, overwriting a key moves the byte gauge by
   the difference of the two sizes, leaves the eviction counter alone and,
   on values that are not empty, leaves the entry gauge alone. *)
Lemma overwrite_without_eviction (m : Memory) key value ttl now old :
  valid_Set_args m key value ->
  data m !! key = Some old ->
  makeRoom m (len value) = Some (m, None) ->
  total_ok m ->
  in_bounds m (len value) ->
  ∃ m',
    Memory_Set m key value ttl now = Some (m', None)
    ∧ totalSize m' = totalSize m - Size old + len value
    ∧ evictions (stats m') = evictions (stats m)
    ∧ dom (data m') = dom (data m)
    ∧ (count_ok m -> 0 < len value -> entryCount m' = entryCount m).
Proof.
  intros Hvalid Hold Hroom Htot Hb.
  rewrite (Memory_Set_success m m key value ttl now Hvalid Hroom).
  eexists. split; [reflexivity|].
  destruct (store_preserves m key value ttl now Htot Hb) as [[Ht' _] Hc'].
  pose proof (data_store m key (NewEntry key value ttl now)) as Hdata.
  destruct Htot as [Htot Hpos].
  split; [|split; [|split]].
  - rewrite Ht', Htot. unfold stored_bytes. rewrite Hdata.
    by rewrite (sum_sizes_replace _ _ old).
  - unfold store. by rewrite Hold.
  - rewrite Hdata. apply dom_insert_lookup_L. eauto.
  - intros Hcnt Hval. destruct (Hc' Hcnt Hval) as [-> _].
    destruct Hcnt as [-> _]. unfold stored_count.
    by rewrite Hdata, map_size_insert_Some by eauto.
Qed.

(** ** The example backends are reached by the operations *)

Example stale_cache_reached :
  Memory_Set (NewMemory DefaultMemoryConfig) "light:1" byte_a 4 1
  = Some (stale_cache, None).
Proof. reflexivity. Qed.

Example small_cache_reached :
  Memory_Set (NewMemory four_bytes) "a" (Some [Byte.x61; Byte.x61]) 0 1
  = Some (small_cache, None).
Proof. reflexivity. Qed.

Example star_cache_reached :
  Memory_Set (NewMemory DefaultMemoryConfig) "xa*" byte_a 0 1
  = Some (star_cache, None).
Proof. reflexivity. Qed.

(* The snapshot written for the empty value holds the entry, with the nil
   slice for its value. *)
Example snapshot_of_empty_value :
  ∃ f0 f1 disk,
    NewFile (Some cold_start) ∅ 1 = Some f0
    ∧ File_Set f0 "k" no_bytes 0 1 = Some (f1, None)
    ∧ (File_Save f1 ∅ 2).1.2 = disk
    ∧ disk !! "cache.gob"
      = Some (GobStream
                [ {| Key := "k"; Value := None; CreatedAt := 1;
                     UpdatedAt := 2; ExpiresAt := 0; TTL := 0; Hits := 1;
                     Size := 0 |} ]).
Proof.
  eexists _, _, _. split; [reflexivity|]. split; [reflexivity|].
  split; reflexivity.
Qed.

(** * Further properties of the code *)

(** ** Memory: reading back, missing keys, Delete, Clear, Close *)

(* Room-making changes neither the flag nor the configuration. *)
Lemma evictOne_closed (m m' : Memory) r :
  evictOne m = (m', r) -> closed m' = closed m ∧ config m' = config m.
Proof.
  destruct r as [err|].
  - by intros [-> _]%evictOne_err.
  - by intros (k & e & _ & _ & ->)%evictOne_ok.
Qed.

Lemma makeRoom_loop_closed (fuel : nat) (m m' : Memory) newSize r :
  makeRoom_loop fuel m newSize = Some (m', r) ->
  closed m' = closed m ∧ config m' = config m.
Proof.
  revert m. induction fuel as [|fuel IH]; intros m; cbn.
  - destruct (_ <? _); [discriminate|]. by intros [= <- <-].
  - destruct (_ <? _); [|by intros [= <- <-]].
    destruct (evictOne m) as [m1 [err|]] eqn:Hev.
    + intros [= <- <-]. by eapply evictOne_closed.
    + intros [Hc Hg]%IH. apply evictOne_closed in Hev as [Hc1 Hg1].
      split; congruence.
Qed.

Lemma makeRoom_closed (m m' : Memory) newSize r :
  makeRoom m newSize = Some (m', r) ->
  closed m' = closed m ∧ config m' = config m.
Proof.
  unfold makeRoom.
  destruct (makeRoom_count m) as [m1 r1] eqn:Hcount.
  assert (closed m1 = closed m ∧ config m1 = config m) as [Hc1 Hg1].
  { unfold makeRoom_count in Hcount. destruct (_ && _).
    - by eapply evictOne_closed.
    - by injection Hcount as <- <-. }
  destruct r1 as [err|].
  - by intros [= <- <-].
  - destruct (0 <? MaxMemory (config m1)).
    + intros [Hc Hg]%makeRoom_loop_closed. split; congruence.
    + by intros [= <- <-].
Qed.

Lemma store_closed (m1 : Memory) key entry :
  closed (store m1 key entry) = closed m1
  ∧ config (store m1 key entry) = config m1.
Proof. unfold store. by destruct (data m1 !! key). Qed.

(** X1: after a successful Set(key, value, ttl) at [now], a Get of the key at
    any instant [t] at which the new entry is not past its expiry (ttl <= 0,
    or t no later than now + ttl) returns a copy with the key and the value
    that were set and an access count of 1, and records one hit and no
    miss. *)
Theorem X1_Set_then_Get (m m1 : Memory) (key : string) (value : bytes)
    (ttl : Duration) (now t : Time) :
  Memory_Set m key value ttl now = Some (m1, None) ->
  ttl <= 0 ∨ t <= now + ttl ->
  ∃ m2 got,
    Memory_Get m1 key t = (m2, inl got)
    ∧ Key got = key
    ∧ Value got = value
    ∧ Hits got = 1
    ∧ UpdatedAt got = t
    ∧ hits (stats m2) = Int64.add (hits (stats m1)) 1
    ∧ misses (stats m2) = misses (stats m1).
Proof.
  intros Hset Hfresh.
  apply Memory_Set_ok in Hset as ((Hopen & Hkey & Hval) & m0 & Hroom & ->).
  assert (closed (store m0 key (NewEntry key value ttl now)) = false)
    as Hopen1.
  { rewrite (proj1 (store_closed _ _ _)).
    by rewrite (proj1 (makeRoom_closed _ _ _ _ Hroom)). }
  unfold Memory_Get. rewrite Hopen1.
  destruct (String.eqb_spec key "") as [|_]; [done|].
  rewrite data_store, lookup_insert_eq.
  assert (IsExpired (NewEntry key value ttl now) t = false) as ->.
  { unfold IsExpired, NewEntry, time.IsZero, time.After, time.Add; cbn.
    destruct (Z.ltb_spec 0 ttl); [|done].
    destruct (Z.eqb_spec (now + ttl) 0); [done|].
    apply Z.ltb_ge. lia. }
  eexists _, _. split; [reflexivity|]. cbn.
  repeat split. by destruct value.
Qed.

Lemma X1_Set_then_Get_witness :
  ∃ m2 got,
    Memory_Get stale_cache "light:1" 5 = (m2, inl got)
    ∧ Key got = "light:1"
    ∧ Value got = byte_a
    ∧ Hits got = 1.
Proof.
  destruct (X1_Set_then_Get (NewMemory DefaultMemoryConfig) stale_cache
              "light:1" byte_a 4 1 5)
    as (m2 & got & Hget & Hk & Hv & Hh & _).
  - reflexivity.
  - right. lia.
  - exists m2, got. auto.
Defined.

(** X2: on an open backend, a Get of a non-empty key that is not stored
    returns the error wrapping ErrNotFound (which is not ErrExpired), adds one
    to the miss counter and changes nothing else: the map, the two gauges,
    the hit counter and the eviction counter stay as they were. *)
Theorem X2_Get_missing_key (m : Memory) (key : string) (now : Time) :
  closed m = false ->
  key ≠ "" ->
  data m !! key = None ->
  ∃ m' err,
    Memory_Get m key now = (m', inr err)
    ∧ errors_Is err ErrNotFound = true
    ∧ errors_Is err ErrExpired = false
    ∧ data m' = data m
    ∧ totalSize m' = totalSize m
    ∧ entryCount m' = entryCount m
    ∧ misses (stats m') = Int64.add (misses (stats m)) 1
    ∧ hits (stats m') = hits (stats m)
    ∧ evictions (stats m') = evictions (stats m).
Proof.
  intros Hopen Hkey Hnone. unfold Memory_Get. rewrite Hopen.
  destruct (String.eqb_spec key "") as [|_]; [done|].
  rewrite Hnone. eexists _, _. split; [reflexivity|]. done.
Qed.

Lemma X2_Get_missing_key_witness :
  ∃ m' err,
    Memory_Get stale_cache "light:2" 2 = (m', inr err)
    ∧ errors_Is err ErrNotFound = true
    ∧ data m' = data stale_cache.
Proof.
  destruct (X2_Get_missing_key stale_cache "light:2" 2)
    as (m' & err & Hget & Hnf & _ & Hdata & _).
  - reflexivity.
  - discriminate.
  - reflexivity.
  - exists m', err. auto.
Defined.

(** X3: on an open backend, Delete returns no error whether or not the key
    is stored; afterwards the key is absent and every other key maps to what
    it mapped to; a Delete of an absent key returns the backend unchanged;
    and Delete never counts as a hit, a miss or an eviction. *)
Theorem X3_Delete (m : Memory) (key : string) :
  closed m = false ->
  ∃ m',
    Memory_Delete m key = (m', None)
    ∧ data m' = delete key (data m)
    ∧ data m' !! key = None
    ∧ (∀ k, k ≠ key -> data m' !! k = data m !! k)
    ∧ (data m !! key = None -> m' = m)
    ∧ Memory_Delete m' key = (m', None)
    ∧ hits (stats m') = hits (stats m)
    ∧ misses (stats m') = misses (stats m)
    ∧ evictions (stats m') = evictions (stats m).
Proof.
  intros Hopen. unfold Memory_Delete. rewrite Hopen.
  destruct (data m !! key) as [e|] eqn:Hk.
  - eexists. split; [reflexivity|]. cbn. rewrite Hopen, lookup_delete_eq.
    repeat split; try done.
    intros k Hne. by rewrite lookup_delete_ne.
  - exists m. rewrite Hopen, Hk.
    repeat split; try done. by rewrite delete_id.
Qed.

Lemma X3_Delete_witness :
  ∃ m',
    Memory_Delete full_cache "a" = (m', None)
    ∧ data m' !! "a" = None
    ∧ data m' !! "b" = data full_cache !! "b".
Proof.
  destruct (X3_Delete full_cache "a") as (m' & Hdel & _ & Ha & Hb & _).
  - reflexivity.
  - exists m'. split; [exact Hdel|]. split; [exact Ha|].
    apply Hb. discriminate.
Defined.

(** X4: on an open backend, Clear returns no error, empties the map and puts
    both gauges (in the backend and in the statistics) to zero, so that
    Keys("*") lists nothing; the hit, miss and eviction counters keep their
    values. *)
Theorem X4_Clear (m : Memory) (now : Time) :
  closed m = false ->
  ∃ m',
    Memory_Clear m = (m', None)
    ∧ data m' = ∅
    ∧ totalSize m' = 0
    ∧ entryCount m' = 0
    ∧ entries (stats m') = 0
    ∧ size_ (stats m') = 0
    ∧ Memory_Keys m' "*" now = inl []
    ∧ hits (stats m') = hits (stats m)
    ∧ misses (stats m') = misses (stats m)
    ∧ evictions (stats m') = evictions (stats m).
Proof.
  intros Hopen. unfold Memory_Clear. rewrite Hopen.
  eexists. split; [reflexivity|]. cbn. repeat split.
  unfold Memory_Keys, Range. cbn. rewrite Hopen.
  by rewrite map_to_list_empty.
Qed.

Lemma X4_Clear_witness :
  ∃ m',
    Memory_Clear full_cache = (m', None)
    ∧ data m' = ∅
    ∧ entryCount m' = 0.
Proof.
  destruct (X4_Clear full_cache 3) as (m' & Hc & Hd & _ & He & _).
  - reflexivity.
  - exists m'. auto.
Defined.

(** X5: Close always returns nil and leaves the backend closed, with the map
    and the gauges as they were (the Clear it calls runs after the flag is
    set and fails); a second Close changes nothing; and on the closed
    backend Get, Set, Delete, Clear, Keys and Stats all fail with an error
    wrapping ErrBackendClosed and leave the backend as it is. *)
Theorem X5_Close (m : Memory) (key : string) (value : bytes)
    (ttl : Duration) (pattern : string) (now : Time) :
  ∃ m',
    Memory_Close m = (m', None)
    ∧ closed m' = true
    ∧ data m' = data m
    ∧ totalSize m' = totalSize m
    ∧ entryCount m' = entryCount m
    ∧ Memory_Close m' = (m', None)
    ∧ (∃ e, Memory_Get m' key now = (m', inr e)
            ∧ errors_Is e ErrBackendClosed = true)
    ∧ (∃ e, Memory_Set m' key value ttl now = Some (m', Some e)
            ∧ errors_Is e ErrBackendClosed = true)
    ∧ (∃ e, Memory_Delete m' key = (m', Some e)
            ∧ errors_Is e ErrBackendClosed = true)
    ∧ (∃ e, Memory_Clear m' = (m', Some e)
            ∧ errors_Is e ErrBackendClosed = true)
    ∧ (∃ e, Memory_Keys m' pattern now = inr e
            ∧ errors_Is e ErrBackendClosed = true)
    ∧ (∃ e, Memory_Stats m' = inr e
            ∧ errors_Is e ErrBackendClosed = true).
Proof.
  assert (∃ m', Memory_Close m = (m', None) ∧ closed m' = true
                ∧ data m' = data m ∧ totalSize m' = totalSize m
                ∧ entryCount m' = entryCount m)
    as (m' & Hclose & Hclosed & Hd & Ht & Hc).
  { unfold Memory_Close. destruct (closed m) eqn:Hm.
    - by exists m.
    - eexists. split; [reflexivity|]. done. }
  exists m'. split; [done|]. split; [done|]. split; [done|].
  split; [done|]. split; [done|].
  unfold Memory_Close, Memory_Get, Memory_Set, Memory_Delete, Memory_Clear,
    Memory_Keys, Memory_Stats. rewrite Hclosed.
  split; [done|]. repeat split; eexists; split; try reflexivity; done.
Qed.

(** ** Memory: the sweep, the victim, the bounds *)

Lemma keys_where_fold (P : Entry -> bool) (l : list (string * Entry))
    (acc : list string) :
  fold_left (fun acc '(key, entry) => if P entry then acc ++ [key] else acc)
    l acc
  = acc ++ (List.filter (fun kv => P kv.2) l).*1.
Proof.
  revert acc. induction l as [|[k e] l IH]; intros acc; cbn [fold_left].
  - cbn. by rewrite app_nil_r.
  - rewrite IH. cbn [List.filter snd]. destruct (P e); [|done].
    by rewrite <- app_assoc.
Qed.

Lemma elem_of_filter_fst (P : Entry -> bool) (l : list (string * Entry)) k :
  k ∈ (List.filter (fun kv => P kv.2) l).*1
  ↔ ∃ e, (k, e) ∈ l ∧ P e = true.
Proof.
  rewrite list_elem_of_fmap. split.
  - intros ([k' e] & -> & Hin). apply list_elem_of_In, filter_In in Hin
      as [Hin HP]. exists e. by rewrite list_elem_of_In.
  - intros (e & Hin & HP). exists (k, e). split; [done|].
    apply list_elem_of_In, filter_In. by rewrite <- list_elem_of_In.
Qed.

Lemma NoDup_filter_fst (P : Entry -> bool) (l : list (string * Entry)) :
  NoDup l.*1 -> NoDup (List.filter (fun kv => P kv.2) l).*1.
Proof.
  induction l as [|[k e] l IH]; [done|].
  rewrite fmap_cons. intros [Hk Hnd]%NoDup_cons. cbn [List.filter snd].
  destruct (P e); [|by apply IH].
  rewrite fmap_cons. apply NoDup_cons. split; [|by apply IH].
  intros (e' & Hin & _)%elem_of_filter_fst. apply Hk.
  apply list_elem_of_fmap. by exists (k, e').
Qed.

(* A map that lost the keys of a duplicate-free list of stored keys. *)
Lemma size_without (l : list string) (d d' : gmap string Entry) :
  NoDup l ->
  (∀ k, k ∈ l -> is_Some (d !! k)) ->
  (∀ k, d' !! k = if decide (k ∈ l) then None else d !! k) ->
  (size d' + length l = size d)%nat.
Proof.
  revert d. induction l as [|k l IH]; intros d Hnd Hin Hd.
  - cbn. rewrite Nat.add_0_r. f_equal. apply map_eq. intros k. rewrite Hd.
    destruct (decide (k ∈ [])) as [H|]; [by apply elem_of_nil in H|done].
  - apply NoDup_cons in Hnd as [Hk Hnd].
    destruct (Hin k (list_elem_of_here _ _)) as [e He].
    cbn [length].
    assert (size d' + length l = size (delete k d))%nat as Hsize;
      [apply IH|].
    4: { rewrite map_size_delete_Some in Hsize by eauto.
         assert (size d ≠ 0%nat); [|lia].
         apply map_size_non_empty_iff. intros Hem. by rewrite Hem in He. }
    + done.
    + intros k' Hl. rewrite lookup_delete_ne.
      * apply Hin. by apply list_elem_of_further.
      * intros ->. done.
    + intros k'. rewrite Hd.
      destruct (decide (k' ∈ l)) as [Hl|Hl].
      * rewrite decide_True; [done|]. by apply list_elem_of_further.
      * destruct (decide (k' = k)) as [->|Hne].
        -- rewrite decide_True by apply list_elem_of_here.
           by rewrite lookup_delete_eq.
        -- rewrite decide_False; [by rewrite lookup_delete_ne|].
           intros [?|?]%elem_of_cons; done.
Qed.

(* The second loop of cleanupExpired, over keys that are all stored. *)
Lemma sweep_fold (l : list string) (m m' : Memory) :
  NoDup l ->
  (∀ k, k ∈ l -> is_Some (data m !! k)) ->
  m' = fold_left
         (fun m key =>
            match data m !! key with
            | Some entry =>
                let m1 := with_data m (delete key (data m)) in
                let m2 := updateSize m1 (Int64.neg (Size entry)) in
                with_stats m2 (RecordEviction (stats m2))
            | None => m
            end) l m ->
  (∀ k, data m' !! k = if decide (k ∈ l) then None else data m !! k)
  ∧ evictions (stats m') = incremented (length l) (evictions (stats m))
  ∧ hits (stats m') = hits (stats m)
  ∧ misses (stats m') = misses (stats m).
Proof.
  revert m m'.
  induction l as [|key l IH]; intros m m' Hnd Hin ->; cbn [fold_left].
  - split; [|done]. intros k. destruct (decide (k ∈ [])) as [H|]; [|done].
    by apply elem_of_nil in H.
  - apply NoDup_cons in Hnd as [Hkey Hnd].
    destruct (Hin key) as [e He]; [apply list_elem_of_here|]. rewrite He.
    match goal with
    | |- context [fold_left _ l ?x] =>
        edestruct (IH x) as (Hd & Hev & Hh & Hm);
          [exact Hnd| |reflexivity|]
    end.
    { intros k Hk. cbn. rewrite lookup_delete_ne.
      - apply Hin. by apply list_elem_of_further.
      - intros ->. done. }
    split; [|split; [|split]].
    + intros k. etrans; [apply Hd|]. cbn.
      destruct (decide (k ∈ l)) as [Hl|Hl].
      * rewrite decide_True; [done|]. by apply list_elem_of_further.
      * destruct (decide (k = key)) as [->|Hne].
        -- rewrite decide_True by apply list_elem_of_here.
           apply lookup_delete_eq.
        -- rewrite decide_False.
           ++ by rewrite lookup_delete_ne.
           ++ intros [?|?]%elem_of_cons; done.
    + etrans; [exact Hev|]. cbn [length]. unfold incremented.
      rewrite Nat.iter_succ_r. done.
    + etrans; [exact Hh|]. done.
    + etrans; [exact Hm|]. done.
Qed.

(** X6: the sweep removes exactly the entries that are expired at the time
    it runs and keeps every other entry as it is; the eviction counter is
    incremented once for each entry removed, and the hit and miss counters
    are not touched. *)
Theorem X6_cleanupExpired (m : Memory) (now : Time) :
  let m' := cleanupExpired m now in
  (∀ k, data m' !! k
        = match data m !! k with
          | Some e => if IsExpired e now then None else Some e
          | None => None
          end)
  ∧ (∀ k e, data m' !! k = Some e -> IsExpired e now = false)
  ∧ (size (data m') <= size (data m))%nat
  ∧ evictions (stats m')
    = incremented (size (data m) - size (data m')) (evictions (stats m))
  ∧ hits (stats m') = hits (stats m)
  ∧ misses (stats m') = misses (stats m).
Proof.
  unfold cleanupExpired.
  rewrite (keys_where_fold (fun e => IsExpired e now)). cbn [app].
  set (toDelete := (List.filter (fun kv => (fun e => IsExpired e now) kv.2)
                      (Range (data m))).*1).
  assert (∀ k, k ∈ toDelete
               ↔ ∃ e, data m !! k = Some e ∧ IsExpired e now = true) as Hin.
  { intros k. unfold toDelete.
    rewrite (elem_of_filter_fst (fun e => IsExpired e now)). unfold Range.
    by setoid_rewrite elem_of_map_to_list. }
  assert (NoDup toDelete) as Hnd.
  { apply (NoDup_filter_fst (fun e => IsExpired e now)),
      NoDup_fst_map_to_list. }
  cbn zeta.
  set (m' := fold_left _ toDelete m).
  destruct (sweep_fold toDelete m m' Hnd) as (Hd & Hev & Hh & Hm).
  { intros k (e & He & _)%Hin. by exists e. }
  { reflexivity. }
  clearbody m'.
  assert (∀ k, data m' !! k
               = match data m !! k with
                 | Some e => if IsExpired e now then None else Some e
                 | None => None
                 end) as Hlook.
  { intros k. rewrite Hd. destruct (decide (k ∈ toDelete)) as [Hk|Hk].
    - apply Hin in Hk as (e & -> & ->). done.
    - destruct (data m !! k) as [e|] eqn:He; [|done].
      destruct (IsExpired e now) eqn:Hx; [|done].
      destruct Hk. apply Hin. by exists e. }
  assert (size (data m') + length toDelete = size (data m))%nat as Hsize.
  { apply size_without; [done| |done].
    intros k (e & He & _)%Hin. by exists e. }
  split; [exact Hlook|]. split; [|split; [lia|split; [|done]]].
  - intros k e. rewrite Hlook. destruct (data m !! k) as [e0|]; [|done].
    destruct (IsExpired e0 now) eqn:Hx; [done|]. by intros [= <-].
  - rewrite Hev. f_equal. lia.
Qed.

(* The loops of evictOne keep the smallest rank seen so far, as long as no
   rank equals the value the loop variable starts from. *)
Section PickMinimum.

Variable rank : Entry -> Z.
Variable unset : Z.
Variable step :
  Z * option (string * Entry) -> string * Entry -> Z * option (string * Entry).
Hypothesis step_eq :
  ∀ t v k e,
    step (t, v) (k, e)
    = if (t =? unset) || (rank e <? t) then (rank e, Some (k, e)) else (t, v).

Lemma fold_pick_minimum (l : list (string * Entry)) :
  (∀ kv, kv ∈ l -> rank kv.2 ≠ unset) ->
  match snd (fold_left step l (unset, None)) with
  | None => l = []
  | Some (k, e) =>
      (k, e) ∈ l
      ∧ fst (fold_left step l (unset, None)) = rank e
      ∧ ∀ kv, kv ∈ l -> rank e <= rank kv.2
  end.
Proof.
  induction l as [|[k e] l IH] using rev_ind; intros Hl; [done|].
  rewrite fold_left_app. cbn [fold_left].
  destruct (fold_left step l (unset, None)) as [t v] eqn:Hfold.
  rewrite step_eq. cbn [fst snd] in IH.
  assert (∀ kv, kv ∈ l -> rank kv.2 ≠ unset) as Hl'.
  { intros kv Hkv. apply Hl, elem_of_app. by left. }
  specialize (IH Hl').
  destruct v as [[k0 e0]|].
  - destruct IH as (Hin & -> & Hmin).
    assert (rank e0 ≠ unset) as Hne by apply (Hl' _ Hin).
    apply Z.eqb_neq in Hne. rewrite Hne. cbn [orb].
    destruct (Z.ltb_spec (rank e) (rank e0)) as [Hlt|Hge]; cbn [fst snd].
    + split; [apply elem_of_app; right; apply list_elem_of_here|].
      split; [done|]. intros kv [Hkv|Hkv%list_elem_of_singleton]%elem_of_app.
      * specialize (Hmin _ Hkv). lia.
      * subst kv. cbn. lia.
    + split; [apply elem_of_app; by left|].
      split; [done|]. intros kv [Hkv|Hkv%list_elem_of_singleton]%elem_of_app.
      * by apply Hmin.
      * subst kv. cbn. lia.
  - subst l. cbn in Hfold. injection Hfold as <-.
    rewrite Z.eqb_refl. cbn [orb fst snd app].
    split; [apply list_elem_of_here|]. split; [done|].
    intros kv Hkv%list_elem_of_singleton. subst kv. cbn. lia.
Qed.

End PickMinimum.

Lemma select_victim_minimum policy (d : gmap string Entry) :
  (∀ k e, d !! k = Some e -> policy_rank policy e ≠ policy_unset policy) ->
  match select_victim policy d with
  | None => d = ∅
  | Some (k, e) =>
      d !! k = Some e
      ∧ ∀ k' e', d !! k' = Some e' ->
          policy_rank policy e <= policy_rank policy e'
  end.
Proof.
  intros Hrank.
  assert (∀ kv, kv ∈ Range d ->
            policy_rank policy kv.2 ≠ policy_unset policy) as Hl.
  { intros [k e] Hkv. apply (Hrank k). by apply elem_of_map_to_list. }
  assert (∀ sel,
    match sel with
    | None => Range d = []
    | Some (k, e) =>
        (k, e) ∈ Range d
        ∧ ∀ kv, kv ∈ Range d ->
            policy_rank policy e <= policy_rank policy kv.2
    end ->
    match sel with
    | None => d = ∅
    | Some (k, e) =>
        d !! k = Some e
        ∧ ∀ k' e', d !! k' = Some e' ->
            policy_rank policy e <= policy_rank policy e'
    end) as Hconv.
  { intros [[k e]|].
    - intros [Hin Hmin]. split; [by apply elem_of_map_to_list|].
      intros k' e' He'. apply (Hmin (k', e')). by apply elem_of_map_to_list.
    - apply map_to_list_empty_iff. }
  apply Hconv.
  destruct policy; unfold select_victim.
  - pose proof (fold_pick_minimum UpdatedAt 0 (pick_time UpdatedAt)
                  (fun t v k e => eq_refl) (Range d) Hl) as H.
    destruct (snd _) as [[k e]|]; [|done]. by destruct H as (? & _ & ?).
  - pose proof (fold_pick_minimum Hits (-1) pick_hits
                  (fun t v k e => eq_refl) (Range d) Hl) as H.
    destruct (snd _) as [[k e]|]; [|done]. by destruct H as (? & _ & ?).
  - pose proof (fold_pick_minimum CreatedAt 0 (pick_time CreatedAt)
                  (fun t v k e => eq_refl) (Range d) Hl) as H.
    destruct (snd _) as [[k e]|]; [|done]. by destruct H as (? & _ & ?).
Qed.

(** X7: when the cache holds an entry, no key is empty and no entry carries
    the value the scan starts from (the zero time for LRU and FIFO, -1 hits
    for LFU), an eviction succeeds and removes exactly one entry whose
    last-access time (LRU), hit count (LFU) or creation time (FIFO) is the
    smallest of the cache; it adds one to the eviction counter. *)
Theorem X7_evictOne_removes_minimum (m : Memory) :
  data m ≠ ∅ ->
  well_keyed m ->
  (∀ k e, data m !! k = Some e ->
     policy_rank (EvictionPolicy_ (config m)) e
     ≠ policy_unset (EvictionPolicy_ (config m))) ->
  ∃ m' k e,
    evictOne m = (m', None)
    ∧ data m !! k = Some e
    ∧ data m' = delete k (data m)
    ∧ (∀ k' e', data m !! k' = Some e' ->
         policy_rank (EvictionPolicy_ (config m)) e
         <= policy_rank (EvictionPolicy_ (config m)) e')
    ∧ evictions (stats m') = Int64.add (evictions (stats m)) 1.
Proof.
  intros Hne Hkeys Hrank.
  pose proof (select_victim_minimum _ _ Hrank) as Hsel.
  unfold evictOne.
  destruct (select_victim _ _) as [[k e]|]; [|done].
  destruct Hsel as [Hk Hmin].
  destruct (Hkeys _ _ Hk) as [_ Hkey].
  apply String.eqb_neq in Hkey. rewrite Hkey.
  eexists _, k, e. split; [reflexivity|]. done.
Qed.

Lemma X7_evictOne_removes_minimum_witness :
  ∃ m' k e,
    evictOne full_cache = (m', None)
    ∧ data full_cache !! k = Some e
    ∧ data m' = delete k (data full_cache)
    ∧ (∀ k' e', data full_cache !! k' = Some e' ->
         policy_rank (EvictionPolicy_ (config full_cache)) e
         <= policy_rank (EvictionPolicy_ (config full_cache)) e')
    ∧ evictions (stats m') = Int64.add (evictions (stats full_cache)) 1.
Proof.
  apply X7_evictOne_removes_minimum.
  - intros H. by apply (f_equal (fun d => d !! "a")) in H.
  - intros k e Hk. cbn [data full_cache] in Hk.
    apply lookup_insert_Some in Hk as [[<- <-]|[_ Hk]];
      [|apply lookup_singleton_Some in Hk as [<- <-]]; by split.
  - intros k e Hk. cbn [data full_cache] in Hk.
    apply lookup_insert_Some in Hk as [[<- <-]|[_ Hk]];
      [|apply lookup_singleton_Some in Hk as [<- <-]]; by cbn.
Defined.

(* The loop of makeRoom stops without an error only when its test fails. *)
Lemma makeRoom_loop_exit (fuel : nat) (m m' : Memory) newSize :
  makeRoom_loop fuel m newSize = Some (m', None) ->
  (MaxMemory (config m') <? Int64.add (totalSize m') newSize) = false.
Proof.
  revert m. induction fuel as [|fuel IH]; intros m; cbn.
  - destruct (MaxMemory (config m) <? Int64.add (totalSize m) newSize)
      eqn:Htest; [discriminate|].
    intros [= <-]. exact Htest.
  - destruct (MaxMemory (config m) <? Int64.add (totalSize m) newSize)
      eqn:Htest; [|intros [= <-]; exact Htest].
    destruct (evictOne m) as [m1 [err|]]; [discriminate|]. apply IH.
Qed.

(* The entry-count block of makeRoom leaves room for one more entry. *)
Lemma makeRoom_count_room (m m1 : Memory) :
  makeRoom_count m = (m1, None) ->
  total_ok m -> count_ok m -> in_bounds m 0 ->
  total_ok m1 ∧ count_ok m1
  ∧ stored_bytes m1 <= stored_bytes m
  ∧ stored_count m1 <= stored_count m
  ∧ (0 < MaxEntries (config m) ->
     stored_count m <= MaxEntries (config m) ->
     stored_count m1 < MaxEntries (config m)).
Proof.
  unfold makeRoom_count. intros Hc Htot Hcnt Hb.
  destruct (0 <? MaxEntries (config m)) eqn:Hpos; cbn [andb] in Hc.
  - destruct (Z.leb_spec (MaxEntries (config m)) (entryCount m)) as [Hfull|Hfree].
    + destruct (evictOne_preserves _ _ Hc Htot Hb) as (? & ? & ? & ?).
      split; [done|]. split; [tauto|]. split; [done|]. split; lia.
    + injection Hc as <-. rewrite (proj1 Hcnt) in Hfree.
      split; [done|]. split; [done|]. split; [lia|]. split; lia.
  - injection Hc as <-. apply Z.ltb_ge in Hpos.
    split; [done|]. split; [done|]. split; [lia|]. split; lia.
Qed.

(** X8: a store that succeeds leaves the cache within its configured limits:
    with a byte limit the stored bytes do not exceed MaxMemory, and with an
    entry limit that held before the call the number of entries does not
    exceed MaxEntries.  The gauges are assumed exact and far from the end of
    the int64 range. *)
Theorem X8_Set_respects_limits (m m' : Memory) key value ttl now :
  Memory_Set m key value ttl now = Some (m', None) ->
  total_ok m -> count_ok m -> in_bounds m (len value) ->
  (0 < MaxMemory (config m) -> stored_bytes m' <= MaxMemory (config m))
  ∧ (0 < MaxEntries (config m) ->
     stored_count m <= MaxEntries (config m) ->
     stored_count m' <= MaxEntries (config m)).
Proof.
  intros (_ & m2 & Hroom & ->)%Memory_Set_ok Htot Hcnt Hb.
  pose proof (len_nonneg value) as Hlen.
  assert (in_bounds m 0) as Hb0 by (destruct Hb; split; lia).
  unfold makeRoom in Hroom.
  destruct (makeRoom_count m) as [m1 [err|]] eqn:Hc; [discriminate|].
  destruct (makeRoom_count_room _ _ Hc Htot Hcnt Hb0)
    as (Htot1 & Hcnt1 & Hbytes1 & Hcount1 & Hroom1).
  pose proof (makeRoom_count_config _ _ _ Hc) as Hcfg1.
  assert (in_bounds m1 0) as Hb1 by (eapply in_bounds_weaken; eauto).
  assert (total_ok m2 ∧ stored_bytes m2 <= stored_bytes m1
          ∧ stored_count m2 <= stored_count m1
          ∧ (0 < MaxMemory (config m) ->
             stored_bytes m2 + len value <= MaxMemory (config m)))
    as (Htot2 & Hbytes2 & Hcount2 & Hfit).
  { destruct (0 <? MaxMemory (config m1)) eqn:Hmax.
    - destruct (makeRoom_loop_preserves _ _ _ _ _ Hroom Htot1 Hb1)
        as (Htot2 & _ & Hbytes2 & Hcount2).
      split; [done|]. split; [done|]. split; [done|]. intros _.
      pose proof (makeRoom_loop_exit _ _ _ _ Hroom) as Hexit.
      destruct (makeRoom_loop_closed _ _ _ _ _ Hroom) as [_ Hcfg2].
      rewrite Hcfg2, Hcfg1 in Hexit. apply Z.ltb_ge in Hexit.
      destruct Htot2 as [Hgauge Hsizes]. rewrite Hgauge in Hexit.
      pose proof (stored_bytes_nonneg m2 (conj Hgauge Hsizes)).
      rewrite add_small in Hexit; [done|].
      destruct Hb. in_range.
    - injection Hroom as <-. rewrite Hcfg1 in Hmax. apply Z.ltb_ge in Hmax.
      split; [done|]. split; [lia|]. split; lia. }
  set (entry := NewEntry key value ttl now).
  split.
  - intros Hmax. specialize (Hfit Hmax).
    unfold stored_bytes in *. rewrite data_store.
    destruct (data m2 !! key) as [old|] eqn:Hold.
    + rewrite (sum_sizes_replace _ _ old) by done.
      assert (0 <= Size old) by (by eapply (proj2 Htot2)).
      cbn [Size entry NewEntry]. lia.
    + rewrite sum_sizes_insert by done. cbn [Size entry NewEntry]. lia.
  - intros Hmax Hle. specialize (Hroom1 Hmax Hle).
    unfold stored_count in *. rewrite data_store.
    destruct (data m2 !! key) as [old|] eqn:Hold.
    + rewrite map_size_insert_Some by eauto. lia.
    + rewrite map_size_insert_None by done. lia.
Qed.

(* A hypothesis [Hk : d !! k = Some e] over a map written out entry by entry
   is split into one case for each entry. *)
Ltac each_entry Hk :=
  repeat (apply lookup_insert_Some in Hk as [[<- <-]|[_ Hk]]);
  try (apply lookup_singleton_Some in Hk as [<- <-]);
  try (by rewrite lookup_empty in Hk).

Lemma full_cache_ok :
  total_ok full_cache ∧ count_ok full_cache ∧ well_keyed full_cache
  ∧ in_bounds full_cache 1.
Proof.
  split; [|split; [|split]].
  - split; [reflexivity|].
    intros k e Hk. cbn [data full_cache] in Hk. each_entry Hk; by cbn.
  - split; [reflexivity|].
    intros k e Hk. cbn [data full_cache] in Hk. each_entry Hk; by cbn.
  - intros k e Hk. cbn [data full_cache] in Hk. each_entry Hk; by split.
  - split; by vm_compute.
Qed.

Lemma X8_Set_respects_limits_witness :
  ∃ m',
    Memory_Set full_cache "c" byte_a 0 3 = Some (m', None)
    ∧ stored_count m' <= MaxEntries (config full_cache).
Proof.
  eexists. split; [vm_compute; reflexivity|].
  eapply (X8_Set_respects_limits full_cache _ "c" byte_a 0 3).
  - vm_compute. reflexivity.
  - apply full_cache_ok.
  - apply full_cache_ok.
  - apply full_cache_ok.
  - by vm_compute.
  - by vm_compute.
Defined.

(* Once a victim is held, the loops of evictOne never drop it, and the first
   entry visited is always taken. *)
Lemma fold_pick_time_Some field (l : list (string * Entry)) t v :
  is_Some (snd (fold_left (pick_time field) l (t, Some v))).
Proof.
  revert t v. induction l as [|[k e] l IH]; intros t v; cbn; [by eexists|].
  destruct (time.IsZero t || time.Before (field e) t); apply IH.
Qed.

Lemma fold_pick_hits_Some (l : list (string * Entry)) h v :
  is_Some (snd (fold_left pick_hits l (h, Some v))).
Proof.
  revert h v. induction l as [|[k e] l IH]; intros h v; cbn; [by eexists|].
  destruct ((h =? -1) || (Hits e <? h)); apply IH.
Qed.

Lemma select_victim_None policy (d : gmap string Entry) :
  select_victim policy d = None -> d = ∅.
Proof.
  intros Hsel. apply map_to_list_empty_iff.
  destruct (map_to_list d) as [|[k e] l] eqn:Hl; [done|].
  destruct policy; unfold select_victim, Range in Hsel; rewrite Hl in Hsel;
    cbn in Hsel.
  - destruct (fold_pick_time_Some UpdatedAt l (UpdatedAt e) (k, e)) as [v Hv].
    by rewrite Hv in Hsel.
  - destruct (fold_pick_hits_Some l (Hits e) (k, e)) as [v Hv].
    by rewrite Hv in Hsel.
  - destruct (fold_pick_time_Some CreatedAt l (CreatedAt e) (k, e)) as [v Hv].
    by rewrite Hv in Hsel.
Qed.

(* Without an empty key in the map, evictOne fails only on an empty map. *)
Lemma evictOne_err_empty (m m' : Memory) err :
  (∀ k e, data m !! k = Some e -> k ≠ "") ->
  evictOne m = (m', Some err) -> data m' = ∅.
Proof.
  intros Hkeys. unfold evictOne.
  destruct (select_victim _ _) as [[k e]|] eqn:Hsel.
  - apply select_victim_lookup in Hsel.
    destruct (String.eqb_spec k "") as [->|_]; [|discriminate].
    by destruct (Hkeys _ _ Hsel).
  - intros [= <- _]. by eapply select_victim_None.
Qed.

Lemma makeRoom_loop_err_empty (fuel : nat) (m m' : Memory) newSize err :
  (∀ k e, data m !! k = Some e -> k ≠ "") ->
  makeRoom_loop fuel m newSize = Some (m', Some err) -> data m' = ∅.
Proof.
  revert m. induction fuel as [|fuel IH]; intros m Hkeys; cbn.
  - destruct (_ <? _); discriminate.
  - destruct (_ <? _); [|discriminate].
    destruct (evictOne m) as [m1 [err1|]] eqn:Hev.
    + intros [= <- _]. by eapply evictOne_err_empty.
    + apply IH. intros k e Hk. apply (Hkeys k e).
      eapply lookup_weaken; [exact Hk|]. by eapply evictOne_subseteq.
Qed.

(** X9: a store that is refused for lack of room has emptied the cache.
    When no stored key is the empty string, a Set that returns an error
    wrapping ErrMemoryLimit leaves no entry behind: eviction went on until
    nothing was left to evict. *)
Theorem X9_memory_limit_error_empties_cache (m m' : Memory) key value ttl now
    err :
  (∀ k e, data m !! k = Some e -> k ≠ "") ->
  Memory_Set m key value ttl now = Some (m', Some err) ->
  errors_Is err ErrMemoryLimit = true ->
  data m' = ∅.
Proof.
  intros Hkeys. unfold Memory_Set.
  destruct (closed m); [by intros [= <- <-]|].
  destruct (String.eqb key ""); [by intros [= <- <-]|].
  destruct (is_nil value); [by intros [= <- <-]|].
  destruct (makeRoom m _) as [[m1 [err1|]]|] eqn:Hroom; [|done..].
  intros [= <- <-] _. unfold makeRoom in Hroom.
  destruct (makeRoom_count m) as [m0 [err0|]] eqn:Hcount.
  - injection Hroom as <- <-. unfold makeRoom_count in Hcount.
    destruct (_ && _); [|discriminate]. by eapply evictOne_err_empty.
  - destruct (0 <? _); [|discriminate].
    eapply makeRoom_loop_err_empty; [|exact Hroom].
    intros k e Hk. apply (Hkeys k e). unfold makeRoom_count in Hcount.
    destruct (_ && _).
    + eapply lookup_weaken; [exact Hk|]. by eapply evictOne_subseteq.
    + by injection Hcount as <-.
Qed.

Lemma X9_memory_limit_error_empties_cache_witness :
  ∃ m' err,
    Memory_Set small_cache "b" five_bytes 0 2 = Some (m', Some err)
    ∧ data m' = ∅.
Proof.
  eexists _, _. split; [vm_compute; reflexivity|].
  eapply (X9_memory_limit_error_empties_cache small_cache _ "b" five_bytes 0 2).
  - intros k e Hk. cbn [data small_cache] in Hk. each_entry Hk. done.
  - vm_compute. reflexivity.
  - reflexivity.
Defined.

(** X10: Set always returns, and its outcome follows the order of its
    checks: on a closed backend the error wraps ErrBackendClosed, else with
    an empty key ErrInvalidKey, else with a nil value ErrInvalidValue, and in
    these three cases the cache is unchanged; the only other error wraps
    ErrMemoryLimit, and then no entry was added or modified; a success
    stores the value under the key. *)
Theorem X10_Set_outcomes (m : Memory) key value ttl now :
  ∃ m' r,
    Memory_Set m key value ttl now = Some (m', r)
    ∧ match r with
      | Some err =>
          if closed m then
            errors_Is err ErrBackendClosed = true ∧ m' = m
          else if String.eqb key "" then
            errors_Is err ErrInvalidKey = true ∧ m' = m
          else if is_nil value then
            errors_Is err ErrInvalidValue = true ∧ m' = m
          else errors_Is err ErrMemoryLimit = true ∧ data m' ⊆ data m
      | None =>
          valid_Set_args m key value
          ∧ data m' !! key = Some (NewEntry key value ttl now)
      end.
Proof.
  unfold Memory_Set.
  destruct (closed m) eqn:Hopen; [by eexists _, _|].
  destruct (String.eqb_spec key "") as [->|Hkey]; [by eexists _, _|].
  destruct (is_nil value) eqn:Hval; [by eexists _, _|].
  destruct (makeRoom_total m (Size (NewEntry key value ttl now)))
    as [[m1 r] Hroom]. rewrite Hroom.
  pose proof (makeRoom_subseteq _ _ _ _ Hroom) as Hsub.
  destruct r as [err|].
  - eexists _, _. split; [reflexivity|]. split; [|done].
    unfold makeRoom in Hroom.
    destruct (makeRoom_count m) as [m0 [err0|]] eqn:Hcount.
    + injection Hroom as <- <-. unfold makeRoom_count in Hcount.
      destruct (_ && _); [|discriminate].
      by apply evictOne_err in Hcount as [_ ->].
    + destruct (0 <? _); [|discriminate].
      assert (∀ fuel m0, makeRoom_loop fuel m0 (Size (NewEntry key value ttl now))
                         = Some (m1, Some err) -> err = ErrMemoryLimit) as Hloop.
      { clear. induction fuel as [|fuel IH]; intros m0; cbn.
        - destruct (_ <? _); discriminate.
        - destruct (_ <? _); [|discriminate].
          destruct (evictOne m0) as [m2 [err2|]] eqn:Hev; [|apply IH].
          intros [= <- <-]. by apply evictOne_err in Hev as [_ ->]. }
      by rewrite (Hloop _ _ Hroom).
  - eexists _, _. split; [reflexivity|]. split; [done|].
    cbn. destruct (data m1 !! key); cbn; apply lookup_insert_eq.
Qed.

(** ** File: Save, Close and a new backend *)

(* The state of the Memory after the loop of Save. *)
Lemma collect_fold_state (keys : list string) (mem mem' : Memory)
    (es0 es : list Entry) (now : Time) :
  closed mem = false ->
  NoDup keys ->
  (∀ k, k ∈ keys ->
     k ≠ "" ∧ ∃ e, data mem !! k = Some e ∧ IsExpired e now = false) ->
  fold_left (fun acc key => collect acc key now) keys (mem, es0) = (mem', es) ->
  (∀ k, data mem' !! k
        = if decide (k ∈ keys)
          then (fun e => touch e now) <$> data mem !! k
          else data mem !! k)
  ∧ hits (stats mem') = incremented (length keys) (hits (stats mem))
  ∧ misses (stats mem') = misses (stats mem)
  ∧ evictions (stats mem') = evictions (stats mem)
  ∧ totalSize mem' = totalSize mem
  ∧ entryCount mem' = entryCount mem
  ∧ closed mem' = false
  ∧ config mem' = config mem.
Proof.
  revert mem es0.
  induction keys as [|k keys IH]; intros mem es0 Hopen Hnd Hkeys Hfold.
  - cbn in Hfold. injection Hfold as <- _.
    split; [|done]. intros k.
    destruct (decide (k ∈ [])) as [H|]; [by apply elem_of_nil in H|done].
  - apply NoDup_cons in Hnd as [Hk Hnd].
    destruct (Hkeys k) as (Hne & e & He & Hfresh); [apply list_elem_of_here|].
    cbn [fold_left collect] in Hfold. unfold Memory_Get in Hfold.
    rewrite Hopen in Hfold.
    destruct (String.eqb_spec k "") as [|_]; [done|].
    rewrite He, Hfresh in Hfold.
    apply IH in Hfold as (Hd & Hh & Hm & Hev & Ht & Hc & Hcl & Hcfg);
      [|done|done|].
    + split; [|split; [|done]].
      * intros k'. rewrite Hd. cbn [data with_stats with_data].
        destruct (decide (k' ∈ keys)) as [Hl|Hl].
        -- rewrite decide_True by (by apply list_elem_of_further).
           rewrite lookup_insert_ne; [done|]. intros ->. done.
        -- destruct (decide (k' = k)) as [->|Hne'].
           ++ rewrite decide_True by apply list_elem_of_here.
              by rewrite lookup_insert_eq, He.
           ++ rewrite decide_False.
              ** by rewrite lookup_insert_ne.
              ** intros [?|?]%elem_of_cons; done.
      * rewrite Hh. cbn [length]. unfold incremented.
        by rewrite Nat.iter_succ_r.
    + intros k' Hk'. destruct (Hkeys k') as (Hne' & e' & He' & Hf');
        [by apply list_elem_of_further|].
      split; [done|]. exists e'. split; [|done].
      cbn. rewrite lookup_insert_ne; [done|]. intros ->. done.
Qed.

Lemma tmp_path_differs (path : string) : path +:+ ".tmp" ≠ path.
Proof.
  intros H. apply (f_equal String.length) in H.
  rewrite length_append in H. cbn in H. lia.
Qed.

(** X11: Save writes the snapshot by way of a temporary file that is gone
    when Save returns: afterwards the cache file holds the encoding of one
    copy of each entry that is not expired, the temporary path holds no
    file, and every other path of the disk is as it was. *)
Theorem X11_Save_replaces_only_the_cache_file (f : File) (disk : Disk)
    (now : Time) :
  File_closed f = false ->
  closed (memory f) = false ->
  (∀ k e, data (memory f) !! k = Some e -> k ≠ "") ->
  ∃ f1 disk1 keys,
    File_Save f disk now = (f1, disk1, None)
    ∧ NoDup keys
    ∧ (∀ k, k ∈ keys
            ↔ ∃ e, data (memory f) !! k = Some e ∧ IsExpired e now = false)
    ∧ disk1 !! filePath f
      = Some (GobStream (gobEncode (snapshot_entries (memory f) keys now)))
    ∧ disk1 !! (filePath f +:+ ".tmp") = None
    ∧ (∀ path, path ≠ filePath f -> path ≠ filePath f +:+ ".tmp" ->
         disk1 !! path = disk !! path).
Proof.
  intros Hopen Hmopen Hkeyed.
  destruct (Keys_star (memory f) now Hmopen) as (keys & Hkeys & Hnd & Hin).
  destruct (collect_fold keys (memory f) [] now Hmopen Hnd) as [mem' Hfold].
  { intros k (e & He & Hfresh)%Hin. split; [by eapply Hkeyed | by exists e]. }
  pose proof (tmp_path_differs (filePath f)) as Htmp.
  unfold File_Save. rewrite Hopen, Hkeys, Hfold. cbn [app].
  rewrite lookup_insert_eq.
  eexists _, _, keys. split; [reflexivity|]. split; [done|]. split; [done|].
  split; [by rewrite lookup_insert_eq|]. split.
  - rewrite lookup_insert_ne by done. apply lookup_delete_eq.
  - intros path Hp Ht. rewrite lookup_insert_ne by done.
    rewrite lookup_delete_ne by done. by rewrite !lookup_insert_ne.
Qed.

Lemma stale_file_keys k e :
  data (memory stale_file) !! k = Some e -> Key e = k ∧ k ≠ "".
Proof.
  intros Hk. cbn [memory stale_file data stale_cache] in Hk.
  each_entry Hk. by split.
Qed.

Lemma X11_Save_replaces_only_the_cache_file_witness :
  ∃ f1 disk1 keys,
    File_Save stale_file ∅ 2 = (f1, disk1, None)
    ∧ NoDup keys
    ∧ (∀ k, k ∈ keys
            ↔ ∃ e, data (memory stale_file) !! k = Some e
                   ∧ IsExpired e 2 = false)
    ∧ disk1 !! filePath stale_file
      = Some (GobStream
                (gobEncode (snapshot_entries (memory stale_file) keys 2)))
    ∧ disk1 !! (filePath stale_file +:+ ".tmp") = None
    ∧ (∀ path, path ≠ filePath stale_file ->
         path ≠ filePath stale_file +:+ ".tmp" ->
         disk1 !! path = (∅ : Disk) !! path).
Proof.
  apply (X11_Save_replaces_only_the_cache_file stale_file ∅ 2).
  - reflexivity.
  - reflexivity.
  - intros k e Hk. by destruct (stale_file_keys k e Hk).
Defined.

(** X12: Save reads the cache while it writes the snapshot: every entry
    that is not expired has its hit count raised by one and its last-access
    time set to the instant of the Save, the hit counter of the statistics
    goes up by the number of such entries, and expired entries, the gauges
    and the miss and eviction counters are left as they were. *)
Theorem X12_Save_counts_as_a_read (f : File) (disk : Disk) (now : Time) :
  File_closed f = false ->
  closed (memory f) = false ->
  (∀ k e, data (memory f) !! k = Some e -> k ≠ "") ->
  ∃ f1 disk1 keys,
    File_Save f disk now = (f1, disk1, None)
    ∧ NoDup keys
    ∧ (∀ k, k ∈ keys
            ↔ ∃ e, data (memory f) !! k = Some e ∧ IsExpired e now = false)
    ∧ (∀ k, data (memory f1) !! k = after_Save now <$> data (memory f) !! k)
    ∧ hits (stats (memory f1))
      = incremented (length keys) (hits (stats (memory f)))
    ∧ misses (stats (memory f1)) = misses (stats (memory f))
    ∧ evictions (stats (memory f1)) = evictions (stats (memory f))
    ∧ totalSize (memory f1) = totalSize (memory f)
    ∧ entryCount (memory f1) = entryCount (memory f).
Proof.
  intros Hopen Hmopen Hkeyed.
  destruct (Keys_star (memory f) now Hmopen) as (keys & Hkeys & Hnd & Hin).
  destruct (fold_left (fun acc key => collect acc key now) keys (memory f, []))
    as [mem' es] eqn:Hfold.
  destruct (collect_fold_state keys (memory f) mem' [] es now Hmopen Hnd)
    as (Hd & Hh & Hm & Hev & Ht & Hc & _); [|done|].
  { intros k (e & He & Hfresh)%Hin. split; [by eapply Hkeyed | by exists e]. }
  unfold File_Save. rewrite Hopen, Hkeys, Hfold.
  rewrite lookup_insert_eq.
  eexists _, _, keys. split; [reflexivity|]. split; [done|]. split; [done|].
  cbn [memory with_memory]. split; [|done].
  intros k. rewrite Hd. unfold after_Save.
  destruct (decide (k ∈ keys)) as [Hk|Hk].
  - apply Hin in Hk as (e & -> & Hfresh). cbn. by rewrite Hfresh.
  - destruct (data (memory f) !! k) as [e|] eqn:He; [|done]. cbn.
    destruct (IsExpired e now) eqn:Hx; [done|].
    destruct Hk. apply Hin. by exists e.
Qed.

Lemma X12_Save_counts_as_a_read_witness :
  ∃ f1 disk1 keys,
    File_Save stale_file ∅ 2 = (f1, disk1, None)
    ∧ NoDup keys
    ∧ (∀ k, k ∈ keys
            ↔ ∃ e, data (memory stale_file) !! k = Some e
                   ∧ IsExpired e 2 = false)
    ∧ (∀ k, data (memory f1) !! k
            = after_Save 2 <$> data (memory stale_file) !! k)
    ∧ hits (stats (memory f1))
      = incremented (length keys) (hits (stats (memory stale_file)))
    ∧ misses (stats (memory f1)) = misses (stats (memory stale_file))
    ∧ evictions (stats (memory f1)) = evictions (stats (memory stale_file))
    ∧ totalSize (memory f1) = totalSize (memory stale_file)
    ∧ entryCount (memory f1) = entryCount (memory stale_file).
Proof.
  apply (X12_Save_counts_as_a_read stale_file ∅ 2).
  - reflexivity.
  - reflexivity.
  - intros k e Hk. by destruct (stale_file_keys k e Hk).
Defined.

(** X13: Close of an open file backend writes the same snapshot as a Save
    at that instant, then closes the backend and its Memory and returns nil;
    afterwards Get, Set, Delete, Clear, Keys, Stats, Save and Load all fail
    with ErrBackendClosed without touching the backend or the disk, and a
    second Close returns nil and changes nothing. *)
Theorem X13_File_Close (f : File) (disk : Disk) (now later : Time)
    (key : string) (value : bytes) (ttl : Duration) (pattern : string) :
  File_closed f = false ->
  closed (memory f) = false ->
  ∃ f' disk',
    File_Close f disk now = (f', disk', None)
    ∧ disk' = snd (fst (File_Save f disk now))
    ∧ File_closed f' = true
    ∧ closed (memory f') = true
    ∧ data (memory f') = data (memory (fst (fst (File_Save f disk now))))
    ∧ File_Close f' disk' later = (f', disk', None)
    ∧ File_Save f' disk' later = (f', disk', Some ErrBackendClosed)
    ∧ File_Load f' disk' later = Some (f', Some ErrBackendClosed)
    ∧ (∃ e, File_Get f' key later = (f', inr e)
            ∧ errors_Is e ErrBackendClosed = true)
    ∧ (∃ e, File_Set f' key value ttl later = Some (f', Some e)
            ∧ errors_Is e ErrBackendClosed = true)
    ∧ (∃ e, File_Delete f' key = (f', Some e)
            ∧ errors_Is e ErrBackendClosed = true)
    ∧ File_Clear f' = (f', Some ErrBackendClosed)
    ∧ File_Keys f' pattern later = inr ErrBackendClosed
    ∧ File_Stats f' = inr ErrBackendClosed.
Proof.
  intros Hopen Hmopen.
  assert (∃ f1 disk1, File_Save f disk now = (f1, disk1, None)
                      ∧ closed (memory f1) = false) as (f1 & disk1 & Hsave & H1).
  { unfold File_Save, Memory_Keys. rewrite Hopen, Hmopen.
    destruct (fold_left _ _ _) as [mem es] eqn:Hfold.
    rewrite lookup_insert_eq. eexists _, _. split; [reflexivity|].
    cbn [memory with_memory].
    assert (∀ keys acc,
              closed (fst acc) = false ->
              closed (fst (fold_left (fun acc key => collect acc key now)
                             keys acc)) = false) as Hcl.
    { clear. induction keys as [|k keys IH]; intros [m es] Hm; [done|].
      cbn [fold_left]. apply IH. cbn [fst] in Hm. unfold collect, Memory_Get.
      rewrite Hm. destruct (String.eqb k ""); [done|].
      destruct (data m !! k) as [e|]; [|done].
      destruct (IsExpired e now); done. }
    specialize (Hcl (fold_left (Keys_visit "*" now) (Range (data (memory f))) [])
                  (memory f, []) Hmopen).
    by rewrite Hfold in Hcl. }
  unfold File_Close. rewrite Hopen, Hsave.
  cbn [memory with_File_closed]. unfold Memory_Close. rewrite H1.
  eexists _, _. split; [reflexivity|]. cbn [fst snd].
  split; [done|]. split; [done|]. split; [done|]. split; [done|].
  unfold File_Save, File_Load, File_Get, File_Set, File_Delete, File_Clear,
    File_Keys, File_Stats.
  cbn [File_closed with_memory with_File_closed].
  repeat split; try done; eexists; split; try reflexivity; done.
Qed.

Lemma X13_File_Close_witness :
  ∃ f' disk',
    File_Close stale_file ∅ 2 = (f', disk', None)
    ∧ File_closed f' = true
    ∧ closed (memory f') = true
    ∧ File_Keys f' "*" 3 = inr ErrBackendClosed.
Proof.
  destruct (X13_File_Close stale_file ∅ 2 3 "" None 0 "*")
    as (f' & disk' & Hclose & _ & Hc & Hm & H); [reflexivity..|].
  exists f', disk'. split; [done|]. split; [done|]. split; [done|].
  apply H.
Defined.

(* Set adds no key other than its own and keeps the backend open. *)
Lemma Memory_Set_origin (m m' : Memory) key value ttl now r :
  Memory_Set m key value ttl now = Some (m', r) ->
  closed m' = closed m
  ∧ config m' = config m
  ∧ ∀ k, is_Some (data m' !! k) ->
      is_Some (data m !! k)
      ∨ (k = key ∧ r = None ∧ key ≠ "" ∧ is_nil value = false).
Proof.
  destruct r as [err|].
  - unfold Memory_Set.
    destruct (closed m) eqn:Hopen; [intros [= <-]; auto|].
    destruct (String.eqb_spec key "") as [->|Hkey]; [intros [= <-]; auto|].
    destruct (is_nil value) eqn:Hval; [intros [= <-]; auto|].
    destruct (makeRoom m _) as [[m1 [err1|]]|] eqn:Hroom; [|done..].
    intros [= <- _]. destruct (makeRoom_closed _ _ _ _ Hroom) as [-> ->].
    split; [done|]. split; [done|]. intros k [e Hk]. left. exists e.
    eapply lookup_weaken; [exact Hk|]. by eapply makeRoom_subseteq.
  - intros ((Hopen & Hkey & Hval) & m1 & Hroom & ->)%Memory_Set_ok.
    destruct (store_closed m1 key (NewEntry key value ttl now)) as [-> ->].
    destruct (makeRoom_closed _ _ _ _ Hroom) as [-> ->].
    split; [done|]. split; [done|]. intros k. rewrite data_store.
    destruct (decide (k = key)) as [->|Hne]; [by right|].
    rewrite lookup_insert_ne by done. intros [e Hk]. left. exists e.
    eapply lookup_weaken; [exact Hk|]. by eapply makeRoom_subseteq.
Qed.

(* The loop of Load always returns, and every key of its result was in the
   Memory before or comes from an entry it could load. *)
Lemma load_entries_origin (es : list Entry) (mem : Memory) (now : Time) :
  ∃ mem',
    load_entries mem es now = Some mem'
    ∧ closed mem' = closed mem
    ∧ config mem' = config mem
    ∧ ∀ k, is_Some (data mem' !! k) ->
        is_Some (data mem !! k)
        ∨ ∃ x, x ∈ es ∧ Key x = k ∧ k ≠ "" ∧ loadable x now = true.
Proof.
  revert mem. induction es as [|x es IH]; intros mem.
  - exists mem. split; [done|]. split; [done|]. split; [done|]. by left.
  - cbn [load_entries].
    assert (∃ mem1, load_entry mem x now = Some mem1
                    ∧ closed mem1 = closed mem
                    ∧ config mem1 = config mem
                    ∧ ∀ k, is_Some (data mem1 !! k) ->
                        is_Some (data mem !! k)
                        ∨ (Key x = k ∧ k ≠ "" ∧ loadable x now = true))
      as (mem1 & -> & Hcl1 & Hcfg1 & Hk1).
    { unfold load_entry, loadable.
      destruct (IsExpired x now) eqn:Hx; [exists mem; auto|].
      destruct (_ && _); [exists mem; auto|].
      match goal with
      | |- context [Memory_Set mem ?k ?v ?t ?n] =>
          destruct (Memory_Set_total mem k v t n) as [[mem1 r] Hset];
          rewrite Hset;
          destruct (Memory_Set_origin _ _ _ _ _ _ _ Hset) as (? & ? & Ho)
      end.
      exists mem1. split; [done|]. split; [done|]. split; [done|].
      intros k [Hk|(-> & _ & ? & Hv)]%Ho; [by left|].
      right. by rewrite Hv. }
    destruct (IH mem1) as (mem' & -> & Hcl & Hcfg & Hk).
    exists mem'. split; [done|]. split; [congruence|]. split; [congruence|].
    intros k [Hin|(y & Hy & ?)]%Hk.
    + apply Hk1 in Hin as [?|?]; [by left|].
      right. exists x. split; [apply list_elem_of_here|done].
    + right. exists y. split; [by apply list_elem_of_further|done].
Qed.

Lemma NewMemory_lookup (cfg : MemoryConfig) k e :
  data (NewMemory cfg) !! k = Some e -> False.
Proof. cbn. by rewrite lookup_empty. Qed.

(** X14: once the cache directory exists, NewFile always returns an open
    backend on the configured path, and a failure of the initial Load is
    not reported.  The new cache is empty
    when loading on start is switched off, when there is no cache file, and
    when the file cannot be decoded; in every case each key it holds is the
    non-empty key of a snapshot entry that is not expired and whose value
    is not nil. *)
Theorem X14_NewFile (cfg : FileConfig) (disk : Disk) (now : Time) :
  ∃ f,
    NewFile (Some cfg) disk now = Some f
    ∧ File_closed f = false
    ∧ closed (memory f) = false
    ∧ filePath f = FilePath cfg
    ∧ config (memory f)
      = default DefaultMemoryConfig (MemoryConfig_ cfg)
    ∧ (∀ k, is_Some (data (memory f) !! k) ->
         LoadOnStart cfg = true
         ∧ ∃ encoded x,
             disk !! FilePath cfg = Some (GobStream encoded)
             ∧ x ∈ encoded ∧ Key x = k ∧ k ≠ ""
             ∧ IsExpired x now = false ∧ is_nil (Value x) = false).
Proof.
  unfold NewFile. change (default DefaultFileConfig (Some cfg)) with cfg.
  cbn zeta.
  set (memcfg := default DefaultMemoryConfig (MemoryConfig_ cfg)).
  destruct (LoadOnStart cfg).
  - unfold File_Load. cbn [File_closed filePath memory].
    destruct (disk !! FilePath cfg) as [[|encoded]|] eqn:Hdisk.
    + eexists. split; [reflexivity|]. cbn.
      split; [done|]. split; [done|]. split; [done|]. split; [done|].
      by intros k [e He%NewMemory_lookup].
    + destruct (load_entries_origin (gobDecode encoded) (NewMemory memcfg) now)
        as (mem' & -> & Hcl & Hcfg & Hk).
      eexists. split; [reflexivity|]. cbn.
      split; [done|]. split; [done|]. split; [done|]. split; [done|].
      intros k [[? Hin%NewMemory_lookup]|(x & Hx & ? & ? & Hl)]%Hk; [done|].
      split; [done|]. exists encoded, x.
      unfold loadable in Hl. apply andb_true_iff in Hl as [Hl1 Hl2].
      apply negb_true_iff in Hl1, Hl2. done.
    + eexists. split; [reflexivity|]. cbn.
      split; [done|]. split; [done|]. split; [done|]. split; [done|].
      by intros k [e He%NewMemory_lookup].
  - eexists. split; [reflexivity|]. cbn.
    split; [done|]. split; [done|]. split; [done|]. split; [done|].
      by intros k [e He%NewMemory_lookup].
Qed.

(* The entry that a reload stores for an entry of the saved cache. *)
Lemma reloaded_entry (f : File) (disk : Disk) (cfg : MemoryConfig)
    (ts tl : Time) :
  File_closed f = false ->
  closed (memory f) = false ->
  well_keyed (memory f) ->
  MaxEntries cfg = 0 -> MaxMemory cfg = 0 ->
  ts <= tl ->
  ∃ f1 disk1 f2,
    File_Save f disk ts = (f1, disk1, None)
    ∧ NewFile (Some (reload_config f cfg)) disk1 tl = Some f2
    ∧ ∀ k e, data (memory f) !! k = Some e ->
        IsExpired e tl = false -> 0 < len (Value e) ->
        data (memory f2) !! k
        = Some (NewEntry k (Value e) (remaining_ttl e tl) tl).
Proof.
  intros Hopen Hmopen Hkeyed Hme Hmm Hle.
  destruct (File_Save_snapshot f disk ts Hopen Hmopen)
    as (f1 & disk1 & keys & Hsave & Hnd & Hin & Hdisk).
  { intros k e He. by destruct (Hkeyed k e He). }
  set (enc := gobEncode (snapshot_entries (memory f) keys ts)) in *.
  assert (Key <$> enc = keys) as Henc_keys.
  { apply snapshot_entries_keys; [done|].
    intros k (e & He & _)%Hin. by exists e. }
  destruct (load_entries_unbounded enc (NewMemory cfg) tl)
    as (mem' & Hload & Hpresent & _).
  { done. }
  { done. }
  { intros x (k & e & Hk & He & ->)%elem_of_snapshot.
    rewrite gobEntry_snapshot_Key. destruct (Hkeyed k e He) as [-> ?]. done. }
  { by rewrite Henc_keys. }
  exists f1, disk1, (with_memory
                       {| memory := NewMemory cfg; filePath := filePath f;
                          autoSaveInterval := 0; File_closed := false |} mem').
  split; [done|]. split.
  { unfold NewFile, File_Load. cbn. rewrite Hdisk. fold enc.
    unfold gobDecode. by rewrite Hload. }
  cbn [memory with_memory].
  intros k e He Hfresh Hval.
  pose proof (gobEntry_snapshot_Value e ts) as [Hv _].
  destruct (Hkeyed k e He) as [Hke _].
  specialize (Hpresent (gobEntry (snapshot_of e ts))).
  rewrite gobEntry_snapshot_Key, Hke, (Hv Hval) in Hpresent.
  apply Hpresent.
  - apply elem_of_snapshot. exists k, e. split; [|done].
    apply Hin. exists e. split; [done|]. by eapply IsExpired_later.
  - unfold loadable. rewrite gobEntry_snapshot_IsExpired, Hfresh, Hv by done.
    destruct (Value e); [done | cbn in Hval; lia].
Qed.

(** X15: what a reload keeps of an entry besides its key and value.  An
    entry saved and loaded into a new unbounded backend at a later instant
    tl, at which it is not expired, comes back as a new entry: hit count 0,
    creation and last-access time tl, size the length of the value.  Its
    expiry instant is kept when it lies after tl (and less than 2^63 ns
    after it), and an entry without expiry stays without expiry; an entry
    whose expiry instant is exactly tl is stored without expiry. *)
Theorem X15_reload_resets_metadata (f : File) (disk : Disk)
    (cfg : MemoryConfig) (ts tl : Time) :
  File_closed f = false ->
  closed (memory f) = false ->
  well_keyed (memory f) ->
  MaxEntries cfg = 0 -> MaxMemory cfg = 0 ->
  ts <= tl ->
  ∃ f1 disk1 f2,
    File_Save f disk ts = (f1, disk1, None)
    ∧ NewFile (Some (reload_config f cfg)) disk1 tl = Some f2
    ∧ ∀ k e, data (memory f) !! k = Some e ->
        IsExpired e tl = false -> 0 < len (Value e) ->
        ∃ e2,
          data (memory f2) !! k = Some e2
          ∧ Hits e2 = 0
          ∧ CreatedAt e2 = tl
          ∧ UpdatedAt e2 = tl
          ∧ Size e2 = len (Value e)
          ∧ (ExpiresAt e - tl <= Int64.max_int ->
             ExpiresAt e2
             = if ExpiresAt e =? tl then time.zero else ExpiresAt e).
Proof.
  intros Hopen Hmopen Hkeyed Hme Hmm Hle.
  destruct (reloaded_entry f disk cfg ts tl) as (f1 & disk1 & f2 & Hs & Hn & H);
    [done..|].
  exists f1, disk1, f2. split; [done|]. split; [done|].
  intros k e He Hfresh Hval. eexists. split; [by apply H|].
  cbn [Hits CreatedAt UpdatedAt Size ExpiresAt NewEntry].
  split; [done|]. split; [done|]. split; [done|]. split; [done|].
  intros Hrange. revert Hfresh.
  unfold remaining_ttl, IsExpired, time.IsZero, time.After, time.Until,
    time.Sub, time.Add, time.zero.
  destruct (Z.eqb_spec (ExpiresAt e) 0) as [Hz|Hz]; cbn [negb].
  - intros _. rewrite Hz. cbn. by destruct tl.
  - intros Hge%Z.ltb_ge.
    assert (Z.max Int64.min_int (Z.min Int64.max_int (ExpiresAt e - tl))
            = ExpiresAt e - tl) as ->.
    { unfold Int64.min_int, Int64.max_int in *. lia. }
    destruct (Z.eqb_spec (ExpiresAt e) tl) as [->|Hne].
    + by rewrite Z.sub_diag.
    + destruct (Z.ltb_spec 0 (ExpiresAt e - tl)); lia.
Qed.

Lemma X15_reload_resets_metadata_witness :
  ∃ f1 disk1 f2,
    File_Save stale_file ∅ 2 = (f1, disk1, None)
    ∧ NewFile (Some (reload_config stale_file DefaultMemoryConfig)) disk1 5
      = Some f2
    ∧ ∀ k e, data (memory stale_file) !! k = Some e ->
        IsExpired e 5 = false -> 0 < len (Value e) ->
        ∃ e2,
          data (memory f2) !! k = Some e2
          ∧ Hits e2 = 0
          ∧ CreatedAt e2 = 5
          ∧ UpdatedAt e2 = 5
          ∧ Size e2 = len (Value e)
          ∧ (ExpiresAt e - 5 <= Int64.max_int ->
             ExpiresAt e2
             = if ExpiresAt e =? 5 then time.zero else ExpiresAt e).
Proof.
  apply (X15_reload_resets_metadata stale_file ∅ DefaultMemoryConfig 2 5).
  - reflexivity.
  - reflexivity.
  - intros k e Hk. by apply stale_file_keys.
  - reflexivity.
  - reflexivity.
  - lia.
Defined.

Lemma Save_Load_round_trip_witness :
  ∃ f1 disk1 f2,
    File_Save stale_file ∅ 2 = (f1, disk1, None)
    ∧ NewFile (Some (reload_config stale_file DefaultMemoryConfig)) disk1 3
      = Some f2
    ∧ (∀ k e, data (memory stale_file) !! k = Some e ->
         IsExpired e 3 = false -> 0 < len (Value e) ->
         ∃ e2, data (memory f2) !! k = Some e2
               ∧ Key e2 = k ∧ Value e2 = Value e)
    ∧ (∀ k e, data (memory stale_file) !! k = Some e ->
         IsExpired e 3 = true -> data (memory f2) !! k = None)
    ∧ (∀ k e, data (memory stale_file) !! k = Some e ->
         len (Value e) = 0 -> data (memory f2) !! k = None).
Proof.
  apply (Save_Load_round_trip stale_file ∅ DefaultMemoryConfig 2 3).
  - reflexivity.
  - reflexivity.
  - intros k e Hk. by apply stale_file_keys.
  - reflexivity.
  - reflexivity.
  - lia.
Defined.

Lemma gauges_follow_nonempty_values_witness :
  (∀ key value ttl now m' r,
     in_bounds full_cache (len value) ->
     (r = None -> 0 < len value) ->
     Memory_Set full_cache key value ttl now = Some (m', r) ->
     total_ok m' ∧ count_ok m')
  ∧ (∀ key now m' r,
       Memory_Get full_cache key now = (m', r) -> total_ok m' ∧ count_ok m')
  ∧ (∀ key m' r,
       Memory_Delete full_cache key = (m', r) -> total_ok m' ∧ count_ok m')
  ∧ (∀ m' r, Memory_Clear full_cache = (m', r) -> total_ok m' ∧ count_ok m')
  ∧ (∀ now, total_ok (cleanupExpired full_cache now)
            ∧ count_ok (cleanupExpired full_cache now))
  ∧ (∀ m', evictOne full_cache = (m', None) -> total_ok m' ∧ count_ok m').
Proof.
  apply (gauges_follow_nonempty_values full_cache).
  - apply full_cache_ok.
  - apply full_cache_ok.
  - split; by vm_compute.
Defined.

(** ** Entry: expiry *)

(** X18: an entry created at [now] with a positive TTL is expired exactly
    at the instants after [now + ttl]; until then the time left counts down
    from the TTL, and from then on it is 0. *)
Theorem X18_NewEntry_expiry (key : string) (value : bytes) (ttl : Duration)
    (now t : Time) :
  0 < ttl <= Int64.max_int ->
  0 <= now ->
  let e := NewEntry key value ttl now in
  (IsExpired e t = true ↔ now + ttl < t)
  ∧ TimeUntilExpiry e now = ttl
  ∧ (now <= t <= now + ttl -> TimeUntilExpiry e t = now + ttl - t)
  ∧ (now + ttl < t -> TimeUntilExpiry e t = 0)
  ∧ (IsExpired e t = true -> TimeUntilExpiry e t = 0).
Proof.
  intros [Hpos Hmax] Hnow e.
  assert (ExpiresAt e = now + ttl) as Hexp.
  { cbn. destruct (Z.ltb_spec 0 ttl); [done|lia]. }
  unfold IsExpired, TimeUntilExpiry, time.IsZero, time.After, time.Until,
    time.Sub. rewrite Hexp.
  destruct (Z.eqb_spec (now + ttl) 0); [lia|].
  unfold Int64.min_int, Int64.max_int in *.
  split; [apply Z.ltb_lt|]. split; [|split; [|split]].
  - destruct (Z.ltb_spec (Z.max (- 2 ^ 63) (Z.min (2 ^ 63 - 1) (now + ttl - now))) 0);
      lia.
  - intros Ht.
    destruct (Z.ltb_spec (Z.max (- 2 ^ 63) (Z.min (2 ^ 63 - 1) (now + ttl - t))) 0);
      lia.
  - intros Ht.
    destruct (Z.ltb_spec (Z.max (- 2 ^ 63) (Z.min (2 ^ 63 - 1) (now + ttl - t))) 0);
      lia.
  - intros Ht%Z.ltb_lt.
    destruct (Z.ltb_spec (Z.max (- 2 ^ 63) (Z.min (2 ^ 63 - 1) (now + ttl - t))) 0);
      lia.
Qed.

Lemma X18_NewEntry_expiry_witness :
  (IsExpired (NewEntry "light:1" byte_a 4 1) 6 = true ↔ 1 + 4 < 6)
  ∧ TimeUntilExpiry (NewEntry "light:1" byte_a 4 1) 1 = 4.
Proof.
  destruct (X18_NewEntry_expiry "light:1" byte_a 4 1 6) as (H1 & H2 & _).
  - by vm_compute.
  - lia.
  - split; [exact H1 | exact H2].
Defined.

(** ** KeyBuilder and the manager *)

Lemma append_assoc (a b c : string) : (a +:+ b) +:+ c = a +:+ (b +:+ c).
Proof.
  induction a as [|x a IH]; [done|].
  change (String x ((a +:+ b) +:+ c) = String x (a +:+ (b +:+ c))).
  by rewrite IH.
Qed.

(* Two keys agree on their resource type when they agree up to the first
   separator. *)
Lemma type_prefix_inj (t t' a b : string) :
  has_colon t = false -> has_colon t' = false ->
  t +:+ ":" +:+ a = t' +:+ ":" +:+ b -> t = t'.
Proof.
  revert t'. induction t as [|x t IH]; intros [|y t'] Ht Ht'; simpl.
  - done.
  - intros [= <- _]. simpl in Ht'. done.
  - intros [= -> _]. simpl in Ht. done.
  - intros [= -> H]. simpl in Ht, Ht'.
    apply orb_false_iff in Ht as [_ Ht]. apply orb_false_iff in Ht' as [_ Ht'].
    f_equal. by apply IH.
Qed.

(** X19: the key that KeyBuilder.Resource builds for a resource type
    matches the pattern that AllResources builds for a type exactly when the
    two types are the same, for types that do not contain the separator
    ':'.  The nine typed builders and the four typed patterns are instances
    of Resource and AllResources. *)
Theorem X19_type_patterns_separate (t t' id : string) :
  has_colon t = false ->
  has_colon t' = false ->
  (matchPattern (Resource t id) (KeyBuilder_AllResources t') = true ↔ t = t')
  ∧ KeyBuilder_Light id = Resource "light" id
  ∧ KeyBuilder_Room id = Resource "room" id
  ∧ KeyBuilder_Zone id = Resource "zone" id
  ∧ KeyBuilder_Scene id = Resource "scene" id
  ∧ KeyBuilder_SmartScene id = Resource "smart_scene" id
  ∧ KeyBuilder_GroupedLight id = Resource "grouped_light" id
  ∧ KeyBuilder_Device id = Resource "device" id
  ∧ KeyBuilder_Bridge id = Resource "bridge" id
  ∧ KeyBuilder_BridgeHome id = Resource "bridge_home" id
  ∧ KeyBuilder_AllLights = KeyBuilder_AllResources "light"
  ∧ KeyBuilder_AllRooms = KeyBuilder_AllResources "room"
  ∧ KeyBuilder_AllZones = KeyBuilder_AllResources "zone"
  ∧ KeyBuilder_AllScenes = KeyBuilder_AllResources "scene".
Proof.
  intros Ht Ht'. split; [|done].
  unfold KeyBuilder_AllResources, Resource.
  change (t' +:+ ":*") with (t' +:+ ":" +:+ "*").
  rewrite <- (append_assoc t' ":" "*"), matchPattern_prefix.
  unfold starts_with. split.
  - intros [rest H]. rewrite append_assoc in H. by eapply type_prefix_inj.
  - intros ->. exists id. by rewrite append_assoc.
Qed.

Lemma X19_type_patterns_separate_witness :
  matchPattern (KeyBuilder_GroupedLight "1") KeyBuilder_AllLights = true
  ↔ "grouped_light" = "light".
Proof.
  apply (X19_type_patterns_separate "grouped_light" "light" "1"); reflexivity.
Defined.

(* The loop of ClearPattern over the Memory backend. *)
Lemma delete_fold (l : list string) (m m' : Memory) :
  closed m = false ->
  m' = fold_left (fun b key => fst (Memory_Delete b key)) l m ->
  (∀ k, data m' !! k = if decide (k ∈ l) then None else data m !! k)
  ∧ hits (stats m') = hits (stats m)
  ∧ misses (stats m') = misses (stats m)
  ∧ evictions (stats m') = evictions (stats m)
  ∧ closed m' = false
  ∧ config m' = config m.
Proof.
  revert m m'. induction l as [|key l IH]; intros m m' Hopen ->;
    cbn [fold_left].
  - split; [|done]. intros k.
    destruct (decide (k ∈ [])) as [H|]; [by apply elem_of_nil in H|done].
  - set (m1 := fst (Memory_Delete m key)).
    assert (closed m1 = false ∧ data m1 = delete key (data m)
            ∧ hits (stats m1) = hits (stats m)
            ∧ misses (stats m1) = misses (stats m)
            ∧ evictions (stats m1) = evictions (stats m)
            ∧ config m1 = config m) as (Hopen1 & Hd1 & Hh1 & Hm1 & He1 & Hc1).
    { unfold m1, Memory_Delete. rewrite Hopen.
      destruct (data m !! key) as [e|] eqn:He; cbn; [done|].
      by rewrite delete_id. }
    destruct (IH m1 _ Hopen1 eq_refl) as (Hd & Hh & Hm & He & Hcl & Hcfg).
    split; [|split; [|split; [|split; [|split]]]]; try congruence.
    intros k. rewrite Hd, Hd1.
    destruct (decide (k ∈ l)) as [Hl|Hl].
    + rewrite decide_True; [done|]. by apply list_elem_of_further.
    + destruct (decide (k = key)) as [->|Hne].
      * rewrite decide_True by apply list_elem_of_here.
        apply lookup_delete_eq.
      * rewrite decide_False; [by rewrite lookup_delete_ne|].
        intros [?|?]%elem_of_cons; done.
Qed.

(** X20: over the Memory backend, ClearPattern removes the entries whose
    key matches the pattern and that are not expired, and nothing else:
    every other entry, an expired entry under a matching key included, is
    left as it is, and the hit, miss and eviction counters do not move.  On
    a closed backend it returns an error wrapping ErrBackendClosed. *)
Theorem X20_ClearPattern (m : Memory) (pattern : string) (now : Time) :
  ∃ m' r,
    Memory_ClearPattern m pattern now = (m', r)
    ∧ if closed m
      then m' = m ∧ ∃ err, r = Some err ∧ errors_Is err ErrBackendClosed = true
      else
        r = None
        ∧ (∀ k, data m' !! k
                = e ← data m !! k; cleared pattern now k e)
        ∧ hits (stats m') = hits (stats m)
        ∧ misses (stats m') = misses (stats m)
        ∧ evictions (stats m') = evictions (stats m).
Proof.
  unfold Memory_ClearPattern, ClearPattern, Memory_Keys.
  destruct (closed m) eqn:Hopen.
  { eexists _, _. split; [reflexivity|]. split; [done|]. by eexists. }
  set (keys := fold_left (Keys_visit pattern now) (Range (data m)) []).
  eexists _, _. split; [reflexivity|]. split; [done|].
  destruct (delete_fold keys m _ Hopen eq_refl) as (Hd & Hh & Hm & He & _).
  split; [|done]. intros k. rewrite Hd.
  assert (k ∈ keys ↔ ∃ e, data m !! k = Some e ∧ matchPattern k pattern = true
                          ∧ IsExpired e now = false) as Hin.
  { unfold keys. rewrite Keys_fold_elem. unfold Range.
    setoid_rewrite elem_of_map_to_list. split.
    - intros [H|H]; [by apply elem_of_nil in H|done].
    - by right. }
  destruct (decide (k ∈ keys)) as [Hk|Hk].
  - apply Hin in Hk as (e & -> & Hp & Hx).
    change (None = cleared pattern now k e). unfold cleared.
    by rewrite Hp, Hx.
  - destruct (data m !! k) as [e|] eqn:Hlook; [|done].
    change (Some e = cleared pattern now k e). unfold cleared.
    destruct (matchPattern k pattern) eqn:Hp; [|done].
    destruct (IsExpired e now) eqn:Hx; [done|].
    destruct Hk. apply Hin. by exists e.
Qed.

(** ** Sync engine: one event *)

Section SyncEvents.

Variable RawData : Type.
Variable json_Marshal : RawData -> bytes + error.
Variables EventTypeAdd EventTypeUpdate EventTypeDelete : string.
Variable B : Type.
Variable Backend_Set :
  B -> string -> bytes -> Duration -> Time -> B * option error.
Variable Backend_Delete : B -> string -> B * option error.

Local Abbreviation known :=
  (known_type EventTypeAdd EventTypeUpdate EventTypeDelete).
Local Abbreviation run_record :=
  (process_record RawData json_Marshal EventTypeAdd EventTypeUpdate
     EventTypeDelete B Backend_Set Backend_Delete).
Local Abbreviation run_event :=
  (processEvent RawData json_Marshal EventTypeAdd EventTypeUpdate
     EventTypeDelete B Backend_Set Backend_Delete).

(* A record of an event of unknown type: one error, and nothing else. *)
Lemma unknown_record ty c (d : EventData RawData) st b :
  known ty = false ->
  run_record ty c (st, b) d
  = (handleError st
       (ErrorfW "failed to process event data"
          (Errorf ("unknown event type: " +:+ ty))) (now_ c), b).
Proof.
  unfold known_type. intros [[Ha Hu]%orb_false_iff Hd]%orb_false_iff.
  unfold process_record, processEventData. by rewrite Ha, Hu, Hd.
Qed.

Lemma unknown_records_fold ty c (ds : list (EventData RawData)) st b :
  known ty = false ->
  let r := fold_left (run_record ty c) ds (st, b) in
  r.2 = b
  ∧ SyncErrors r.1 = incremented (length ds) (SyncErrors st)
  ∧ EventsProcessed r.1 = EventsProcessed st
  ∧ AddEvents r.1 = AddEvents st
  ∧ UpdateEvents r.1 = UpdateEvents st
  ∧ DeleteEvents r.1 = DeleteEvents st
  ∧ LastEventTime r.1 = LastEventTime st.
Proof.
  intros Hty. cbv zeta. revert st.
  induction ds as [|d ds IH]; intros st; [by cbn|].
  cbn [fold_left]. rewrite unknown_record by done.
  destruct (IH (handleError st
                  (ErrorfW "failed to process event data"
                     (Errorf ("unknown event type: " +:+ ty))) (now_ c)))
    as (Hb & He & Hp & H1 & H2 & H3 & H4).
  split; [done|]. split; [|done].
  rewrite He. cbn [length SyncErrors handleError].
  unfold incremented. by rewrite Nat.iter_succ_r.
Qed.

(** X21: an event whose type is none of add, update and delete leaves the
    cache backend untouched and the three per-kind counters as they were;
    it counts as one processed event and as one sync error for each change
    record it carries. *)
Theorem X21_unknown_event (st : SyncStats) (b : B) (ev : Event RawData)
    (c : Clock) :
  known (Event_Type _ ev) = false ->
  let r := run_event st b ev c in
  r.2 = b
  ∧ EventsProcessed r.1 = Int64.add (EventsProcessed st) 1
  ∧ LastEventTime r.1 = now_ c
  ∧ SyncErrors r.1
    = incremented (length (Event_Data _ ev)) (SyncErrors st)
  ∧ AddEvents r.1 = AddEvents st
  ∧ UpdateEvents r.1 = UpdateEvents st
  ∧ DeleteEvents r.1 = DeleteEvents st.
Proof.
  intros Hty. unfold processEvent.
  destruct (unknown_records_fold (Event_Type _ ev) c (Event_Data _ ev)
              (seen st (now_ c)) b Hty)
    as (Hb & He & Hp & H1 & H2 & H3 & H4).
  destruct (fold_left _ _ _) as [st2 b2]. cbn in *. done.
Qed.

(* The records of an event do not touch the latency average. *)
Lemma records_fold_latency ty c (ds : list (EventData RawData)) st b :
  AvgLatency (fold_left (run_record ty c) ds (st, b)).1 = AvgLatency st.
Proof.
  revert st b. induction ds as [|d ds IH]; intros st b; [done|].
  cbn [fold_left].
  destruct (run_record ty c (st, b) d) as [st1 b1] eqn:Hrec. rewrite IH.
  unfold process_record, processEventData in Hrec.
  destruct (String.eqb ty EventTypeAdd).
  { destruct (handleAdd _ _ _ _ _ _ _) as [b' [err|]];
      by injection Hrec as <- _. }
  destruct (String.eqb ty EventTypeUpdate).
  { destruct (handleUpdate _ _ _ _ _ _ _) as [b' [err|]];
      by injection Hrec as <- _. }
  destruct (String.eqb ty EventTypeDelete).
  { destruct (handleDelete _ _ _ _) as [b' [err|]];
      by injection Hrec as <- _. }
  by injection Hrec as <- _.
Qed.

(** X22: the latency average after an event lies between the average
    before it and the time the event took, whatever the event did: the
    first sample (average 0) is taken as it is, and each later one moves
    the average by a tenth of the difference, rounded toward zero.  The
    clock is assumed not to run backwards and the weighted sum to fit an
    int64. *)
Theorem X22_latency_average (st : SyncStats) (b : B) (ev : Event RawData)
    (c : Clock) :
  0 <= AvgLatency st ->
  start c <= finish c ->
  AvgLatency st * 9 + (finish c - start c) <= Int64.max_int ->
  let latency := finish c - start c in
  let avg := AvgLatency (run_event st b ev c).1 in
  Z.min (AvgLatency st) latency <= avg <= Z.max (AvgLatency st) latency
  ∧ (AvgLatency st = 0 -> avg = latency)
  ∧ (AvgLatency st ≠ 0 -> avg = (AvgLatency st * 9 + latency) / 10).
Proof.
  intros Havg Hclock Hfit latency avg. unfold avg, processEvent.
  pose proof (records_fold_latency (Event_Type _ ev) c (Event_Data _ ev)
                (seen st (now_ c)) b) as Hfold.
  destruct (fold_left _ _ _) as [st2 b2]. cbn [fst snd] in *.
  cbn [AvgLatency update_latency seen] in *. rewrite Hfold.
  assert (time.Since (finish c) (start c) = latency) as ->.
  { unfold time.Since, time.Sub, latency, Int64.min_int, Int64.max_int in *.
    lia. }
  destruct (Z.eqb_spec (AvgLatency st) 0) as [Hz|Hz].
  - rewrite Hz. split; [lia|]. split; [done|]. lia.
  - assert (Int64.div (Int64.add (Int64.mul (AvgLatency st) 9) latency) 10
            = (AvgLatency st * 9 + latency) / 10) as ->.
    { unfold Int64.div, Int64.add, Int64.mul.
      rewrite (wrap_small (AvgLatency st * 9)) by in_range.
      rewrite (wrap_small (AvgLatency st * 9 + latency)) by in_range.
      rewrite Z.quot_div_nonneg by lia.
      apply wrap_small.
      assert (0 <= (AvgLatency st * 9 + latency) / 10
              <= AvgLatency st * 9 + latency).
      { split; [apply Z.div_pos; lia|].
        apply Z.div_le_upper_bound; lia. }
      in_range. }
    split; [|split; [lia|done]].
    split.
    + apply Z.div_le_lower_bound; lia.
    + apply Z.div_le_upper_bound; lia.
Qed.

End SyncEvents.

Lemma X21_unknown_event_witness :
  (sync_Memory NewSyncStats stale_cache [error_event]).2 = stale_cache
  ∧ SyncErrors (sync_Memory NewSyncStats stale_cache [error_event]).1 = 1.
Proof.
  destruct (X21_unknown_event bytes inl "add" "update" "delete" Memory
              Memory_Backend_Set Memory_Delete NewSyncStats stale_cache
              error_event.1 error_event.2)
    as (Hb & _ & _ & He & _).
  - reflexivity.
  - split; [exact Hb | exact He].
Defined.

Lemma X22_latency_average_witness :
  AvgLatency (sync_Memory NewSyncStats stale_cache [add_event]).1 = 2.
Proof.
  destruct (X22_latency_average bytes inl "add" "update" "delete" Memory
              Memory_Backend_Set Memory_Delete NewSyncStats stale_cache
              add_event.1 add_event.2)
    as (_ & H & _).
  - by vm_compute.
  - by vm_compute.
  - by vm_compute.
  - apply H. reflexivity.
Defined.

(** ** Sync engine over the Memory backend *)


Lemma Memory_Backend_Set_unbounded (m : Memory) key value ttl now :
  closed m = false -> unbounded m -> key ≠ "" -> is_nil value = false ->
  Memory_Backend_Set m key value ttl now
  = (store m key (NewEntry key value ttl now), None).
Proof.
  intros Hopen Hunb Hkey Hval. unfold Memory_Backend_Set.
  rewrite (Memory_Set_success m m); [done|done|].
  by apply makeRoom_unbounded.
Qed.



Section FullSyncProperties.

Variable R : Type.
Variable R_ID : R -> string.
Variable json_Marshal : R -> bytes + error.

Local Abbreviation run_each :=
  (sync_each R R_ID json_Marshal Memory Memory_Backend_Set).

Lemma store_unbounded (m : Memory) key entry :
  unbounded m -> unbounded (store m key entry).
Proof.
  unfold unbounded. by destruct (store_closed m key entry) as [_ ->].
Qed.

(* Whether a key is built from the ID of a listed resource. *)
Lemma classic_key (k : string) (keyOf : string -> string) (rs : list R) :
  key_of_listed R R_ID keyOf rs k ∨ ¬ key_of_listed R R_ID keyOf rs k.
Proof.
  induction rs as [|r rs IH].
  - right. intros (r & Hr & _). by apply elem_of_nil in Hr.
  - destruct (decide (keyOf (R_ID r) = k)) as [Heq|Hne].
    + left. exists r. split; [apply list_elem_of_here|done].
    + destruct IH as [(r' & Hr' & Hk)|Hout].
      * left. exists r'. split; [by apply list_elem_of_further|done].
      * right. intros (r' & [->|Hr']%elem_of_cons & Hk); [done|].
        apply Hout. by exists r'.
Qed.

(* One of the five loops of the full sync, over a Memory without limits. *)
Lemma sync_each_Memory (keyOf : string -> string) (rs : list R)
    (m : Memory) (now : Time) :
  closed m = false ->
  unbounded m ->
  (∀ id, keyOf id ≠ "") ->
  marshals R json_Marshal rs ->
  ∃ m',
    run_each keyOf m rs now = (m', None)
    ∧ closed m' = false
    ∧ unbounded m'
    ∧ cached_under R R_ID json_Marshal keyOf rs m' now
    ∧ (∀ k, ¬ key_of_listed R R_ID keyOf rs k -> data m' !! k = data m !! k).
Proof.
  intros Hopen Hunb Hkey.
  revert m Hopen Hunb. induction rs as [|r rs IH]; intros m Hopen Hunb Hm.
  - exists m. split; [done|]. split; [done|]. split; [done|].
    split; [|done]. intros r Hr. by apply elem_of_nil in Hr.
  - destruct (Hm r) as (data & Hdata & Hnil); [apply list_elem_of_here|].
    cbn [sync_each]. rewrite Hdata.
    rewrite Memory_Backend_Set_unbounded by done.
    set (entry := NewEntry (keyOf (R_ID r)) data 0 now).
    destruct (IH (store m (keyOf (R_ID r)) entry))
      as (m' & Hrun & Hopen' & Hunb' & Hcached & Hother).
    { by destruct (store_closed m (keyOf (R_ID r)) entry) as [-> _]. }
    { by apply store_unbounded. }
    { intros r' Hr'. apply Hm. by apply list_elem_of_further. }
    exists m'. split; [done|]. split; [done|]. split; [done|]. split.
    + intros r0 Hr0.
      destruct (classic_key (keyOf (R_ID r0)) keyOf rs) as [Hin|Hout].
      * destruct Hin as (r1 & Hr1 & Hk1).
        destruct (Hcached r1 Hr1) as (e & r' & He & Hr' & Hk' & Hj & Hc & Hx).
        exists e, r'. rewrite <- Hk1.
        split; [done|]. split; [by apply list_elem_of_further|].
        split; [done|]. done.
      * apply elem_of_cons in Hr0 as [->|Hr0].
        -- exists entry, r. rewrite Hother by done.
           rewrite data_store, lookup_insert_eq.
           split; [done|]. split; [apply list_elem_of_here|]. done.
        -- destruct Hout. by exists r0.
    + intros k Hk. rewrite Hother.
      * rewrite data_store. apply lookup_insert_ne. intros Heq.
        apply Hk. exists r. split; [apply list_elem_of_here|done].
      * intros (r1 & Hr1 & Hk1). apply Hk. exists r1.
        split; [by apply list_elem_of_further|done].
Qed.

End FullSyncProperties.

Section FullSyncOverMemory.

Variable R : Type.
Variable R_ID : R -> string.
Variable json_Marshal : R -> bytes + error.

Local Abbreviation cached := (cached_under R R_ID json_Marshal).
Local Abbreviation listed := (key_of_listed R R_ID).

(* What a later loop of the full sync keeps of an earlier one. *)
Lemma cached_under_kept (keyOf : string -> string) (rs : list R)
    (m m' : Memory) (now : Time) :
  cached keyOf rs m now ->
  (∀ k, listed keyOf rs k -> data m' !! k = data m !! k) ->
  cached keyOf rs m' now.
Proof.
  intros Hc Hkept r Hr. destruct (Hc r Hr) as (e & r' & He & H).
  exists e, r'. split; [|done]. rewrite Hkept; [done|]. by exists r.
Qed.

(* The keys of the five kinds of resource start with different letters. *)
Ltac other_kind :=
  let H := fresh in
  let H' := fresh in
  intros k (? & _ & H) (? & _ & H'); rewrite <- H' in H; discriminate H.

Lemma Light_keys_apart (lights others : list R) :
  ∀ k, listed KeyBuilder_Light lights k ->
    ¬ listed KeyBuilder_Room others k ∧ ¬ listed KeyBuilder_Zone others k
    ∧ ¬ listed KeyBuilder_Scene others k
    ∧ ¬ listed KeyBuilder_GroupedLight others k.
Proof. intros k Hk. repeat split; revert k Hk; other_kind. Qed.

Lemma Room_keys_apart (rooms others : list R) :
  ∀ k, listed KeyBuilder_Room rooms k ->
    ¬ listed KeyBuilder_Zone others k ∧ ¬ listed KeyBuilder_Scene others k
    ∧ ¬ listed KeyBuilder_GroupedLight others k.
Proof. intros k Hk. repeat split; revert k Hk; other_kind. Qed.

Lemma Zone_keys_apart (zones others : list R) :
  ∀ k, listed KeyBuilder_Zone zones k ->
    ¬ listed KeyBuilder_Scene others k
    ∧ ¬ listed KeyBuilder_GroupedLight others k.
Proof. intros k Hk. repeat split; revert k Hk; other_kind. Qed.

Lemma Scene_keys_apart (scenes others : list R) :
  ∀ k, listed KeyBuilder_Scene scenes k ->
    ¬ listed KeyBuilder_GroupedLight others k.
Proof. other_kind. Qed.

(** X24: over an open Memory backend without limits, when the bridge
    answers the five List calls and every resource marshals, the full sync
    succeeds and leaves every listed light, room, zone, scene and grouped
    light cached under the key of its kind and ID, as an entry that never
    expires and holds the JSON of a listed resource with that key; a key
    that is not the key of a listed resource is left as it was. *)
Theorem X24_fullSync_populates (m : Memory) (ls : Listings R) (now : Time)
    (lights rooms zones scenes groups : list R) :
  closed m = false ->
  unbounded m ->
  Lights_List R ls = inl lights ->
  Rooms_List R ls = inl rooms ->
  Zones_List R ls = inl zones ->
  Scenes_List R ls = inl scenes ->
  GroupedLights_List R ls = inl groups ->
  marshals R json_Marshal (lights ++ rooms ++ zones ++ scenes ++ groups) ->
  ∃ m',
    fullSync_Memory R R_ID json_Marshal m ls now = (m', None)
    ∧ cached KeyBuilder_Light lights m' now
    ∧ cached KeyBuilder_Room rooms m' now
    ∧ cached KeyBuilder_Zone zones m' now
    ∧ cached KeyBuilder_Scene scenes m' now
    ∧ cached KeyBuilder_GroupedLight groups m' now
    ∧ (∀ k,
         ¬ listed KeyBuilder_Light lights k ->
         ¬ listed KeyBuilder_Room rooms k ->
         ¬ listed KeyBuilder_Zone zones k ->
         ¬ listed KeyBuilder_Scene scenes k ->
         ¬ listed KeyBuilder_GroupedLight groups k ->
         data m' !! k = data m !! k).
Proof.
  intros Hopen Hunb Hl Hr Hz Hs Hg Hm.
  assert (marshals R json_Marshal lights ∧ marshals R json_Marshal rooms
          ∧ marshals R json_Marshal zones ∧ marshals R json_Marshal scenes
          ∧ marshals R json_Marshal groups) as (Hml & Hmr & Hmz & Hms & Hmg).
  { repeat split; intros r Hin; apply Hm; rewrite !elem_of_app; auto. }
  destruct (sync_each_Memory R R_ID json_Marshal KeyBuilder_Light lights m now)
    as (m1 & Hrun1 & Hopen1 & Hunb1 & Hc1 & Ho1); [done|done|done|done|].
  destruct (sync_each_Memory R R_ID json_Marshal KeyBuilder_Room rooms m1 now)
    as (m2 & Hrun2 & Hopen2 & Hunb2 & Hc2 & Ho2); [done|done|done|done|].
  destruct (sync_each_Memory R R_ID json_Marshal KeyBuilder_Zone zones m2 now)
    as (m3 & Hrun3 & Hopen3 & Hunb3 & Hc3 & Ho3); [done|done|done|done|].
  destruct (sync_each_Memory R R_ID json_Marshal KeyBuilder_Scene scenes m3 now)
    as (m4 & Hrun4 & Hopen4 & Hunb4 & Hc4 & Ho4); [done|done|done|done|].
  destruct (sync_each_Memory R R_ID json_Marshal KeyBuilder_GroupedLight
              groups m4 now)
    as (m5 & Hrun5 & Hopen5 & Hunb5 & Hc5 & Ho5); [done|done|done|done|].
  exists m5. split.
  { unfold fullSync_Memory, fullSync, syncLights, syncRooms, syncZones,
      syncScenes, syncGroupedLights, sync_listed.
    by rewrite Hl, Hrun1, Hr, Hrun2, Hz, Hrun3, Hs, Hrun4, Hg, Hrun5. }
  split.
  { apply (cached_under_kept _ _ m1); [done|]. intros k Hk.
    destruct (Light_keys_apart lights rooms k Hk) as (? & _).
    destruct (Light_keys_apart lights zones k Hk) as (_ & ? & _).
    destruct (Light_keys_apart lights scenes k Hk) as (_ & _ & ? & _).
    destruct (Light_keys_apart lights groups k Hk) as (_ & _ & _ & ?).
    by rewrite Ho5, Ho4, Ho3, Ho2. }
  split.
  { apply (cached_under_kept _ _ m2); [done|]. intros k Hk.
    destruct (Room_keys_apart rooms zones k Hk) as (? & _).
    destruct (Room_keys_apart rooms scenes k Hk) as (_ & ? & _).
    destruct (Room_keys_apart rooms groups k Hk) as (_ & _ & ?).
    by rewrite Ho5, Ho4, Ho3. }
  split.
  { apply (cached_under_kept _ _ m3); [done|]. intros k Hk.
    destruct (Zone_keys_apart zones scenes k Hk) as (? & _).
    destruct (Zone_keys_apart zones groups k Hk) as (_ & ?).
    by rewrite Ho5, Ho4. }
  split.
  { apply (cached_under_kept _ _ m4); [done|]. intros k Hk.
    pose proof (Scene_keys_apart scenes groups k Hk).
    by rewrite Ho5. }
  split; [done|].
  intros k H1 H2 H3 H4 H5. by rewrite Ho5, Ho4, Ho3, Ho2, Ho1.
Qed.

End FullSyncOverMemory.

Lemma X24_fullSync_populates_witness :
  ∃ m',
    fullSync_Memory string (fun r => r) (fun _ => inl byte_a)
      (NewMemory DefaultMemoryConfig) one_light 1 = (m', None)
    ∧ cached_under string (fun r => r) (fun _ => inl byte_a)
        KeyBuilder_Light ["1"] m' 1.
Proof.
  destruct (X24_fullSync_populates string (fun r => r) (fun _ => inl byte_a)
              (NewMemory DefaultMemoryConfig) one_light 1 ["1"] [] [] [] [])
    as (m' & Hrun & Hlights & _).
  - reflexivity.
  - by split.
  - reflexivity.
  - reflexivity.
  - reflexivity.
  - reflexivity.
  - reflexivity.
  - intros r _. by exists byte_a.
  - by exists m'.
Defined.

(** ** Sync engine: Start *)

Section StartProperties.

Variable R : Type.
Variable R_ID : R -> string.
Variable json_Marshal : R -> bytes + error.
Variable B : Type.
Variable Backend_Set :
  B -> string -> bytes -> Duration -> Time -> B * option error.

Local Abbreviation Start :=
  (SyncEngine_Start R R_ID json_Marshal B Backend_Set).
Local Abbreviation full :=
  (fullSync R R_ID json_Marshal B Backend_Set).

(** X25: Start refuses an engine that is already running and leaves it as
    it is.  On an engine that is not running it always returns nil and
    marks the engine running: without SyncOnStart the backend and the
    statistics are untouched; with SyncOnStart the backend is the one the
    full sync leaves, and a failure of the full sync is not returned but
    recorded as exactly one sync error whose text wraps the failure. *)
Theorem X25_Start (s : SyncEngine B) (ls : Listings R) (now : Time) :
  ∃ s' r,
    Start s ls now = (s', r)
    ∧ if running _ s then s' = s ∧ r = Some (Errorf "sync engine already running")
      else
        r = None
        ∧ running _ s' = true
        ∧ sync_config _ s' = sync_config _ s
        ∧ if SyncOnStart (sync_config _ s) then
            sync_backend _ s' = (full (sync_backend _ s) ls now).1
            ∧ match (full (sync_backend _ s) ls now).2 with
              | None => sync_stats _ s' = sync_stats _ s
              | Some err =>
                  SyncErrors (sync_stats _ s')
                  = Int64.add (SyncErrors (sync_stats _ s)) 1
                  ∧ LastError (sync_stats _ s')
                    = Some (ErrorfW "initial sync failed" err)
                  ∧ LastErrorTime (sync_stats _ s') = now
                  ∧ EventsProcessed (sync_stats _ s')
                    = EventsProcessed (sync_stats _ s)
              end
          else
            sync_backend _ s' = sync_backend _ s
            ∧ sync_stats _ s' = sync_stats _ s.
Proof.
  unfold SyncEngine_Start. destruct (running _ s); [by eexists _, _|].
  cbn [sync_config sync_backend sync_stats].
  destruct (SyncOnStart (sync_config _ s)); [|by eexists _, _].
  destruct (full (sync_backend _ s) ls now) as [b [err|]];
    eexists _, _; (split; [reflexivity|]); done.
Qed.

End StartProperties.

(** ** Cached light client over the Memory backend *)

Lemma fresh_entry_not_expired key value ttl now t :
  ttl <= 0 ∨ t <= now + ttl ->
  IsExpired (NewEntry key value ttl now) t = false.
Proof.
  intros Hfresh.
  unfold IsExpired, NewEntry, time.IsZero, time.After, time.Add; cbn.
  destruct (Z.ltb_spec 0 ttl); [|done].
  destruct (Z.eqb_spec (now + ttl) 0); [done|].
  apply Z.ltb_ge. lia.
Qed.

(* A Get that finds a live entry. *)
Lemma Memory_Get_hit (m : Memory) key e t :
  closed m = false -> key ≠ "" ->
  data m !! key = Some e -> IsExpired e t = false ->
  ∃ m',
    Memory_Get m key t = (m', inl (Clone (touch e t)))
    ∧ closed m' = false
    ∧ data m' = <[key := touch e t]> (data m).
Proof.
  intros Hopen Hkey He Hx. unfold Memory_Get. rewrite Hopen.
  destruct (String.eqb_spec key "") as [|_]; [done|].
  rewrite He, Hx. eexists. split; [reflexivity|]. done.
Qed.

Section LightClientProperties.

Variable Light : Type.
Variable Light_ID : Light -> string.
Variable LightUpdate : Type.
Variable json_Marshal : Light -> bytes + error.
Variable json_Unmarshal : bytes -> Light + error.

Local Abbreviation Get := (Memory_Light_Get Light json_Marshal json_Unmarshal).
Local Abbreviation List_ :=
  (Memory_Light_List Light Light_ID json_Marshal json_Unmarshal).
Local Abbreviation Update := (Memory_Light_Update LightUpdate).

(** X26: a Get of a light that is not cached asks the SDK, returns its
    answer and stores its JSON under "light:<id>" with the TTL of the
    client; while that entry is not expired, a further Get of the same ID
    returns the same light from the cache, whatever the SDK would answer
    by then.  The cache is an open Memory without limits and the JSON
    codec decodes what it encoded. *)
Theorem X26_Get_populates_the_cache (c : CachedLightClient Memory)
    (client_Get : string -> Light + error) (id : string) (light : Light)
    (encoded : bytes) (now : Time) :
  id ≠ "" ->
  closed (client_backend _ c) = false ->
  unbounded (client_backend _ c) ->
  data (client_backend _ c) !! KeyBuilder_Light id = None ->
  client_Get id = inl light ->
  json_Marshal light = inl encoded ->
  is_nil encoded = false ->
  json_Unmarshal encoded = inl light ->
  ∃ c',
    Get client_Get c id now = (c', inl light)
    ∧ data (client_backend _ c')
      = <[KeyBuilder_Light id
          := NewEntry (KeyBuilder_Light id) encoded (ttl_ _ c) now]>
          (data (client_backend _ c))
    ∧ ∀ (later_Get : string -> Light + error) (t : Time),
        ttl_ _ c <= 0 ∨ t <= now + ttl_ _ c ->
        ∃ c'', Get later_Get c' id t = (c'', inl light).
Proof.
  intros Hid Hopen Hunb Hnone Hsdk Henc Hnil Hdec.
  set (key := KeyBuilder_Light id) in *.
  set (m := client_backend _ c) in *.
  set (entry := NewEntry key encoded (ttl_ _ c) now).
  assert (Memory_Get m key now
          = (with_stats m (RecordMiss (stats m)),
             inr (NewError "Get" key ErrNotFound))) as Hmiss.
  { unfold Memory_Get. rewrite Hopen, Hnone. done. }
  assert (Memory_Backend_Set (with_stats m (RecordMiss (stats m))) key encoded
            (ttl_ _ c) now
          = (store (with_stats m (RecordMiss (stats m))) key entry, None))
    as Hset.
  { by apply Memory_Backend_Set_unbounded. }
  apply String.eqb_neq in Hid.
  eexists. split; [|split].
  - unfold Memory_Light_Get, CachedLightClient_Get. rewrite Hid. fold key m.
    rewrite Hmiss, Hsdk, Henc, Hset. reflexivity.
  - cbn [client_backend with_client_backend fst]. by rewrite data_store.
  - intros later_Get t Hfresh.
    cbn [client_backend with_client_backend fst].
    destruct (Memory_Get_hit (store (with_stats m (RecordMiss (stats m)))
                                key entry) key entry t)
      as (m2 & Hget & _).
    + by rewrite (proj1 (store_closed _ _ _)).
    + done.
    + by rewrite data_store, lookup_insert_eq.
    + by apply fresh_entry_not_expired.
    + unfold Memory_Light_Get, CachedLightClient_Get. rewrite Hid. fold key.
      cbn [client_backend with_client_backend fst ttl_].
      rewrite Hget.
      assert (Value (Clone (touch entry t)) = encoded) as ->.
      { cbn. by destruct encoded. }
      rewrite Hdec. by eexists.
Qed.

(** X27: Update asks the SDK first.  When the SDK refuses, the error is
    returned and the cache is not touched; when it accepts, the entry
    "light:<id>" is removed from the cache and nothing else is, so that the
    next Get of that ID returns what the SDK answers then and never the
    light cached before the update.  An empty ID is refused at once. *)
Theorem X27_Update_invalidates (c : CachedLightClient Memory)
    (client_Update : string -> LightUpdate -> option error)
    (id : string) (update : LightUpdate) :
  closed (client_backend _ c) = false ->
  ∃ c' r,
    Update client_Update c id update = (c', r)
    ∧ if String.eqb id "" then c' = c ∧ r = Some (Errorf "invalid light ID")
      else
        match client_Update id update with
        | Some err => c' = c ∧ r = Some err
        | None =>
            r = None
            ∧ ttl_ _ c' = ttl_ _ c
            ∧ data (client_backend _ c')
              = delete (KeyBuilder_Light id) (data (client_backend _ c))
            ∧ ∀ (client_Get : string -> Light + error) (fresh : Light)
                (t : Time),
                client_Get id = inl fresh ->
                ∃ c'', Get client_Get c' id t = (c'', inl fresh)
        end.
Proof.
  intros Hopen. unfold Memory_Light_Update, CachedLightClient_Update.
  destruct (String.eqb id "") eqn:Hid; [by eexists _, _|].
  destruct (client_Update id update) as [err|]; [by eexists _, _|].
  eexists _, _. split; [reflexivity|]. split; [done|]. split; [done|].
  cbn [client_backend with_client_backend].
  set (key := KeyBuilder_Light id). set (m := client_backend _ c) in *.
  assert (closed (Memory_Delete m key).1 = false
          ∧ data (Memory_Delete m key).1 = delete key (data m)) as [Ho Hd].
  { unfold Memory_Delete. rewrite Hopen.
    destruct (data m !! key) eqn:Hk; cbn; [done|]. by rewrite delete_id. }
  split; [done|].
  intros client_Get fresh t Hsdk.
  unfold Memory_Light_Get, CachedLightClient_Get. rewrite Hid. fold key.
  cbn [client_backend with_client_backend].
  unfold Memory_Get at 1. rewrite Ho, Hd, lookup_delete_eq.
  cbn [String.eqb]. rewrite Hsdk.
  destruct (json_Marshal fresh); by eexists.
Qed.

End LightClientProperties.

Lemma X26_Get_populates_the_cache_witness :
  ∃ c',
    Memory_Light_Get bytes inl inl (fun _ => inl byte_a) new_client "1" 1
    = (c', inl byte_a)
    ∧ ∃ c'',
        Memory_Light_Get bytes inl inl (fun _ => inr ErrNotFound) c' "1" 5
        = (c'', inl byte_a).
Proof.
  destruct (X26_Get_populates_the_cache bytes inl inl new_client
              (fun _ => inl byte_a) "1" byte_a byte_a 1)
    as (c' & Hget & _ & Hlater); [done..|].
  exists c'. split; [exact Hget|].
  apply Hlater. right. by vm_compute.
Defined.

Lemma X27_Update_invalidates_witness :
  ∃ c',
    Memory_Light_Update unit (fun _ _ => None) stale_client "1" tt
    = (c', None)
    ∧ data (client_backend _ c')
      = delete (KeyBuilder_Light "1") (data (client_backend _ stale_client)).
Proof.
  destruct (X27_Update_invalidates bytes unit inl inl stale_client
              (fun _ _ => None) "1" tt)
    as (c' & r & Hup & H); [reflexivity|].
  cbn [String.eqb Ascii.eqb Bool.eqb] in H.
  destruct H as (-> & _ & Hd & _). by exists c'.
Defined.

Section LightListProperties.

Variable Light : Type.
Variable Light_ID : Light -> string.
Variable json_Marshal : Light -> bytes + error.
Variable json_Unmarshal : bytes -> Light + error.

Local Abbreviation List_ :=
  (Memory_Light_List Light Light_ID json_Marshal json_Unmarshal).
Local Abbreviation decodes := (decodes_to Light json_Unmarshal).

(* The loop of List over keys that are all cached, live and decodable. *)
Lemma read_cached_hits (keys : list string) (m m0 : Memory)
    (lights0 : list Light) (now : Time) :
  closed m = false ->
  NoDup keys ->
  (∀ k, k ∈ keys -> data m !! k = data m0 !! k) ->
  (∀ k, k ∈ keys ->
     k ≠ "" ∧ ∃ e l, data m0 !! k = Some e ∧ IsExpired e now = false
                     ∧ json_Unmarshal (Value (Clone e)) = inl l) ->
  ∃ m' lights,
    read_cached Light json_Unmarshal Memory Memory_Get m keys lights0 now
    = (m', Some (lights0 ++ lights))
    ∧ Forall2 (decodes m0) keys lights.
Proof.
  revert m lights0.
  induction keys as [|k keys IH]; intros m lights0 Hopen Hnd Hsame Hkeys.
  - exists m, []. split; [|constructor]. cbn. by rewrite app_nil_r.
  - apply NoDup_cons in Hnd as [Hk Hnd].
    destruct (Hkeys k) as (Hne & e & l & He & Hx & Hdec);
      [apply list_elem_of_here|].
    destruct (Memory_Get_hit m k e now) as (m1 & Hget & Hopen1 & Hd1);
      [done|done| |done|].
    { rewrite Hsame; [done|apply list_elem_of_here]. }
    cbn [read_cached]. rewrite Hget.
    change (Value (Clone (touch e now))) with (Value (Clone e)).
    rewrite Hdec.
    destruct (IH m1 (lights0 ++ [l])) as (m' & lights & Hrun & Hall).
    + done.
    + done.
    + intros k' Hk'. rewrite Hd1, lookup_insert_ne.
      * apply Hsame. by apply list_elem_of_further.
      * intros ->. done.
    + intros k' Hk'. apply Hkeys. by apply list_elem_of_further.
    + exists m', (l :: lights). split.
      * rewrite Hrun. by rewrite <- app_assoc.
      * constructor; [by exists e|done].
Qed.

(** X28: List answers from the cache alone as soon as one light is
    cached.  When the key listing for "light:*" is not empty and each of
    its entries decodes, List returns exactly the lights decoded from those
    entries, in the order of the listing, whatever the SDK would have
    listed: a light of the bridge that is not in the cache is not in the
    answer. *)
Theorem X28_List_answers_from_cache (c : CachedLightClient Memory)
    (keys : list string) (now : Time) :
  closed (client_backend _ c) = false ->
  Memory_Keys (client_backend _ c) KeyBuilder_AllLights now = inl keys ->
  keys ≠ [] ->
  (∀ k, k ∈ keys -> ∃ l, decodes (client_backend _ c) k l) ->
  ∃ c' lights,
    Forall2 (decodes (client_backend _ c)) keys lights
    ∧ ∀ client_List : list Light + error,
        List_ client_List c now = (c', inl lights).
Proof.
  intros Hopen Hkeys Hne Hdec.
  set (m := client_backend _ c) in *.
  assert (NoDup keys ∧ ∀ k, k ∈ keys ->
            k ≠ "" ∧ ∃ e, data m !! k = Some e ∧ IsExpired e now = false)
    as [Hnd Hin].
  { unfold Memory_Keys in Hkeys. rewrite Hopen in Hkeys.
    injection Hkeys as <-. split.
    - apply Keys_fold_NoDup. cbn [app]. apply NoDup_fst_map_to_list.
    - intros k [Hk|(e & He & Hp & Hx)]%Keys_fold_elem;
        [by apply elem_of_nil in Hk|].
      split.
      + change KeyBuilder_AllLights with ("light:" +:+ "*") in Hp.
        apply matchPattern_prefix in Hp as [rest ->]. done.
      + exists e. split; [|done]. by apply elem_of_map_to_list. }
  destruct (read_cached_hits keys m m [] now) as (m' & lights & Hrun & Hall).
  - done.
  - done.
  - done.
  - intros k Hk. destruct (Hin k Hk) as (Hk0 & e & He & Hx).
    split; [done|]. destruct (Hdec k Hk) as (l & e' & He' & Hl).
    exists e, l. split; [done|]. split; [done|]. congruence.
  - exists (with_client_backend _ c m'), lights. split; [done|].
    intros client_List.
    unfold Memory_Light_List, CachedLightClient_List. fold m.
    rewrite Hkeys. destruct keys as [|k keys']; [done|].
    by rewrite Hrun.
Qed.

End LightListProperties.

Lemma X28_List_answers_from_cache_witness :
  ∃ c' lights,
    Forall2 (decodes_to bytes inl (client_backend _ stale_client))
      ["light:1"] lights
    ∧ ∀ client_List : list bytes + error,
        Memory_Light_List bytes (fun _ => "2") inl inl client_List
          stale_client 2
        = (c', inl lights).
Proof.
  apply (X28_List_answers_from_cache bytes (fun _ => "2") inl inl
           stale_client ["light:1"] 2).
  - reflexivity.
  - reflexivity.
  - done.
  - intros k ->%list_elem_of_singleton. exists byte_a, stale_entry.
    by split.
Defined.
